(** * The matching and classification engine of the job finder (brain.py)

    A shallow embedding of [brain.py] and of the tables of [config.py] it
    reads, with the properties of the engine stated and proved over it.

    Conventions of the embedding.
    - A Python [str] is a [string]; a character is a code point below 256,
      classified the way CPython's Unicode tables classify that range.
    - A regular expression [\b + re.escape(s) + \b] is the search for the
      literal [s] between two word boundaries ([word_search], [findall_count]).
    - A Python [set] is a duplicate-free list.  Python leaves the iteration
      order of a set open; every function below that walks a set is shown not
      to depend on that order, or takes the order as it comes.
    - A Python [float] is an element of an arithmetic [Arith F]; the engine is
      written once and read twice, over IEEE binary64 ([float]) and over the
      real numbers ([R]).  In binary64 [math.log], [pow] and [round] are
      those of the C library and stay arbitrary functions; a property that
      needs more of them says what ([pow_finite], [log_moderate]).
    - A Python exception is a [Raise] in the [result] monad: a division by
      zero, a square that overflows, a missing key, a string method or
      operator applied to a value that is not a string. *)

From Stdlib Require Import Bool Arith ZArith Lia List Ascii String.
From Stdlib Require Import Permutation Sorted OrderedTypeEx.
From Stdlib Require Import Floats Reals Lra.
Import ListNotations.

Local Open Scope string_scope.
Local Open Scope bool_scope.
Local Open Scope list_scope.

(* ------------------------------------------------------------------ *)
(** * Characters *)

Module Char.

Definition code (c : ascii) : nat := nat_of_ascii c.

Definition between (lo hi : nat) (c : ascii) : bool :=
  ((lo <=? code c) && (code c <=? hi))%nat.

Definition has_code (n : nat) (c : ascii) : bool := (code c =? n)%nat.

(** [str.isspace], [\s]: TAB..CR, FS..US, space, NEL, NBSP. *)
Definition is_space (c : ascii) : bool :=
  between 9 13 c || between 28 32 c || has_code 133 c || has_code 160 c.

(** [\w]: alphanumeric or underscore. *)
Definition is_word (c : ascii) : bool :=
  between 48 57 c || between 65 90 c || has_code 95 c || between 97 122 c
  || has_code 170 c || has_code 178 c || has_code 179 c || has_code 181 c
  || has_code 185 c || has_code 186 c
  || between 188 190 c || between 192 214 c || between 216 246 c
  || between 248 255 c.

(** [str.lower] on one character. *)
Definition lower (c : ascii) : ascii :=
  if between 65 90 c || between 192 214 c || between 216 222 c
  then ascii_of_nat (code c + 32) else c.

(** The class [[^\w\s\.\+\#]] of the first substitution of [_normalise]. *)
Definition is_special (c : ascii) : bool :=
  negb (is_word c || is_space c
        || has_code 46 c || has_code 43 c || has_code 35 c).

End Char.

(* ------------------------------------------------------------------ *)
(** * Strings: the [str] methods and operators the engine uses *)

Module Str.

Fixpoint map (f : ascii -> ascii) (s : string) : string :=
  match s with
  | EmptyString => EmptyString
  | String c s' => String (f c) (map f s')
  end.

(** [s.lower()] *)
Definition lower (s : string) : string := map Char.lower s.

(** [re.sub(r"\s+", " ", s)]: [in_run] says that the previous character
    was white space, already replaced. *)
Fixpoint collapse (in_run : bool) (s : string) : string :=
  match s with
  | EmptyString => EmptyString
  | String c s' =>
      if Char.is_space c
      then if in_run then collapse true s' else String " " (collapse true s')
      else String c (collapse false s')
  end.

Fixpoint lstrip (s : string) : string :=
  match s with
  | EmptyString => EmptyString
  | String c s' => if Char.is_space c then lstrip s' else s
  end.

Fixpoint rstrip (s : string) : string :=
  match s with
  | EmptyString => EmptyString
  | String c s' =>
      match rstrip s' with
      | EmptyString => if Char.is_space c then EmptyString else String c EmptyString
      | r => String c r
      end
  end.

(** [s.strip()] *)
Definition strip (s : string) : string := lstrip (rstrip s).

(** [s.split()]: the maximal runs of characters that are not white space;
    [cur] is the run being read. *)
Fixpoint split_from (cur : string) (s : string) : list string :=
  match s with
  | EmptyString => match cur with EmptyString => [] | _ => [cur] end
  | String c s' =>
      if Char.is_space c
      then match cur with
           | EmptyString => split_from EmptyString s'
           | _ => cur :: split_from EmptyString s'
           end
      else split_from (cur ++ String c EmptyString) s'
  end.

Definition split (s : string) : list string := split_from EmptyString s.

(** [s[:n]] *)
Definition take (n : nat) (s : string) : string := substring 0 n s.

(** [s[n:]] *)
Fixpoint drop (n : nat) (s : string) : string :=
  match n, s with
  | O, _ => s
  | S _, EmptyString => EmptyString
  | S n', String _ s' => drop n' s'
  end.

Definition head (s : string) : option ascii :=
  match s with EmptyString => None | String c _ => Some c end.

(** The last character of [s], or [dflt] when [s] is empty. *)
Fixpoint last (dflt : option ascii) (s : string) : option ascii :=
  match s with
  | EmptyString => dflt
  | String c s' => last (Some c) s'
  end.

(** [needle in hay] *)
Fixpoint contains (needle hay : string) : bool :=
  prefix needle hay
  || match hay with
     | EmptyString => false
     | String _ hay' => contains needle hay'
     end.

(** [not s]: the truth value of a string is that it is not empty. *)
Definition is_empty (s : string) : bool :=
  match s with EmptyString => true | _ => false end.

(** [a < b] on strings: lexicographic on code points. *)
Definition ltb (a b : string) : bool := String.ltb a b.

End Str.

(* ------------------------------------------------------------------ *)
(** * Regular expressions: [\b literal \b] *)

Module Re.

Definition word_at (o : option ascii) : bool :=
  match o with Some c => Char.is_word c | None => false end.

(** [\b] between the character [before] and the character [after]; the
    outside of the text counts as a non-word character. *)
Definition boundary (before after : option ascii) : bool :=
  xorb (word_at before) (word_at after).

(** The pattern matches at the start of [s], which [prev] precedes. *)
Definition match_here (prev : option ascii) (pat s : string) : bool :=
  prefix pat s
  && boundary prev (Str.head s)
  && boundary (Str.last prev pat) (Str.head (Str.drop (length pat) s)).

Fixpoint search_from (prev : option ascii) (pat s : string) : bool :=
  match_here prev pat s
  || match s with
     | EmptyString => false
     | String c s' => search_from (Some c) pat s'
     end.

(** [re.search(rf"\b{re.escape(pat)}\b", s)] finds a match. *)
Definition word_search (pat s : string) : bool := search_from None pat s.

(** The matches [re.findall] collects, left to right and not overlapping:
    [skip] characters are still covered by the match found last. *)
Fixpoint findall_from (skip : nat) (prev : option ascii) (pat s : string)
  {struct s} : nat :=
  match skip, s with
  | S k, EmptyString => 0
  | S k, String c s' => findall_from k (Some c) pat s'
  | O, EmptyString => if match_here prev pat s then 1 else 0
  | O, String c s' =>
      if match_here prev pat s
      then S (findall_from (length pat - 1) (Some c) pat s')
      else findall_from 0 (Some c) pat s'
  end.

(** [len(re.findall(rf"\b{re.escape(pat)}\b", s))] *)
Definition findall_count (pat s : string) : nat := findall_from 0 None pat s.

End Re.

(* ------------------------------------------------------------------ *)
(** * Sets and sorting *)

(** [set(l)] *)
Definition set_of (l : list string) : list string := nodup string_dec l.

(** [x in l] *)
Definition mem (x : string) (l : list string) : bool :=
  existsb (String.eqb x) l.

Section StableSort.

Variable A : Type.
(** [before x y]: [x] has to come before [y]. *)
Variable before : A -> A -> bool.

(** [x] enters in front of a list whose elements came after it: it passes
    only the elements that have to come before it, so equal elements keep
    their order. *)
Fixpoint insert (x : A) (l : list A) : list A :=
  match l with
  | [] => [x]
  | y :: l' => if before y x then y :: insert x l' else x :: l
  end.

(** [list.sort], [sorted]: a stable sort. *)
Fixpoint stable_sort (l : list A) : list A :=
  match l with
  | [] => []
  | x :: l' => insert x (stable_sort l')
  end.

End StableSort.

Arguments insert {A} before x l.
Arguments stable_sort {A} before l.

(** [sorted(l)] on strings. *)
Definition sorted_str (l : list string) : list string :=
  stable_sort Str.ltb l.

(* ------------------------------------------------------------------ *)
(** * config.py *)

Module Config.

Definition MATCH_THRESHOLD_PCT : Z := 72.

Definition TECH_SKILLS : list string :=
  [ "python"; "r"; "sql"; "scala"; "java"; "julia"; "bash"; "shell";
    "tensorflow"; "pytorch"; "keras"; "scikit-learn"; "sklearn"; "xgboost";
    "lightgbm"; "catboost"; "huggingface"; "transformers"; "pandas";
    "numpy"; "scipy"; "dask"; "polars"; "matplotlib"; "seaborn"; "plotly";
    "tableau"; "power bi"; "powerbi"; "looker"; "d3.js"; "spark";
    "pyspark"; "hadoop"; "hive"; "kafka"; "airflow"; "aws"; "gcp"; "azure";
    "s3"; "ec2"; "sagemaker"; "databricks"; "snowflake"; "redshift";
    "bigquery"; "postgresql"; "mysql"; "mongodb"; "cassandra";
    "elasticsearch"; "redis"; "sqlite"; "mlflow"; "kubeflow"; "docker";
    "kubernetes"; "git"; "github"; "gitlab"; "ci/cd"; "jenkins";
    "terraform"; "nlp"; "natural language processing"; "spacy"; "nltk";
    "bert"; "gpt"; "llm"; "rag"; "langchain"; "openai"; "statistics";
    "probability"; "linear algebra"; "calculus"; "hypothesis testing";
    "a/b testing"; "regression"; "classification"; "clustering";
    "time series"; "forecasting"; "bayesian"; "jupyter"; "anaconda";
    "streamlit"; "flask"; "fastapi"; "rest api"; "graphql"; "etl";
    "data pipeline"; "feature engineering"; "data wrangling"; "eda";
    "exploratory data analysis" ].

(** [set(s.lower().strip() for s in ...)] *)
Definition lower_strip_set (l : list string) : list string :=
  set_of (List.map (fun s => Str.strip (Str.lower s)) l).

Definition TECH_SKILLS_SET : list string := lower_strip_set TECH_SKILLS.

Definition SOFT_SKILLS : list string :=
  [ "communication"; "collaboration"; "teamwork"; "leadership";
    "problem solving"; "problem-solving"; "critical thinking";
    "analytical thinking"; "attention to detail"; "time management";
    "project management"; "stakeholder management"; "presentation";
    "mentoring"; "cross-functional"; "agile"; "scrum" ].

Definition SOFT_SKILLS_SET : list string := lower_strip_set SOFT_SKILLS.

Definition MAANG_COMPANIES : list (string * list string) :=
  [ ("meta", ["meta"; "facebook"; "instagram"; "whatsapp"; "oculus"]);
    ("apple", ["apple"; "apple inc"]);
    ("amazon", ["amazon"; "aws"; "amazon web services"; "amazon.com"]);
    ("netflix", ["netflix"]);
    ("google", ["google"; "alphabet"; "deepmind"; "waymo"; "youtube"]) ].

(** The loop [MAANG_ALIASES.update(a.lower() for a in aliases)]. *)
Definition MAANG_ALIASES : list string :=
  set_of (flat_map (fun kv => List.map Str.lower (snd kv)) MAANG_COMPANIES).

Definition FORTUNE_500_COMPANIES : list string :=
  [ "apple"; "amazon"; "alphabet"; "google"; "microsoft"; "meta";
    "facebook"; "netflix"; "intel"; "ibm"; "oracle"; "salesforce"; "dell";
    "hp"; "hewlett packard"; "qualcomm"; "cisco"; "broadcom"; "nvidia";
    "amd"; "jpmorgan"; "jp morgan"; "bank of america"; "wells fargo";
    "goldman sachs"; "morgan stanley"; "citigroup"; "citi";
    "american express"; "visa"; "mastercard"; "paypal"; "fidelity";
    "charles schwab"; "blackrock"; "vanguard"; "capital one";
    "unitedhealth"; "cvs health"; "mckesson"; "johnson & johnson";
    "abbvie"; "pfizer"; "merck"; "eli lilly"; "bristol myers squibb";
    "humana"; "anthem"; "cigna"; "walmart"; "target"; "costco";
    "home depot"; "lowes"; "kroger"; "walgreens"; "procter & gamble";
    "coca-cola"; "pepsico"; "nestle"; "exxon"; "chevron"; "shell"; "bp";
    "conocophillips"; "general electric"; "ge"; "boeing";
    "lockheed martin"; "raytheon"; "caterpillar"; "honeywell"; "3m";
    "at&t"; "verizon"; "comcast"; "disney"; "warner bros"; "t-mobile";
    "charter"; "ford"; "general motors"; "gm"; "tesla"; "accenture";
    "deloitte"; "kpmg"; "pwc"; "ernst & young"; "ey"; "mckinsey"; "bain";
    "fedex"; "ups"; "dhl"; "uber"; "lyft"; "airbnb"; "twitter"; "linkedin";
    "snap"; "spotify"; "adobe"; "workday"; "servicenow"; "palantir";
    "snowflake"; "databricks"; "stripe"; "square"; "block" ].

Definition FORTUNE_500_SET : list string :=
  lower_strip_set FORTUNE_500_COMPANIES.

Definition H1B_POSITIVE_KEYWORDS : list string :=
  [ "h1b"; "h-1b"; "h1-b"; "will sponsor"; "visa sponsorship";
    "sponsorship available"; "open to sponsorship"; "sponsor work visa";
    "employment authorization"; "work authorization provided";
    "we sponsor"; "sponsoring h1b"; "ead accepted"; "visa transfer";
    "h1b transfer" ].

Definition H1B_NEGATIVE_KEYWORDS : list string :=
  [ "no sponsorship"; "not able to sponsor"; "cannot sponsor";
    "sponsorship not available"; "must be authorized";
    "must be eligible to work"; "us citizens only";
    "us citizen or permanent resident"; "green card only"; "no h1b";
    "no visa"; "no h-1b"; "we are unable to sponsor";
    "unable to provide sponsorship"; "does not sponsor" ].

Definition PORTAL_PATTERNS : list (string * list string) :=
  [ ("Workday", ["workday.com"; "myworkdayjobs.com"]);
    ("Greenhouse", ["greenhouse.io"; "boards.greenhouse.io"]);
    ("Lever", ["lever.co"; "jobs.lever.co"]);
    ("Taleo", ["taleo.net"; "oraclecloud.com/hcmUI/CandidateExperience"]);
    ("iCIMS", ["icims.com"]);
    ("SmartRecruiters", ["smartrecruiters.com"]);
    ("BambooHR", ["bamboohr.com"]);
    ("Jobvite", ["jobvite.com"]);
    ("ADP", ["adp.com"; "workforcenow.adp.com"]);
    ("SAP SuccessFactors", ["successfactors.com"; "sapsf.com"]);
    ("LinkedIn Easy Apply", ["linkedin.com/jobs"]);
    ("Indeed", ["indeed.com/apply"; "indeed.com/viewjob"]) ].

End Config.

(* ------------------------------------------------------------------ *)
(** * brain.py: text helpers and detectors *)

(** [_normalise]: lower case, special characters to spaces, runs of white
    space to one space, strip. *)
Definition _normalise (text : string) : string :=
  let text := Str.lower text in
  let text := Str.map (fun c => if Char.is_special c then " "%char else c) text in
  let text := Str.collapse false text in
  Str.strip text.

(** [_tokenise] *)
Definition _tokenise (text : string) : list string :=
  Str.split (_normalise text).

(** [any(kw in norm for kw in keywords)] *)
Definition any_in (keywords : list string) (norm : string) : bool :=
  existsb (fun kw => Str.contains kw norm) keywords.

(** [detect_h1b]: [Some true] is [True], [Some false] is [False]. *)
Definition detect_h1b (text : string) : option bool :=
  let norm := _normalise text in
  let positive := any_in Config.H1B_POSITIVE_KEYWORDS norm in
  let negative := any_in Config.H1B_NEGATIVE_KEYWORDS norm in
  if negative then Some false
  else if positive then Some true
  else None.

(** The loop of [detect_maang] over a set of aliases. *)
Definition detect_maang_in (aliases : list string) (company_name job_text : string)
  : bool :=
  let search_corpus := _normalise (company_name ++ " " ++ Str.take 500 job_text) in
  existsb (fun alias => Re.word_search alias search_corpus) aliases.

Definition detect_maang (company_name job_text : string) : bool :=
  detect_maang_in Config.MAANG_ALIASES company_name job_text.

(** The loop of [detect_fortune500] over a set of names. *)
Definition detect_fortune500_in (names : list string) (company_name : string)
  : bool :=
  let norm_name := _normalise company_name in
  existsb (fun f500 => Str.contains f500 norm_name || Str.contains norm_name f500)
          names.

Definition detect_fortune500 (company_name : string) : bool :=
  detect_fortune500_in Config.FORTUNE_500_SET company_name.

(** [detect_portal]: the first portal of the table one of whose patterns
    occurs in the text. *)
Definition detect_portal (job_url job_text : string) : string :=
  let search_text := Str.lower (job_url ++ " " ++ Str.take 1000 job_text) in
  match
    find (fun kv => existsb (fun pattern => Str.contains (Str.lower pattern) search_text)
                            (snd kv))
         Config.PORTAL_PATTERNS
  with
  | Some (portal_name, _) => portal_name
  | None => "Unknown"
  end.

(* ------------------------------------------------------------------ *)
(** * ATS keyword extraction *)

(** [a | b] on sets. *)
Definition set_union (a b : list string) : list string := set_of (a ++ b).

(** The sort key [(-count, name)] compared with [<]: more occurrences first,
    then the smaller name. *)
Definition hit_before (x y : string * nat) : bool :=
  ((snd y <? snd x) || ((snd x =? snd y) && Str.ltb (fst x) (fst y)))%nat.

(** The hits of the loop over a set of skills enumerated as [skills]. *)
Definition job_skill_hits (skills : list string) (norm_job : string)
  : list (string * nat) :=
  filter (fun h => (0 <? snd h)%nat)
         (List.map (fun skill => (skill, Re.findall_count skill norm_job)) skills).

Definition extract_ats_keywords_in (skills : list string) (job_text : string)
  : list string :=
  let norm_job := _normalise job_text in
  let hits := stable_sort hit_before (job_skill_hits skills norm_job) in
  List.map fst (firstn 20 hits).

(** The profile [Data_Extraction.extract_resume_keywords] returns, with the
    two entries the engine reads. *)
Record ResumeProfile : Type := mkProfile {
  raw_text : string;
  all_keywords : list string
}.

(** [extract_ats_keywords]: the profile is read into [resume_skills], which
    the rest of the function never uses. *)
Definition extract_ats_keywords (job_text : string) (resume_profile : ResumeProfile)
  : list string :=
  let resume_skills := set_of (all_keywords resume_profile) in
  let all_known_skills := set_union Config.TECH_SKILLS_SET Config.SOFT_SKILLS_SET in
  extract_ats_keywords_in all_known_skills job_text.

(** The résumé skills that occur in a normalised text as whole words. *)
Definition matching_skills (resume_skills : list string) (norm : string)
  : list string :=
  filter (fun s => Re.word_search s norm) resume_skills.

(* ------------------------------------------------------------------ *)
(** * Exceptions *)

Inductive exn : Type :=
| ZeroDivisionError
| OverflowError
| KeyError
| AttributeError
| TypeError.

Inductive result (A : Type) : Type :=
| Ok (a : A)
| Raise (e : exn).

Arguments Ok {A} a.
Arguments Raise {A} e.

Definition bind {A B : Type} (c : result A) (k : A -> result B) : result B :=
  match c with
  | Ok a => k a
  | Raise e => Raise e
  end.

Notation "x <- c ;; k" := (bind c (fun x => k))
  (at level 61, c at next level, right associativity).

(** A comprehension whose body may raise. *)
Fixpoint mapM {A B : Type} (f : A -> result B) (l : list A) : result (list B) :=
  match l with
  | [] => Ok []
  | x :: l' => y <- f x ;; ys <- mapM f l' ;; Ok (y :: ys)
  end.

(* ------------------------------------------------------------------ *)
(** * Dictionaries with string keys, in insertion order *)

Section Dict.

Context {V : Type}.

Definition dict : Type := list (string * V).

Definition keys (d : dict) : list string := List.map fst d.
Definition values (d : dict) : list V := List.map snd d.

Fixpoint lookup (k : string) (d : dict) : option V :=
  match d with
  | [] => None
  | (k', v) :: d' => if String.eqb k' k then Some v else lookup k d'
  end.

(** [d.get(k, dflt)] *)
Definition get (k : string) (dflt : V) (d : dict) : V :=
  match lookup k d with Some v => v | None => dflt end.

(** [d[k]] *)
Definition item (k : string) (d : dict) : result V :=
  match lookup k d with Some v => Ok v | None => Raise KeyError end.

(** [d[k] = v]: a key keeps the place it was first given. *)
Fixpoint set_item (k : string) (v : V) (d : dict) : dict :=
  match d with
  | [] => [(k, v)]
  | (k', v') :: d' =>
      if String.eqb k' k then (k', v) :: d' else (k', v') :: set_item k v d'
  end.

End Dict.

Arguments dict V : clear implicits.

(** [d[k] = d.get(k, 0) + 1] *)
Definition incr (k : string) (d : dict Z) : dict Z :=
  set_item k (get k 0%Z d + 1)%Z d.

(** [Counter(tokens)] *)
Definition Counter (tokens : list string) : dict Z :=
  fold_left (fun tf t => incr t tf) tokens [].

(** [set(a) & set(b)], enumerated along [a]. *)
Definition set_and (a b : list string) : list string :=
  filter (fun k => mem k b) (set_of a).

(* ------------------------------------------------------------------ *)
(** * Job postings *)

(** The values a posting carries. *)
Inductive pyval : Type :=
| PStr (s : string)
| PNone
| PInt (n : Z).

(** A raw job dict of the scraper. *)
Definition Job : Type := dict pyval.

(** The use of [v] as a string; another value raises [e]. *)
Definition expect_str (e : exn) (v : pyval) : result string :=
  match v with
  | PStr s => Ok s
  | _ => Raise e
  end.

(* ------------------------------------------------------------------ *)
(** * Arithmetic *)

(** The operations of Python's [float] that the engine uses.  A square
    raises when it overflows.  [math.sqrt] and [math.log] raise outside
    their domains, which the engine never leaves: it takes the square root
    of a sum of squares and the logarithm of a quotient of two positive
    ints. *)
Class Arith (F : Type) : Type := {
  of_int : Z -> F;            (* float(n), the value of an int operand *)
  fadd : F -> F -> F;         (* x + y *)
  fmul : F -> F -> F;         (* x * y *)
  fdiv : F -> F -> F;         (* x / y, for y that is not zero *)
  fsquare : F -> result F;    (* x ** 2 *)
  fsqrt : F -> F;             (* math.sqrt(x) *)
  flog : F -> F;              (* math.log(x) *)
  fround1 : F -> F;           (* round(x, 1) *)
  feqb : F -> F -> bool;      (* x == y *)
  fltb : F -> F -> bool;      (* x < y *)
  fleb : F -> F -> bool       (* x <= y *)
}.

Section Engine.

Context {F : Type} {A : Arith F}.

(** A decimal literal [n/d], as [0.65] is [65/100]: the division of two
    integers that [F] holds exactly is rounded once, to [F]'s value of the
    literal. *)
Definition decimal (n d : Z) : F := fdiv (of_int n) (of_int d).

(** [a / b] on two ints. *)
Definition int_truediv (a b : Z) : result F :=
  if (b =? 0)%Z then Raise ZeroDivisionError
  else Ok (fdiv (of_int a) (of_int b)).

(** [x / y] on two floats. *)
Definition float_truediv (x y : F) : result F :=
  if feqb y (of_int 0) then Raise ZeroDivisionError else Ok (fdiv x y).

(** [sum(xs)]: from the int [0], adding left to right (CPython 3.12 and
    later also carry a compensation term, which changes no sum whose
    additions are exact). *)
Definition py_sum (xs : list F) : F := fold_left fadd xs (of_int 0).

(** [min(a, b)] and [max(a, b)] keep their first argument unless the second
    is strictly better. *)
Definition py_min (a b : F) : F := if fltb b a then b else a.
Definition py_max (a b : F) : F := if fltb a b then b else a.

(** [_build_tfidf_vector] *)
Definition _build_tfidf_vector (tokens : list string) (idf : dict F)
  : result (dict F) :=
  let tf := Counter tokens in
  let total := if (Z.of_nat (List.length tokens) =? 0)%Z then 1%Z
               else Z.of_nat (List.length tokens) in
  mapM (fun '(term, count) =>
          q <- int_truediv count total ;;
          Ok (term, fmul q (get term (of_int 1) idf)))
       tf.

(** [sqrt(sum(v ** 2 for v in vec.values()))] *)
Definition magnitude (vec : dict F) : result F :=
  squares <- mapM fsquare (values vec) ;;
  Ok (fsqrt (py_sum squares)).

(** [_cosine_similarity] *)
Definition _cosine_similarity (vec_a vec_b : dict F) : result F :=
  let common := set_and (keys vec_a) (keys vec_b) in
  match common with
  | [] => Ok (of_int 0)
  | _ =>
      prods <- mapM (fun t => a <- item t vec_a ;; b <- item t vec_b ;;
                              Ok (fmul a b)) common ;;
      let dot := py_sum prods in
      mag_a <- magnitude vec_a ;;
      mag_b <- magnitude vec_b ;;
      if feqb mag_a (of_int 0) || feqb mag_b (of_int 0) then Ok (of_int 0)
      else float_truediv dot (fmul mag_a mag_b)
  end.

(** The document frequencies [df] of [_compute_idf]. *)
Definition doc_freq (corpus : list (list string)) : dict Z :=
  fold_left (fun df tokens => fold_left (fun df term => incr term df)
                                        (set_of tokens) df)
            corpus [].

(** [_compute_idf] *)
Definition _compute_idf (corpus : list (list string)) : result (dict F) :=
  let n := Z.of_nat (List.length corpus) in
  mapM (fun '(term, count) =>
          q <- int_truediv (n + 1) (count + 1) ;;
          Ok (term, fadd (flog q) (of_int 1)))
       (doc_freq corpus).

(** Component 1 of [calculate_match_score]. *)
Definition tfidf_similarity (resume_text job_text : string) : result F :=
  let resume_tokens := _tokenise resume_text in
  let job_tokens := _tokenise job_text in
  idf <- _compute_idf [resume_tokens; job_tokens] ;;
  vec_resume <- _build_tfidf_vector resume_tokens idf ;;
  vec_job <- _build_tfidf_vector job_tokens idf ;;
  _cosine_similarity vec_resume vec_job.

(** Component 2 of [calculate_match_score]. *)
Definition overlap_ratio (resume_profile : ResumeProfile) (job_text : string)
  : result F :=
  let resume_skills := set_of (all_keywords resume_profile) in
  let norm_job := _normalise job_text in
  let matched_skills :=
    Z.of_nat (List.length (matching_skills resume_skills norm_job)) in
  int_truediv matched_skills (Z.max (Z.of_nat (List.length resume_skills)) 1).

(** [max(0.0, min(1.0, combined))] *)
Definition clip (combined : F) : F :=
  py_max (of_int 0) (py_min (of_int 1) combined).

(** [calculate_match_score] *)
Definition calculate_match_score (resume_profile : ResumeProfile)
           (job_text : string) (alpha beta : F) : result F :=
  let resume_text := raw_text resume_profile in
  if Str.is_empty resume_text || Str.is_empty job_text then Ok (of_int 0)
  else
    tfidf_sim <- tfidf_similarity resume_text job_text ;;
    overlap <- overlap_ratio resume_profile job_text ;;
    let combined := fadd (fmul alpha tfidf_sim) (fmul beta overlap) in
    Ok (clip combined).

(** The default weights of [calculate_match_score]. *)
Definition alpha_default : F := decimal 65 100.
Definition beta_default : F := decimal 35 100.

(** [MATCH_THRESHOLD = MATCH_THRESHOLD_PCT / 100.0] *)
Definition MATCH_THRESHOLD : F :=
  fdiv (of_int Config.MATCH_THRESHOLD_PCT) (of_int 100).

(** The enriched dict [classify_job] returns: the posting it was given and
    the entries it adds, which shadow the posting's own. *)
Record ClassifiedJob : Type := mkClassified {
  posting : Job;
  match_score : F;
  match_pct : F;
  h1b_sponsor : option bool;
  is_maang : bool;
  is_fortune500 : bool;
  portal : string;
  ats_keywords : list string;
  key_skills : list string;
  above_threshold : bool
}.

(** [classify_job].  A posting entry that is not a string raises where a
    string method or operator is first applied to it: [description.lower()]
    in [_normalise] (at the latest in [detect_h1b]; [calculate_match_score]
    may return [0.0] before it, with no other effect), and
    [company_name + " "], [job_url + " "] in the detectors. *)
Definition classify_job (job : Job) (resume_profile : ResumeProfile)
  : result ClassifiedJob :=
  let description := get "description" (PStr "") job in
  let company := get "company" (PStr "") job in
  let url := get "url" (PStr "") job in
  description <- expect_str AttributeError description ;;
  score <- calculate_match_score resume_profile description
             alpha_default beta_default ;;
  let match_pct := fround1 (fmul score (of_int 100)) in
  let h1b := detect_h1b description in
  company <- expect_str TypeError company ;;
  let is_maang := detect_maang company description in
  let is_f500 := detect_fortune500 company in
  url <- expect_str TypeError url ;;
  let portal := detect_portal url description in
  let ats_kw := extract_ats_keywords description resume_profile in
  let norm_desc := _normalise description in
  let resume_skills := set_of (all_keywords resume_profile) in
  let key_skills := matching_skills resume_skills norm_desc in
  Ok {| posting := job;
        match_score := score;
        match_pct := match_pct;
        h1b_sponsor := h1b;
        is_maang := is_maang;
        is_fortune500 := is_f500;
        portal := portal;
        ats_keywords := ats_kw;
        key_skills := sorted_str key_skills;
        above_threshold := fleb MATCH_THRESHOLD score |}.

(** The loop of [classify_jobs_batch]: a posting whose classification
    raises is logged and left out. *)
Definition classify_all (jobs : list Job) (resume_profile : ResumeProfile)
  : list ClassifiedJob :=
  fold_left (fun enriched job =>
               match classify_job job resume_profile with
               | Ok classified => enriched ++ [classified]
               | Raise exc => enriched
               end)
            jobs [].

(** [reverse=True]: every comparison of the keys is reversed. *)
Definition pct_before (x y : ClassifiedJob) : bool :=
  fltb (match_pct y) (match_pct x).

(** [classify_jobs_batch] *)
Definition classify_jobs_batch (jobs : list Job) (resume_profile : ResumeProfile)
  : list ClassifiedJob :=
  let enriched := classify_all jobs resume_profile in
  let qualified := filter above_threshold enriched in
  stable_sort pct_before qualified.

End Engine.

Arguments ClassifiedJob F : clear implicits.

(* ------------------------------------------------------------------ *)
(** * The two arithmetics *)

(** IEEE binary64, the arithmetic of the interpreter.  [math.log], [pow]
    (behind [** 2]) and [round] belong to the C library and are taken as
    they are given.  An int operand below [2^53] converts exactly. *)
Module Binary64.

Definition float_of_int (z : Z) : float :=
  match z with
  | Z0 => PrimFloat.zero
  | Zpos _ => PrimFloat.of_uint63 (Uint63.of_Z z)
  | Zneg p => PrimFloat.opp (PrimFloat.of_uint63 (Uint63.of_Z (Zpos p)))
  end.

(** [x ** 2]: a NaN and an infinity are answered without the library; a
    finite [x] whose square is infinite raises. *)
Definition square (pow2 : float -> float) (x : float) : result float :=
  if PrimFloat.is_nan x then Ok x
  else if PrimFloat.is_infinity x then Ok PrimFloat.infinity
  else
    let y := pow2 x in
    if PrimFloat.is_infinity y then Raise OverflowError else Ok y.

Definition arith (log pow2 round1 : float -> float) : Arith float :=
  {| of_int := float_of_int;
     fadd := PrimFloat.add;
     fmul := PrimFloat.mul;
     fdiv := PrimFloat.div;
     fsquare := square pow2;
     fsqrt := PrimFloat.sqrt;
     flog := log;
     fround1 := round1;
     feqb := PrimFloat.eqb;
     fltb := PrimFloat.ltb;
     fleb := PrimFloat.leb |}.

(** An arithmetic to run the engine on samples.  It knows of [math.log]
    that [math.log(1.0)] is [0.0], and answers NaN elsewhere; it squares by
    the rounded product, which is the square wherever the product is exact;
    it leaves [round] out.  What is proved of binary64 is proved for every
    three functions in their place. *)
Definition log_at_one (x : float) : float :=
  if PrimFloat.eqb x PrimFloat.one then PrimFloat.zero else PrimFloat.nan.

Definition plain : Arith float :=
  arith log_at_one (fun x => PrimFloat.mul x x) (fun x => x).

End Binary64.

(** The real numbers: the engine as the mathematics of TF-IDF reads it. *)
Module Exact.

Definition eqb (x y : R) : bool := if Req_dec_T x y then true else false.
Definition ltb (x y : R) : bool := if Rlt_dec x y then true else false.
Definition leb (x y : R) : bool := if Rle_dec x y then true else false.

(** The nearest integer, a tie going to the even one. *)
Definition round_half_even (y : R) : Z :=
  let f := Int_part y in
  let d := (y - IZR f)%R in
  if Rlt_dec d (1 / 2) then f
  else if Rlt_dec (1 / 2) d then (f + 1)%Z
  else if Z.even f then f else (f + 1)%Z.

Definition round1 (x : R) : R := (IZR (round_half_even (x * 10)) / 10)%R.

Definition arith : Arith R :=
  {| of_int := IZR;
     fadd := Rplus;
     fmul := Rmult;
     fdiv := Rdiv;
     fsquare := fun x => Ok (x * x)%R;
     fsqrt := sqrt;
     flog := ln;
     fround1 := round1;
     feqb := eqb;
     fltb := ltb;
     fleb := leb |}.

End Exact.

(* ------------------------------------------------------------------ *)
(** * Sample inputs *)

(** The posting of the test script, and a profile for it. *)
Definition test_job : Job :=
  [ ("title", PStr "Data Scientist");
    ("company", PStr "Test Co");
    ("description", PStr "Python machine learning SQL pandas statistics");
    ("url", PStr "https://example.com") ].

Definition test_profile : ResumeProfile :=
  {| raw_text := "Python, SQL, machine learning, pandas, statistics";
     all_keywords := ["pandas"; "python"; "sql"; "statistics"] |}.

(** A second posting with the same description, and one with none. *)
Definition second_job : Job :=
  [ ("title", PStr "ML Engineer");
    ("company", PStr "Google");
    ("description", PStr "Python machine learning SQL pandas statistics") ].

Definition empty_job : Job :=
  [ ("title", PStr "Analyst"); ("company", PStr "Acme Corp") ].

(** A posting whose description is [None]. *)
Definition broken_job : Job :=
  [ ("title", PStr "Data Engineer"); ("company", PStr "Acme Corp");
    ("description", PNone) ].

(* ------------------------------------------------------------------ *)
(** * Notions the statements use *)

(** [x] may stand in front of [y] in a sorted list: [y] does not have to
    come before it. *)
Definition may_precede {A : Type} (before : A -> A -> bool) (x y : A) : Prop :=
  before y x = false.

(** A phrase of the list occurs in the normalised text. *)
Definition some_phrase_in (keywords : list string) (text : string) : Prop :=
  exists kw, In kw keywords /\ Str.contains kw (_normalise text) = true.

(** The whole-word occurrences of a term in the normalised job text. *)
Definition occurrences (norm_job : string) (k : string) : nat :=
  Re.findall_count k norm_job.

(** The order of the ATS ranking, on the terms themselves. *)
Definition rank_before (norm_job : string) (a b : string) : bool :=
  hit_before (a, occurrences norm_job a) (b, occurrences norm_job b).

Definition ranked (norm_job : string) (a b : string) : Prop :=
  occurrences norm_job b < occurrences norm_job a
  \/ (occurrences norm_job a = occurrences norm_job b /\ Str.ltb a b = true).

(** The ranking of the terms of [skills] that occur in the job text. *)
Definition ranking (norm_job : string) (skills : list string) : list string :=
  stable_sort (rank_before norm_job)
              (filter (fun k => Nat.ltb 0 (occurrences norm_job k)) skills).

(** [pat] stands in a text right behind [pre] and in front of [post] as a
    whole word: with a word boundary in front of it and one behind it.
    [prev] is the character in front of the text. *)
Definition whole_word (prev : option ascii) (pre pat post : string) : Prop :=
  Re.boundary (Str.last prev pre) (Str.head (pat ++ post)) = true
  /\ Re.boundary (Str.last prev (pre ++ pat)) (Str.head post) = true.

(** The text [s] holds [n] whole-word occurrences of [pat], read as
    [re.findall] reads them: the leftmost occurrence counts, and the reading
    goes on behind it, so that two occurrences never overlap. *)
Inductive whole_words (pat : string) : option ascii -> string -> nat -> Prop :=
| whole_words_none (prev : option ascii) (s : string) :
    (forall pre post : string,
        s = (pre ++ pat ++ post)%string -> ~ whole_word prev pre pat post) ->
    whole_words pat prev s 0
| whole_words_next (prev : option ascii) (pre post : string) (n : nat) :
    whole_word prev pre pat post ->
    (forall pre' post' : string,
        (pre ++ pat ++ post)%string = (pre' ++ pat ++ post')%string ->
        length pre' < length pre -> ~ whole_word prev pre' pat post') ->
    whole_words pat (Str.last prev (pre ++ pat)) post n ->
    whole_words pat prev (pre ++ pat ++ post) (S n).

Section Notions.

Context {F : Type} {A : Arith F}.

(** [len(tokens) or 1] *)
Definition total_of (tokens : list string) : Z :=
if (Z.of_nat (List.length tokens) =? 0)%Z then 1%Z
else Z.of_nat (List.length tokens).

(** An entry of the vector [_build_tfidf_vector] returns. *)
Definition tfidf_weight (tokens : list string) (idf : dict F)
         (entry : string * Z) : string * F :=
(fst entry,
 fmul (fdiv (of_int (snd entry)) (of_int (total_of tokens)))
      (get (fst entry) (of_int 1) idf)).

(** An entry of the dictionary [_compute_idf] returns. *)
Definition idf_weight (n : Z) (entry : string * Z) : string * F :=
(fst entry,
 fadd (flog (fdiv (of_int (n + 1)) (of_int (snd entry + 1)))) (of_int 1)).

(** The weight of a term in a vector. *)
Definition weight (t : string) (vec : dict F) : F := get t (of_int 0) vec.

(** [sum(vec_a[t] * vec_b[t] for t in common)] *)
Definition dot_product (common : list string) (vec_a vec_b : dict F) : F :=
py_sum (List.map (fun t => fmul (weight t vec_a) (weight t vec_b)) common).

(** What the loop of [classify_jobs_batch] adds for one posting. *)
Definition classified_of (resume_profile : ResumeProfile) (job : Job)
: list (ClassifiedJob F) :=
match classify_job job resume_profile with
| Ok c => [c]
| Raise _ => []
end.

(** Two values that are not zero have a product that is not zero. *)
Definition no_zero_divisors : Prop :=
forall x y : F,
  feqb x (of_int 0) = false -> feqb y (of_int 0) = false ->
  feqb (fmul x y) (of_int 0) = false.

(** No square overflows. *)
Definition never_overflows : Prop :=
  forall x : F, exists y : F, fsquare x = Ok y.

(** A dictionary has each key once. *)
Definition well_formed (d : dict F) : Prop := NoDup (keys d).

(** All the weights of a vector are zero or more. *)
Definition non_negative (d : dict F) : Prop :=
Forall (fun v => fleb (of_int 0) v = true) (values d).

End Notions.

Arguments no_zero_divisors {F} A.
Arguments never_overflows {F} A.

(** The laws of the order and of the product that binary64 and the real
    numbers share. *)
Class ArithLaws {F : Type} (A : Arith F) : Prop := {
  fltb_asym : forall x y : F, fltb x y = true -> fltb y x = false;
  fltb_fleb : forall x y : F, fltb x y = true -> fleb x y = true;
  fleb_0_0 : fleb (of_int 0) (of_int 0) = true;
  fleb_0_1 : fleb (of_int 0) (of_int 1) = true;
  fleb_1_1 : fleb (of_int 1) (of_int 1) = true;
  feqb_fltb : forall x y v : F,
      feqb x v = true -> feqb y v = true -> fltb x y = false;
  fltb_chain : forall x y z : F,
      feqb x x = true -> feqb y y = true -> feqb z z = true ->
      fltb x y = false -> fltb y z = false -> fltb x z = false;
  fmul_comm : forall x y : F, fmul x y = fmul y x;
  fsquare_raises : forall (x : F) (e : exn),
      fsquare x = Raise e -> e = OverflowError
}.

(** The sum of real numbers, and the sum of the squares of the weights
    of a vector. *)
Definition total (l : list R) : R := fold_right Rplus 0%R l.

Definition squares (vec : dict R) : R :=
  total (List.map (fun v => (v * v)%R) (values vec)).

(** ** Binary64 numbers by mantissa and exponent *)

Module Rounding.

Section Format.

Variables prec emax : Z.

(** The shift that [shr_fexp] applies to the mantissa [m] at the exponent
    [e]. *)
Definition shift_of (m e : Z) : Z :=
  Z.max (SpecFloat.fexp prec emax (Zdigits2 m + e) - e) 0.

(** The mantissa and the exponent after the shift. *)
Definition shifted (m e : Z) : Z := (m / 2 ^ shift_of m e)%Z.
Definition shifted_exponent (m e : Z) : Z := (e + shift_of m e)%Z.

End Format.

(** The order of a finite number that is not zero is the position of its
    leading bit: a number of order [k] lies between [2 ^ (k - 1)] and
    [2 ^ k].  Zeros, infinities and NaNs satisfy both bounds. *)
Definition order_le (k : Z) (f : spec_float) : Prop :=
  match f with
  | S754_finite _ m e => (Zpos (digits2_pos m) + e <= k)%Z
  | _ => True
  end.

Definition order_ge (k : Z) (f : spec_float) : Prop :=
  match f with
  | S754_finite _ m e => (k <= Zpos (digits2_pos m) + e)%Z
  | _ => True
  end.

Definition is_zero (f : spec_float) : Prop :=
  match f with S754_zero _ => True | _ => False end.

Definition is_infinite (f : spec_float) : Prop :=
  match f with S754_infinity _ => True | _ => False end.

End Rounding.

(** What the engine needs of the C library in binary64.  [pow(x, 2.0)] is
    finite for a finite [x] below [2 ^ 400] in absolute value, and
    [math.log(q) + 1] is a NaN or below [2 ^ 300] in absolute value at the
    two quotients the engine takes a logarithm of with two documents,
    [3 / 3] and [3 / 2].  (A correctly rounding library gives [x * x],
    [0.0 + 1] and [0.4054651081081644 + 1].) *)
Definition pow_finite (pow2 : float -> float) : Prop :=
  forall x : float,
    PrimFloat.leb 0x1p+400 (PrimFloat.abs x) = false ->
    PrimFloat.is_infinity (pow2 x) = false.

Definition log_moderate (log : float -> float) : Prop :=
  forall q : float,
    q = 1%float \/ q = 0x1.8p+0%float ->
    PrimFloat.leb 0x1p+300 (PrimFloat.abs (PrimFloat.add (log q) 1)) = false.

(** [math.log] at these two quotients, as a correctly rounding library
    gives it ([log(1.5)] is [0.4054651081081644]), and a NaN elsewhere; and
    the arithmetic of binary64 with it, which squares by the rounded
    product. *)
Definition log_of_two_documents (x : float) : float :=
  if PrimFloat.eqb x 1 then 0%float
  else if PrimFloat.eqb x 0x1.8p+0 then 0x1.9f323ecbf984cp-2%float
  else PrimFloat.nan.

Definition two_documents : Arith float :=
  Binary64.arith log_of_two_documents (fun x => PrimFloat.mul x x) (fun x => x).

(* ================================================================== *)
(** * Further notions *)

(** [sep.join(l)] *)
Fixpoint join (sep : string) (l : list string) : string :=
  match l with
  | [] => ""
  | [x] => x
  | x :: l' => x ++ sep ++ join sep l'
  end.

(** The characters [_normalise] leaves as they are: a word character, a
    dot, a plus or a hash, which [lower] does not change. *)
Definition is_kept (c : ascii) : bool :=
  (Char.is_word c || Char.has_code 46 c || Char.has_code 43 c
   || Char.has_code 35 c)
  && Ascii.eqb (Char.lower c) c.

(** The characters of a string. *)
Definition chars (s : string) : list ascii := list_ascii_of_string s.

(** A text whose white space is single spaces between kept characters;
    [in_run]: a space may not come first. *)
Fixpoint single_spaced (in_run : bool) (s : string) : bool :=
  match s with
  | EmptyString => true
  | String c s' =>
      if Ascii.eqb c " " then negb in_run && single_spaced true s'
      else is_kept c && single_spaced false s'
  end.

(** The texts [_normalise] returns. *)
Definition normalised (s : string) : Prop :=
  single_spaced true s = true /\ Str.rstrip s = s.

(** A word that [_normalise] cannot break up: not empty, made of kept
    characters. *)
Definition plain (w : string) : bool :=
  negb (Str.is_empty w) && forallb is_kept (chars w).

(** A pattern of the portal table occurs in the lower-cased URL or in the
    lower-cased first 1000 characters of the job text. *)
Definition portal_hit (job_url job_text pattern : string) : bool :=
  Str.contains (Str.lower pattern) (Str.lower job_url)
  || Str.contains (Str.lower pattern) (Str.lower (Str.take 1000 job_text)).

(** [list(dict.fromkeys(l))]: the elements of [l], each at the place of its
    first occurrence. *)
Definition fromkeys (l : list string) : list string :=
  fold_left (fun seen k => if mem k seen then seen else seen ++ [k]) l [].

(** The number of documents of a corpus in which a term occurs. *)
Definition documents_with (t : string) (corpus : list (list string)) : nat :=
  List.length (filter (mem t) corpus).

(** A text of ASCII characters, in which [lower] maps character by
    character whatever the Unicode tables say of the others. *)
Definition ascii_text (s : string) : Prop :=
  forall c : ascii, In c (chars s) -> Char.code c < 128.

(** [" " * n] *)
Fixpoint blanks (n : nat) : string :=
  match n with
  | O => ""
  | S n' => String " " (blanks n')
  end.

Module DataExtraction.

(** [_normalise]: lower case, strip, runs of white space to one space. *)
Definition _normalise (text : string) : string :=
  Str.collapse false (Str.strip (Str.lower text)).

(** The loop over [sorted(skills_set)]: the skills that occur in the text
    between two word boundaries, in ascending order. *)
Definition found (skills_set : list string) (norm_text : string) : list string :=
  filter (fun skill => Re.word_search skill norm_text) (sorted_str skills_set).

(** The entries of the dict [extract_resume_keywords] returns that are
    modelled.  The entries [job_titles], [education] and [years_experience]
    come from regular expressions of their own and are left out: nothing of
    the engine reads them. *)
Record Keywords : Type := mkKeywords {
  technical_skills : list string;
  soft_skills : list string;
  all_keywords : list string;
  raw_text : string
}.

(** [extract_resume_keywords] *)
Definition extract_resume_keywords (text : string) : Keywords :=
  let norm_text := _normalise text in
  let tech_found := found Config.TECH_SKILLS_SET norm_text in
  let soft_found := found Config.SOFT_SKILLS_SET norm_text in
  let all_kw := fromkeys (tech_found ++ soft_found) in
  {| technical_skills := tech_found;
     soft_skills := soft_found;
     all_keywords := all_kw;
     raw_text := text |}.

(** The profile as the engine reads it: [resume_profile.get("raw_text", "")]
    and [resume_profile.get("all_keywords", [])]. *)
Definition as_profile (keywords : Keywords) : ResumeProfile :=
  mkProfile (raw_text keywords) (all_keywords keywords).

(** The exceptions of [get_resume_text]. *)
Inductive load_error : Type :=
| FileNotFoundError
| ValueError.

Inductive loaded (A : Type) : Type :=
| Loaded (a : A)
| Failed (e : load_error).

Arguments Loaded {A} a.
Arguments Failed {A} e.

(** [page.extract_text() or ""]: [None] is a page without text. *)
Definition page_text (extracted : option string) : string :=
  match extracted with
  | Some s => s
  | None => ""
  end.

(** [get_resume_text], of what the file system and the PDF reader answer:
    whether the file exists, and the text extracted from each page (a
    failure of the reader itself is not modelled). *)
Definition get_resume_text (file_exists : bool) (pages : list (option string))
  : loaded string :=
  if negb file_exists then Failed FileNotFoundError
  else
    let pages_text := List.map page_text pages in
    let full_text := Str.strip (join (String (ascii_of_nat 10) "") pages_text) in
    if Str.is_empty full_text then Failed ValueError
    else Loaded full_text.

(** [load_resume] *)
Definition load_resume (file_exists : bool) (pages : list (option string))
  : loaded Keywords :=
  match get_resume_text file_exists pages with
  | Loaded text => Loaded (extract_resume_keywords text)
  | Failed e => Failed e
  end.

End DataExtraction.

(* ================================================================== *)
(** * Properties *)

(** ** Strings and word-boundary search *)

Module StrFacts.

Lemma prefix_nil (s : string) : prefix "" s = true.
Proof. destruct s; reflexivity. Qed.

Lemma prefix_iff (p s : string) :
  prefix p s = true <-> exists post, s = (p ++ post)%string.
Proof.
  revert s; induction p as [|a p IH]; intros s; simpl.
  - rewrite prefix_nil. split; [intros _; now exists s | reflexivity].
  - destruct s as [|b s]; simpl.
    + split; [discriminate | intros [post H]; discriminate].
    + destruct (ascii_dec a b) as [->|Hab].
      * rewrite IH. split; intros [post H]; exists post; congruence.
      * split; [discriminate | intros [post H]; congruence].
Qed.

Lemma contains_nil (s : string) : Str.contains "" s = true.
Proof. destruct s; reflexivity. Qed.

Lemma contains_iff (p s : string) :
  Str.contains p s = true <->
  exists pre post, s = (pre ++ p ++ post)%string.
Proof.
  induction s as [|c s IH]; cbn [Str.contains].
  - rewrite orb_false_r, prefix_iff. split.
    + intros [post H]. now exists "", post.
    + intros [pre [post H]]. destruct pre; [now exists post | discriminate].
  - rewrite orb_true_iff, IH, prefix_iff. split.
    + intros [[post H] | [pre [post H]]].
      * now exists "", post.
      * exists (String c pre), post. simpl. now rewrite H.
    + intros [pre [post H]]. destruct pre as [|d pre]; simpl in H.
      * left. now exists post.
      * right. exists pre, post. congruence.
Qed.

Lemma drop_app (p s : string) : Str.drop (length p) (p ++ s) = s.
Proof. induction p; simpl; auto. Qed.

Lemma last_app (d : option ascii) (p q : string) :
  Str.last d (p ++ q) = Str.last (Str.last d p) q.
Proof. revert d; induction p; simpl; auto. Qed.

Lemma take_length (n : nat) (s : string) : length (Str.take n s) <= n.
Proof.
  unfold Str.take. revert s; induction n; intros [|c s]; simpl; auto with arith.
Qed.

Lemma take_all (n : nat) (s : string) : length s <= n -> Str.take n s = s.
Proof.
  unfold Str.take. revert s; induction n; intros [|c s]; simpl; intros H;
    try reflexivity; try lia.
  f_equal. apply IHn. lia.
Qed.

Lemma take_take (n : nat) (s : string) : Str.take n (Str.take n s) = Str.take n s.
Proof. apply take_all, take_length. Qed.

End StrFacts.

Module ReFacts.

Import StrFacts.

(** A match at the head of the text: the pattern, literally, with a word
    boundary in front of it and one behind it. *)
Lemma match_here_iff (prev : option ascii) (pat s : string) :
  Re.match_here prev pat s = true <->
  exists post, s = (pat ++ post)%string
               /\ Re.boundary prev (Str.head s) = true
               /\ Re.boundary (Str.last prev pat) (Str.head post) = true.
Proof.
  unfold Re.match_here. rewrite !andb_true_iff, prefix_iff. split.
  - intros [[[post H] Hb] He]. exists post. subst s.
    rewrite drop_app in He. auto.
  - intros [post [H [Hb He]]]. subst s. rewrite drop_app.
    split; [split; [now exists post | assumption] | assumption].
Qed.

Lemma search_from_iff (prev : option ascii) (pat s : string) :
  Re.search_from prev pat s = true <->
  exists pre post,
    s = (pre ++ pat ++ post)%string
    /\ Re.boundary (Str.last prev pre) (Str.head (pat ++ post)) = true
    /\ Re.boundary (Str.last prev (pre ++ pat)) (Str.head post) = true.
Proof.
  revert prev; induction s as [|c s IH]; intros prev; cbn [Re.search_from].
  - rewrite orb_false_r, match_here_iff. split.
    + intros [post [H [Hb He]]]. exists "", post. simpl. rewrite <- H. auto.
    + intros [pre [post [H [Hb He]]]]. destruct pre; [|discriminate].
      simpl in *. exists post. rewrite <- H in Hb. auto.
  - rewrite orb_true_iff, match_here_iff, IH. split.
    + intros [[post [H [Hb He]]] | [pre [post [H [Hb He]]]]].
      * exists "", post. simpl. rewrite <- H. auto.
      * exists (String c pre), post. simpl. rewrite H. auto.
    + intros [pre [post [H [Hb He]]]]. destruct pre as [|d pre]; simpl in *.
      * left. exists post. rewrite <- H in Hb. repeat split; assumption.
      * right. injection H as -> ->. now exists pre, post.
Qed.

(** [re.search(rf"\b{re.escape(pat)}\b", s)] succeeds exactly when [pat]
    occurs in [s] between two word boundaries. *)
Lemma word_search_iff (pat s : string) :
  Re.word_search pat s = true <->
  exists pre post,
    s = (pre ++ pat ++ post)%string
    /\ Re.boundary (Str.last None pre) (Str.head (pat ++ post)) = true
    /\ Re.boundary (Str.last None (pre ++ pat)) (Str.head post) = true.
Proof. apply search_from_iff. Qed.

End ReFacts.

(** ** What [re.findall] counts *)

Module CountFacts.

Lemma findall_skip (w : string) :
  forall (prev : option ascii) (pat post : string),
    Re.findall_from (length w) prev pat (w ++ post)
    = Re.findall_from 0 (Str.last prev w) pat post.
Proof.
  induction w as [|c w IH]; intros prev pat post.
  - reflexivity.
  - cbn [length String.append Re.findall_from Str.last]. apply IH.
Qed.

Lemma length_append (a b : string) :
  length (a ++ b) = length a + length b.
Proof. induction a as [|c a IH]; cbn; [reflexivity | now rewrite IH]. Qed.

Lemma append_inj (a a' b b' : string) :
  length a = length a' -> (a ++ b)%string = (a' ++ b')%string ->
  a = a' /\ b = b'.
Proof.
  revert a'. induction a as [|c a IH]; intros [|c' a'] Hl H;
    try discriminate Hl.
  - now split.
  - cbn in H. injection H as -> H. injection Hl as Hl.
    destruct (IH a' Hl H) as [-> ->]. now split.
Qed.

Lemma whole_word_head (prev : option ascii) (pat post : string) :
  whole_word prev "" pat post <->
  Re.match_here prev pat (pat ++ post) = true.
Proof.
  unfold whole_word. rewrite ReFacts.match_here_iff. cbn [Str.last String.append].
  split.
  - intros [Hb He]. exists post. auto.
  - intros [post' [H [Hb He]]].
    destruct (append_inj pat pat post post' eq_refl H) as [_ <-]. auto.
Qed.

(** A text without a match at its head: its occurrences are those of its
    tail. *)
Lemma whole_words_shift (pat : string) (prev : option ascii) (c : ascii)
      (s : string) (n : nat) :
  Re.match_here prev pat (String c s) = false ->
  whole_words pat (Some c) s n -> whole_words pat prev (String c s) n.
Proof.
  intros Hm H.
  inversion H as [prev' s' H0 | prev' pre post n' Hw Hleft Hrest]; subst.
  - apply whole_words_none. intros [|c' pre] post E.
    + cbn [String.append] in E. rewrite E in Hm. intros Hw.
      apply whole_word_head in Hw. congruence.
    + cbn [String.append] in E. injection E as <- E. exact (H0 pre post E).
  - change (String c (pre ++ pat ++ post))
      with (String c pre ++ pat ++ post)%string.
    apply whole_words_next.
    + exact Hw.
    + intros [|c' pre'] post' E Hl.
      * cbn [String.append] in E.
        change (String c (pre ++ pat ++ post)) with (String c pre ++ pat ++ post)%string in Hm.
        cbn [String.append] in Hm. rewrite E in Hm. intros Hw'.
        apply whole_word_head in Hw'. congruence.
      * cbn [String.append] in E. injection E as <- E.
        apply (Hleft pre' post' E). cbn [length] in Hl. lia.
    + exact Hrest.
Qed.

Lemma findall_from_whole_words (pat : string) :
  pat <> "" ->
  forall (n : nat) (s : string), length s <= n ->
  forall prev : option ascii,
    whole_words pat prev s (Re.findall_from 0 prev pat s).
Proof.
  intros Hpat. induction n as [|n IH]; intros s Hn prev.
  - destruct s; [|cbn in Hn; lia]. destruct pat as [|p pat]; [congruence|].
    cbn. apply whole_words_none. intros [|? ?] ? E; discriminate E.
  - destruct s as [|c s].
    + destruct pat as [|p pat]; [congruence|].
      cbn. apply whole_words_none. intros [|? ?] ? E; discriminate E.
    + cbn [Re.findall_from].
      destruct (Re.match_here prev pat (String c s)) eqn:Hm.
      * pose proof Hm as Hm'. apply ReFacts.match_here_iff in Hm'.
        destruct Hm' as [post [E [Hb He]]].
        destruct pat as [|p pat]; [congruence|].
        cbn [String.append] in E. injection E as <- ->.
        cbn [length Nat.sub]. try rewrite Nat.sub_0_r. rewrite findall_skip.
        change (String c (pat ++ post))
          with ("" ++ String c pat ++ post)%string.
        apply whole_words_next.
        -- split; assumption.
        -- intros pre' post' _ Hl. cbn in Hl. lia.
        -- apply IH. cbn [length] in Hn. rewrite length_append in Hn. lia.
      * apply whole_words_shift; [exact Hm|].
        apply IH. cbn [length] in Hn. lia.
Qed.

(** What [re.findall] counts: the whole-word occurrences of the pattern,
    leftmost first and without overlap. *)
Lemma findall_count_whole_words (pat s : string) :
  pat <> "" -> whole_words pat None s (Re.findall_count pat s).
Proof.
  intros Hpat. exact (findall_from_whole_words pat Hpat (length s) s (le_n _) None).
Qed.

Lemma whole_words_unique (pat : string) (prev : option ascii) (s : string)
      (n m : nat) :
  whole_words pat prev s n -> whole_words pat prev s m -> n = m.
Proof.
  intros H. revert m.
  induction H as [prev s H | prev pre post n Hw Hleft Hrest IH]; intros m Hm.
  - inversion Hm as [prev' s' _ | prev' pre post m' Hw _ _ E1 E2 E3]; subst;
      [reflexivity|].
    exfalso. exact (H pre post eq_refl Hw).
  - inversion Hm as [prev' s' H | prev' pre' post' m' Hw' Hleft' Hrest' E1 E E3];
      subst.
    + exfalso. exact (H pre post eq_refl Hw).
    + destruct (Nat.lt_trichotomy (length pre) (length pre')) as [Hl|[Hl|Hl]].
      * exfalso. exact (Hleft' pre post E Hl Hw).
      * destruct (append_inj pre pre' _ _ Hl (eq_sym E)) as [-> E'].
        destruct (append_inj pat pat _ _ eq_refl E') as [_ ->].
        f_equal. apply IH. exact Hrest'.
      * exfalso. exact (Hleft pre' post' (eq_sym E) Hl Hw').
Qed.

Lemma occurrences_positive (norm k : string) :
  k <> "" ->
  (0 < occurrences norm k <->
   exists pre post : string,
     norm = (pre ++ k ++ post)%string /\ whole_word None pre k post).
Proof.
  intros Hk. unfold occurrences.
  pose proof (CountFacts.findall_count_whole_words k norm Hk) as H.
  split.
  - intros Hpos. inversion H as [prev s H0 E1 E2 E3 | prev pre post n Hw _ _ E1 E2 E3].
    + rewrite <- E3 in Hpos. inversion Hpos.
    + exists pre, post. split; [reflexivity | exact Hw].
  - intros [pre [post [E Hw]]].
    inversion H as [prev s H0 E1 E2 E3 | prev pre' post' n Hw' _ _ E1 E2 E3].
    + exfalso. exact (H0 pre post E Hw).
    + apply Nat.lt_0_succ.
Qed.

End CountFacts.

Module DictionaryFacts.

Lemma skills_not_empty (k : string) :
  In k Config.TECH_SKILLS_SET \/ In k Config.SOFT_SKILLS_SET -> k <> "".
Proof.
  intros H.
  assert (Hall : forallb (fun k => negb (Str.is_empty k))
                   (Config.TECH_SKILLS_SET ++ Config.SOFT_SKILLS_SET) = true)
    by (vm_compute; reflexivity).
  rewrite forallb_forall in Hall. intros ->.
  specialize (Hall "" (proj2 (in_app_iff _ _ _) H)). discriminate Hall.
Qed.

End DictionaryFacts.

(** ** The stable sort *)

Section SortFacts.

Context {A : Type} (before : A -> A -> bool).

Lemma insert_perm (x : A) (l : list A) :
  Permutation (x :: l) (insert before x l).
Proof.
  induction l as [|y l IH]; simpl; [reflexivity|].
  destruct (before y x); [|reflexivity].
  rewrite perm_swap. now constructor.
Qed.

Lemma stable_sort_perm (l : list A) : Permutation l (stable_sort before l).
Proof.
  induction l as [|x l IH]; simpl; [constructor|].
  rewrite <- insert_perm. now constructor.
Qed.

Lemma stable_sort_in (l : list A) (x : A) :
  In x (stable_sort before l) <-> In x l.
Proof.
  split; apply Permutation_in;
    [symmetry|]; apply stable_sort_perm.
Qed.

(** Elements none of which has to come before another keep their order. *)
Lemma filter_insert (P : A -> bool) (x : A) (l : list A) :
  (forall y, In y l -> P x = true -> P y = true -> before y x = false) ->
  filter P (insert before x l) = filter P (x :: l).
Proof.
  induction l as [|y l IH]; intros H; [reflexivity|].
  cbn [insert]. destruct (before y x) eqn:Hyx; [|reflexivity].
  cbn [filter]. rewrite IH by (intros z Hz; apply H; now right).
  cbn [filter]. destruct (P x) eqn:Px, (P y) eqn:Py; try reflexivity.
  rewrite (H y) in Hyx by (auto; now left). discriminate.
Qed.

Lemma filter_stable_sort (P : A -> bool) (l : list A) :
  (forall x y, P x = true -> P y = true -> before y x = false) ->
  filter P (stable_sort before l) = filter P l.
Proof.
  intros H. induction l as [|x l IH]; [reflexivity|].
  cbn [stable_sort]. rewrite filter_insert by (intros; now apply H).
  cbn [filter]. now rewrite IH.
Qed.

Section Asymmetric.

Hypothesis before_asym :
  forall x y, before x y = true -> before y x = false.

Lemma insert_sorted (x : A) (l : list A) :
  Sorted (may_precede before) l -> Sorted (may_precede before) (insert before x l).
Proof.
  induction l as [|y l IH]; intros Hl; cbn [insert].
  - repeat constructor.
  - destruct (before y x) eqn:Hyx.
    + inversion Hl as [|? ? Hs Hh]; subst. constructor; [now apply IH|].
      destruct l as [|z l]; cbn [insert].
      * constructor. now apply before_asym.
      * destruct (before z x); constructor.
        -- now inversion Hh.
        -- now apply before_asym.
    + constructor; [assumption|]. now constructor.
Qed.

Lemma stable_sort_sorted (l : list A) :
  Sorted (may_precede before) (stable_sort before l).
Proof.
  induction l; cbn [stable_sort]; [constructor | now apply insert_sorted].
Qed.

Lemma stable_sort_strongly_sorted (l : list A) :
  (forall x y z, may_precede before x y -> may_precede before y z -> may_precede before x z) ->
  StronglySorted (may_precede before) (stable_sort before l).
Proof.
  intros Htrans. apply Sorted_StronglySorted; [exact Htrans|].
  apply stable_sort_sorted.
Qed.

End Asymmetric.

(** A sorted list is sorted throughout when the order is transitive on
    its elements. *)
Lemma sorted_throughout (R : A -> A -> Prop) (l : list A) :
  (forall x y z, In x l -> In y l -> In z l -> R x y -> R y z -> R x z) ->
  Sorted R l -> StronglySorted R l.
Proof.
  induction l as [|a l IH]; intros Htr Hs; [constructor|].
  inversion Hs as [|? ? Hs' Hhd]; subst.
  assert (Hl : StronglySorted R l).
  { apply IH; [|assumption]. intros x y z Hx Hy Hz. apply Htr; now right. }
  constructor; [assumption|].
  destruct Hhd as [|b l Hab]; [constructor|].
  constructor; [assumption|].
  inversion Hl as [|? ? _ Hb]; subst. rewrite Forall_forall in *.
  intros z Hz. apply (Htr a b z); try (now left); auto.
  - right. now left.
  - right. now right.
Qed.

(** In a sorted list without repetition the order is strict, when two
    different elements are always ordered. *)
Lemma strongly_sorted_strict (l : list A) :
  (forall x y, In x l -> In y l -> x <> y -> may_precede before x y ->
               before x y = true) ->
  NoDup l ->
  StronglySorted (may_precede before) l ->
  StronglySorted (fun x y => before x y = true) l.
Proof.
  intros Htot Hnd Hs. induction Hs as [|x l Hs IH Hx]; constructor.
  - apply IH; [|now inversion Hnd].
    intros; apply Htot; auto; now right.
  - inversion Hnd as [|? ? Hnin Hnd']; subst.
    rewrite Forall_forall in *. intros y Hy.
    apply Htot; [now left | now right | | now apply Hx].
    intros ->. contradiction.
Qed.

(** A strict order leaves one sorted arrangement of a set of elements. *)
Lemma strictly_sorted_unique (l1 l2 : list A) :
  (forall x, before x x = false) ->
  (forall x y z, before x y = true -> before y z = true -> before x z = true) ->
  StronglySorted (fun x y => before x y = true) l1 ->
  StronglySorted (fun x y => before x y = true) l2 ->
  Permutation l1 l2 ->
  l1 = l2.
Proof.
  intros Hirr Htr H1. revert l2.
  induction H1 as [|x l1 H1 IH Hx]; intros l2 H2 Hp.
  - now apply Permutation_nil in Hp.
  - destruct H2 as [|y l2 H2 Hy].
    + symmetry in Hp. now apply Permutation_nil in Hp.
    + rewrite Forall_forall in Hx, Hy.
      assert (x = y) as ->.
      { assert (Hxin : In x (y :: l2)) by (eapply Permutation_in; [exact Hp | now left]).
        assert (Hyin : In y (x :: l1))
          by (eapply Permutation_in; [symmetry; exact Hp | now left]).
        destruct Hxin as [->|Hxin]; [reflexivity|].
        destruct Hyin as [->|Hyin]; [reflexivity|].
        specialize (Hx _ Hyin). specialize (Hy _ Hxin).
        pose proof (Htr _ _ _ Hx Hy) as Hxx. rewrite Hirr in Hxx. discriminate. }
      f_equal. apply IH; [assumption|]. now apply Permutation_cons_inv in Hp.
Qed.

End SortFacts.

(** ** The order of strings *)

Module StrOrder.

Lemma ltb_lt (a b : string) : Str.ltb a b = true <-> String_as_OT.lt a b.
Proof.
  unfold Str.ltb, String.ltb. rewrite <- String_as_OT.cmp_lt.
  unfold String_as_OT.cmp. destruct (String.compare a b); split; congruence.
Qed.

Lemma ltb_irrefl (a : string) : Str.ltb a a = false.
Proof.
  destruct (Str.ltb a a) eqn:H; [|reflexivity].
  apply ltb_lt, String_as_OT.lt_not_eq in H. now elim H.
Qed.

Lemma ltb_trans (a b c : string) :
  Str.ltb a b = true -> Str.ltb b c = true -> Str.ltb a c = true.
Proof. rewrite !ltb_lt. apply String_as_OT.lt_trans. Qed.

Lemma ltb_asym (a b : string) : Str.ltb a b = true -> Str.ltb b a = false.
Proof.
  intros H. destruct (Str.ltb b a) eqn:H'; [|reflexivity].
  rewrite <- (ltb_irrefl a). symmetry. now apply ltb_trans with b.
Qed.

Lemma ltb_total (a b : string) :
  a <> b -> Str.ltb b a = false -> Str.ltb a b = true.
Proof.
  unfold Str.ltb, String.ltb. intros Hne.
  pose proof (String.compare_antisym a b) as Hopp.
  destruct (String.compare b a) eqn:H; simpl in Hopp; rewrite Hopp;
    try congruence.
  apply String.compare_eq_iff in H. congruence.
Qed.

Lemma not_ltb_trans (a b c : string) :
  Str.ltb b a = false -> Str.ltb c b = false -> Str.ltb c a = false.
Proof.
  intros Hba Hcb. destruct (Str.ltb c a) eqn:Hca; [|reflexivity].
  destruct (string_dec a b) as [->|Hab]; [congruence|].
  apply ltb_total in Hba; [|assumption].
  rewrite (ltb_trans _ _ _ Hca Hba) in Hcb. discriminate.
Qed.

(** [sorted] of a set of strings is strictly ascending. *)
Lemma sorted_str_ascending (l : list string) :
  NoDup l -> StronglySorted (fun a b => Str.ltb a b = true) (sorted_str l).
Proof.
  intros Hnd. unfold sorted_str. apply strongly_sorted_strict.
  - intros x y _ _ Hne H. now apply ltb_total.
  - eapply Permutation_NoDup; [apply stable_sort_perm | assumption].
  - apply stable_sort_strongly_sorted; [apply ltb_asym|].
    unfold may_precede. intros x y z. apply not_ltb_trans.
Qed.

Lemma sorted_str_in (l : list string) (x : string) :
  In x (sorted_str l) <-> In x l.
Proof. apply stable_sort_in. Qed.

End StrOrder.

(** ** Sets *)

Lemma set_of_in (l : list string) (x : string) : In x (set_of l) <-> In x l.
Proof. apply nodup_In. Qed.

Lemma set_of_nodup (l : list string) : NoDup (set_of l).
Proof. apply NoDup_nodup. Qed.

Lemma mem_in (x : string) (l : list string) : mem x l = true <-> In x l.
Proof.
  unfold mem. rewrite existsb_exists. split.
  - intros [y [Hy H]]. apply String.eqb_eq in H. now subst.
  - intros H. exists x. split; [assumption | apply String.eqb_refl].
Qed.

Lemma matching_skills_in (skills : list string) (norm s : string) :
  In s (matching_skills skills norm) <->
  In s skills /\ Re.word_search s norm = true.
Proof. unfold matching_skills. now rewrite filter_In. Qed.

(** ** The exception monad *)

Lemma bind_ok {A B : Type} (c : result A) (k : A -> result B) (b : B) :
  bind c k = Ok b <-> exists a, c = Ok a /\ k a = Ok b.
Proof.
  destruct c as [a|e]; simpl; split.
  - intros H. now exists a.
  - now intros [a' [[= ->] H]].
  - discriminate.
  - now intros [a' [[=] _]].
Qed.

Lemma expect_str_ok (e : exn) (v : pyval) (s : string) :
  expect_str e v = Ok s <-> v = PStr s.
Proof. destruct v; simpl; split; congruence. Qed.

(** ** The detectors *)

Section DetectorFacts.

Lemma any_in_iff (keywords : list string) (text : string) :
  any_in keywords (_normalise text) = true <-> some_phrase_in keywords text.
Proof. unfold any_in, some_phrase_in. apply existsb_exists. Qed.

Lemma detect_maang_take (company job_text : string) :
  detect_maang company (Str.take 500 job_text) = detect_maang company job_text.
Proof.
  unfold detect_maang, detect_maang_in. now rewrite StrFacts.take_take.
Qed.

Lemma detect_fortune500_in_empty (names : list string) (company : string) :
  _normalise company = "" -> names <> [] ->
  detect_fortune500_in names company = true.
Proof.
  unfold detect_fortune500_in. intros -> Hne.
  destruct names as [|n names]; [contradiction|].
  cbn [existsb]. now rewrite StrFacts.contains_nil, orb_true_r.
Qed.

End DetectorFacts.

(** C5.  The sponsorship detector answers [False] as soon as a negative
    phrase occurs in the normalised text, whatever positive phrases occur
    with it; failing that, [True] as soon as a positive phrase occurs; failing
    that, [None].  The three postings of the test script give [True], [False]
    (a posting in which a positive phrase occurs too) and [None]. *)
Theorem detect_h1b_negative_first :
  forall text : string,
    (some_phrase_in Config.H1B_NEGATIVE_KEYWORDS text ->
     detect_h1b text = Some false)
    /\ (~ some_phrase_in Config.H1B_NEGATIVE_KEYWORDS text ->
        some_phrase_in Config.H1B_POSITIVE_KEYWORDS text ->
        detect_h1b text = Some true)
    /\ (~ some_phrase_in Config.H1B_NEGATIVE_KEYWORDS text ->
        ~ some_phrase_in Config.H1B_POSITIVE_KEYWORDS text ->
        detect_h1b text = None)
    /\ detect_h1b "We sponsor H1B visas" = Some true
    /\ detect_h1b "No sponsorship available" = Some false
    /\ some_phrase_in Config.H1B_POSITIVE_KEYWORDS "No sponsorship available"
    /\ detect_h1b "Looking for a data scientist" = None.
Proof.
  intros text.
  split; [|split; [|split; [|split; [|split; [|split]]]]].
  4, 5, 7: vm_compute; reflexivity.
  all: unfold detect_h1b.
  - intros H. apply any_in_iff in H. now rewrite H.
  - intros Hn Hp. apply any_in_iff in Hp. rewrite Hp.
    destruct (any_in Config.H1B_NEGATIVE_KEYWORDS (_normalise text)) eqn:E;
      [|reflexivity].
    apply any_in_iff in E. contradiction.
  - intros Hn Hp.
    destruct (any_in Config.H1B_NEGATIVE_KEYWORDS (_normalise text)) eqn:E.
    { apply any_in_iff in E. contradiction. }
    destruct (any_in Config.H1B_POSITIVE_KEYWORDS (_normalise text)) eqn:E';
      [|reflexivity].
    apply any_in_iff in E'. contradiction.
  - exists "sponsorship available". split; [|vm_compute; reflexivity].
    apply mem_in. vm_compute. reflexivity.
Qed.

(** C6.  The top-tier detector searches the normalised company name followed
    by the first 500 characters of the job text, and answers [True] exactly
    when an alias occurs there between two word boundaries; what follows the
    500th character has no effect.  "Amazonia Consulting" is not top-tier,
    "Google", "Meta" and "Amazon" are, "Acme Corp" is not. *)
Theorem detect_maang_whole_word :
  forall company job_text : string,
    (detect_maang company job_text = true <->
     exists alias pre post,
       In alias Config.MAANG_ALIASES
       /\ _normalise (company ++ " " ++ Str.take 500 job_text)
          = (pre ++ alias ++ post)%string
       /\ Re.boundary (Str.last None pre) (Str.head (alias ++ post)) = true
       /\ Re.boundary (Str.last None (pre ++ alias)) (Str.head post) = true)
    /\ detect_maang company (Str.take 500 job_text) = detect_maang company job_text
    /\ detect_maang "Amazonia Consulting" "" = false
    /\ detect_maang "Google" "" = true
    /\ detect_maang "Meta" "" = true
    /\ detect_maang "Amazon" "" = true
    /\ detect_maang "Acme Corp" "" = false.
Proof.
  intros company job_text.
  split; [|split; [apply detect_maang_take|]].
  2: { split; [|split; [|split; [|split]]]; vm_compute; reflexivity. }
  unfold detect_maang, detect_maang_in. rewrite existsb_exists. split.
  - intros [alias [Hin H]]. apply ReFacts.word_search_iff in H.
    destruct H as [pre [post H]]. now exists alias, pre, post.
  - intros [alias [pre [post [Hin H]]]]. exists alias. split; [assumption|].
    apply ReFacts.word_search_iff. now exists pre, post.
Qed.

(** ** ATS keywords *)

Section AtsFacts.

Variable norm_job : string.

Local Notation "# k" := (occurrences norm_job k) (at level 9, k at level 9).
Local Notation "a << b" := (rank_before norm_job a b) (at level 50).

Lemma rank_before_iff (a b : string) : a << b = true <-> ranked norm_job a b.
Proof.
  unfold rank_before, hit_before, ranked. cbn [fst snd].
  rewrite orb_true_iff, andb_true_iff, Nat.ltb_lt, Nat.eqb_eq. reflexivity.
Qed.

Lemma rank_before_false (a b : string) :
  a << b = false <-> ~ ranked norm_job a b.
Proof. rewrite <- rank_before_iff. now destruct (a << b). Qed.

Lemma rank_irrefl (a : string) : a << a = false.
Proof.
  apply rank_before_false. intros [H | [_ H]]; [lia|].
  now rewrite StrOrder.ltb_irrefl in H.
Qed.

Lemma rank_trans (a b c : string) :
  a << b = true -> b << c = true -> a << c = true.
Proof.
  rewrite !rank_before_iff. unfold ranked.
  intros [H1 | [H1 L1]] [H2 | [H2 L2]]; try (left; lia).
  right. split; [lia | now apply StrOrder.ltb_trans with b].
Qed.

Lemma rank_asym (a b : string) : a << b = true -> b << a = false.
Proof.
  intros H. destruct (b << a) eqn:H'; [|reflexivity].
  rewrite <- (rank_irrefl a). symmetry. now apply rank_trans with b.
Qed.

Lemma rank_total (a b : string) : a <> b -> b << a = false -> a << b = true.
Proof.
  intros Hne H. apply rank_before_false in H. apply rank_before_iff.
  unfold ranked in *.
  destruct (Nat.lt_trichotomy (# a) (# b)) as [Hlt | [Heq | Hgt]].
  - elim H. now left.
  - right. split; [assumption|]. apply StrOrder.ltb_total; [assumption|].
    destruct (Str.ltb b a) eqn:E; [|reflexivity]. elim H. right. now split.
  - now left.
Qed.

Lemma rank_may_precede_trans (a b c : string) :
  may_precede (rank_before norm_job) a b ->
  may_precede (rank_before norm_job) b c ->
  may_precede (rank_before norm_job) a c.
Proof.
  unfold may_precede. intros Hba Hcb.
  destruct (c << a) eqn:Hca; [|reflexivity].
  destruct (string_dec a b) as [->|Hab]; [congruence|].
  apply rank_total in Hba; [|assumption].
  rewrite (rank_trans _ _ _ Hca Hba) in Hcb. discriminate.
Qed.

Lemma job_skill_hits_map (skills : list string) :
  job_skill_hits skills norm_job
  = List.map (fun k => (k, # k)) (filter (fun k => Nat.ltb 0 (# k)) skills).
Proof.
  unfold job_skill_hits. induction skills as [|k skills IH]; [reflexivity|].
  cbn [List.map filter snd]. fold (# k).
  destruct (Nat.ltb 0 (# k)); cbn [List.map]; now rewrite IH.
Qed.

Lemma insert_hits (k : string) (l : list string) :
  insert hit_before (k, # k) (List.map (fun k => (k, # k)) l)
  = List.map (fun k => (k, # k)) (insert (rank_before norm_job) k l).
Proof.
  induction l as [|j l IH]; [reflexivity|].
  cbn [List.map insert]. fold (j << k).
  destruct (j << k); cbn [List.map]; [now rewrite IH | reflexivity].
Qed.

Lemma stable_sort_hits (l : list string) :
  stable_sort hit_before (List.map (fun k => (k, # k)) l)
  = List.map (fun k => (k, # k)) (stable_sort (rank_before norm_job) l).
Proof.
  induction l as [|k l IH]; [reflexivity|].
  cbn [List.map stable_sort]. now rewrite IH, insert_hits.
Qed.

Lemma ranking_in (skills : list string) (k : string) :
  In k (ranking norm_job skills) <-> In k skills /\ 0 < # k.
Proof.
  unfold ranking. rewrite stable_sort_in, filter_In, Nat.ltb_lt. reflexivity.
Qed.

Lemma ranking_nodup (skills : list string) :
  NoDup skills -> NoDup (ranking norm_job skills).
Proof.
  intros H. unfold ranking.
  eapply Permutation_NoDup; [apply stable_sort_perm|]. now apply NoDup_filter.
Qed.

Lemma ranking_strict (skills : list string) :
  NoDup skills ->
  StronglySorted (fun a b => a << b = true) (ranking norm_job skills).
Proof.
  intros Hnd. apply strongly_sorted_strict.
  - intros x y _ _ Hne Hxy. now apply rank_total.
  - now apply ranking_nodup.
  - apply stable_sort_strongly_sorted; [apply rank_asym|].
    apply rank_may_precede_trans.
Qed.

Lemma ranking_sorted (skills : list string) :
  NoDup skills -> StronglySorted (ranked norm_job) (ranking norm_job skills).
Proof.
  intros Hnd. pose proof (ranking_strict skills Hnd) as H.
  induction H as [|a l H IH Ha]; constructor; [assumption|].
  eapply Forall_impl; [|exact Ha]. intros b. apply rank_before_iff.
Qed.

(** The ranking does not depend on the order in which the set of skills
    is walked. *)
Lemma ranking_perm (skills skills' : list string) :
  NoDup skills -> Permutation skills' skills ->
  ranking norm_job skills' = ranking norm_job skills.
Proof.
  intros Hnd Hp.
  assert (Hnd' : NoDup skills')
    by (eapply Permutation_NoDup; [symmetry; exact Hp | assumption]).
  apply (strictly_sorted_unique (rank_before norm_job)).
  - apply rank_irrefl.
  - apply rank_trans.
  - now apply ranking_strict.
  - now apply ranking_strict.
  - unfold ranking. rewrite <- !stable_sort_perm.
    clear -Hp. induction Hp; cbn [filter].
    + constructor.
    + destruct (Nat.ltb 0 (# x)); [now constructor | assumption].
    + destruct (Nat.ltb 0 (# x)), (Nat.ltb 0 (# y)); try reflexivity.
      apply perm_swap.
    + now transitivity (filter (fun k => Nat.ltb 0 (# k)) l').
Qed.

End AtsFacts.

Lemma extract_ats_keywords_in_ranking (skills : list string) (job_text : string) :
  extract_ats_keywords_in skills job_text
  = firstn 20 (ranking (_normalise job_text) skills).
Proof.
  unfold extract_ats_keywords_in, ranking.
  rewrite job_skill_hits_map, stable_sort_hits, <- firstn_map, map_map.
  cbn [fst]. now rewrite map_id.
Qed.

Lemma set_union_in (a b : list string) (x : string) :
  In x (set_union a b) <-> In x a \/ In x b.
Proof. unfold set_union. now rewrite set_of_in, in_app_iff. Qed.

(** C9.  The ATS keywords of a job text are the first 20 entries of the
    ranking of the dictionary terms (technical or soft) that occur in the
    normalised text as whole words: most occurrences first, and among terms
    with as many occurrences the alphabetically smaller first.  The
    occurrences of a term are its whole-word occurrences, counted as
    [re.findall] reads them, from the left and without overlap; a term has
    one exactly when it stands somewhere in the text between two word
    boundaries.  The result has at most 20 terms, is the same for every
    résumé profile, and is the same whatever the order in which the set of
    terms is walked.  In "SQL, Python & more SQL (PostgreSQL)" the term sql
    occurs twice (not within postgresql), so it comes first. *)
Theorem extract_ats_keywords_ranked :
  forall (job_text : string) (resume_profile : ResumeProfile),
    let norm_job := _normalise job_text in
    let count := occurrences norm_job in
    let out := extract_ats_keywords job_text resume_profile in
    (exists ranking : list string,
        out = firstn 20 ranking
        /\ (forall k, In k ranking <->
                      (In k Config.TECH_SKILLS_SET \/ In k Config.SOFT_SKILLS_SET)
                      /\ 0 < count k)
        /\ NoDup ranking
        /\ StronglySorted
             (fun a b => count b < count a
                         \/ (count a = count b /\ Str.ltb a b = true))
             ranking)
    /\ List.length out <= 20
    /\ (forall other : ResumeProfile, extract_ats_keywords job_text other = out)
    /\ (forall skills : list string,
           Permutation skills
             (set_union Config.TECH_SKILLS_SET Config.SOFT_SKILLS_SET) ->
           extract_ats_keywords_in skills job_text = out)
    /\ (forall k,
           In k Config.TECH_SKILLS_SET \/ In k Config.SOFT_SKILLS_SET ->
           (forall n, whole_words k None norm_job n <-> n = count k)
           /\ (0 < count k <->
               exists pre post : string,
                 norm_job = (pre ++ k ++ post)%string
                 /\ whole_word None pre k post))
    /\ occurrences "sql python more sql postgresql" "sql" = 2
    /\ extract_ats_keywords "SQL, Python & more SQL (PostgreSQL)" resume_profile
       = ["sql"; "postgresql"; "python"].
Proof.
  intros job_text resume_profile norm_job count out.
  assert (Hout : out = firstn 20
                   (ranking (_normalise job_text)
                      (set_union Config.TECH_SKILLS_SET Config.SOFT_SKILLS_SET)))
    by apply extract_ats_keywords_in_ranking.
  assert (Hnd : NoDup (set_union Config.TECH_SKILLS_SET Config.SOFT_SKILLS_SET))
    by apply set_of_nodup.
  split; [|split; [|split; [|split; [|split; [|split]]]]].
  - eexists. split; [exact Hout|]. split; [|split].
    + intros k. rewrite ranking_in, set_union_in. reflexivity.
    + now apply ranking_nodup.
    + now apply ranking_sorted.
  - rewrite Hout. exact (firstn_le_length 20 _).
  - intros other. subst out.
    cbv beta zeta delta [extract_ats_keywords]. reflexivity.
  - intros skills Hp. rewrite Hout, extract_ats_keywords_in_ranking.
    f_equal. now apply ranking_perm.
  - intros k Hk. pose proof (DictionaryFacts.skills_not_empty k Hk) as Hne.
    split; [|exact (CountFacts.occurrences_positive norm_job k Hne)].
    intros n. split.
    + intros H. exact (CountFacts.whole_words_unique k None norm_job _ _ H
                         (CountFacts.findall_count_whole_words k norm_job Hne)).
    + intros ->. exact (CountFacts.findall_count_whole_words k norm_job Hne).
  - vm_compute. reflexivity.
  - cbv beta zeta delta [extract_ats_keywords]. vm_compute. reflexivity.
Qed.

(** ** The engine, in every arithmetic *)

Section EngineFacts.

Context {F : Type} {A : Arith F}.

Lemma mapM_ok {X Y : Type} (f : X -> result Y) (g : X -> Y) (l : list X) :
  (forall x, In x l -> f x = Ok (g x)) -> mapM f l = Ok (List.map g l).
Proof.
  induction l as [|x l IH]; intros H; [reflexivity|].
  cbn [mapM List.map]. rewrite (H x) by now left.
  cbn [bind]. rewrite IH by (intros; apply H; now right). reflexivity.
Qed.

Lemma int_truediv_ok (a b : Z) :
  b <> 0%Z -> int_truediv a b = Ok (fdiv (of_int a) (of_int b)).
Proof.
  intros H. unfold int_truediv. now apply Z.eqb_neq in H as ->.
Qed.

(** *** Dictionaries *)

Lemma lookup_in_keys {V : Type} (k : string) (d : dict V) :
  In k (keys d) -> exists v, lookup k d = Some v.
Proof.
  induction d as [|[k' v'] d IH]; cbn [keys List.map fst In lookup]; [tauto|].
  intros [->|H].
  - rewrite String.eqb_refl. now exists v'.
  - destruct (String.eqb k' k); [now exists v' | now apply IH].
Qed.

Lemma item_ok {V : Type} (k : string) (dflt : V) (d : dict V) :
  In k (keys d) -> item k d = Ok (get k dflt d).
Proof.
  intros H. apply lookup_in_keys in H as [v H]. unfold item, get. now rewrite H.
Qed.

Lemma set_item_values (P : Z -> Prop) (k : string) (v : Z) (d : dict Z) :
  P v -> Forall P (values d) -> Forall P (values (set_item k v d)).
Proof.
  intros Hv. induction d as [|[k' v'] d IH]; cbn [set_item values List.map snd].
  - intros _. now constructor.
  - intros H. inversion H; subst.
    destruct (String.eqb k' k); cbn [List.map snd]; constructor; auto.
Qed.

Lemma get_values (P : Z -> Prop) (k : string) (dflt : Z) (d : dict Z) :
  P dflt -> Forall P (values d) -> P (get k dflt d).
Proof.
  intros Hd H. unfold get. destruct (lookup k d) as [v|] eqn:E; [|assumption].
  rewrite Forall_forall in H. apply H.
  clear -E. induction d as [|[k' v'] d IH]; [discriminate|].
  cbn [lookup] in E. cbn [values List.map snd In].
  destruct (String.eqb k' k); [left; congruence | right; now apply IH].
Qed.

Lemma incr_positive (k : string) (d : dict Z) :
  Forall (fun n => 0 < n)%Z (values d) ->
  Forall (fun n => 0 < n)%Z (values (incr k d)).
Proof.
  intros H. unfold incr. apply set_item_values; [|assumption].
  assert (0 <= get k 0 d)%Z; [|lia].
  apply (get_values (fun n => 0 <= n)%Z); [lia|].
  eapply Forall_impl; [|exact H]. intros; cbn beta in *; lia.
Qed.

Lemma fold_incr_positive (l : list string) (d : dict Z) :
  Forall (fun n => 0 < n)%Z (values d) ->
  Forall (fun n => 0 < n)%Z (values (fold_left (fun df t => incr t df) l d)).
Proof.
  revert d; induction l as [|t l IH]; intros d H; cbn [fold_left]; [assumption|].
  apply IH. now apply incr_positive.
Qed.

Lemma doc_freq_positive (corpus : list (list string)) :
  Forall (fun n => 0 < n)%Z (values (doc_freq corpus)).
Proof.
  unfold doc_freq.
  assert (H : Forall (fun n => 0 < n)%Z (values (@nil (string * Z))))
    by constructor.
  revert H. generalize (@nil (string * Z)) as d.
  induction corpus as [|tokens corpus IH]; intros d H; cbn [fold_left];
    [assumption|].
  apply IH. now apply fold_incr_positive.
Qed.

(** *** The vectors: no division by zero, no missing key *)

Lemma total_of_positive (tokens : list string) : (0 < total_of tokens)%Z.
Proof.
  unfold total_of. destruct (Z.eqb_spec (Z.of_nat (List.length tokens)) 0); lia.
Qed.

Lemma _build_tfidf_vector_ok (tokens : list string) (idf : dict F) :
  _build_tfidf_vector tokens idf
  = Ok (List.map (tfidf_weight tokens idf) (Counter tokens)).
Proof.
  unfold _build_tfidf_vector. fold (total_of tokens).
  apply mapM_ok. intros [term count] _.
  rewrite int_truediv_ok by (pose proof (total_of_positive tokens); lia).
  reflexivity.
Qed.

Lemma _compute_idf_ok (corpus : list (list string)) :
  _compute_idf corpus
  = Ok (List.map (idf_weight (Z.of_nat (List.length corpus))) (doc_freq corpus)).
Proof.
  unfold _compute_idf. apply mapM_ok. intros [term count] Hin.
  rewrite int_truediv_ok; [reflexivity|].
  pose proof (doc_freq_positive corpus) as H. rewrite Forall_forall in H.
  assert (0 < count)%Z; [|lia].
  apply H. unfold values. change count with (snd (term, count)).
  now apply in_map.
Qed.

Lemma overlap_ratio_ok (resume_profile : ResumeProfile) (job_text : string) :
  let resume_skills := set_of (all_keywords resume_profile) in
  let matched :=
    List.length (matching_skills resume_skills (_normalise job_text)) in
  overlap_ratio resume_profile job_text
  = Ok (fdiv (of_int (Z.of_nat matched))
             (of_int (Z.max (Z.of_nat (List.length resume_skills)) 1))).
Proof. cbv zeta. unfold overlap_ratio. apply int_truediv_ok. lia. Qed.

(** *** Cosine similarity *)

Lemma set_and_in (a b : list string) (x : string) :
  In x (set_and a b) <-> In x a /\ In x b.
Proof. unfold set_and. now rewrite filter_In, set_of_in, mem_in. Qed.

Lemma _cosine_similarity_unfold (vec_a vec_b : dict F) :
  _cosine_similarity vec_a vec_b =
  let common := set_and (keys vec_a) (keys vec_b) in
  match common with
  | [] => Ok (of_int 0)
  | _ =>
      mag_a <- magnitude vec_a ;;
      mag_b <- magnitude vec_b ;;
      if feqb mag_a (of_int 0) || feqb mag_b (of_int 0)
      then Ok (of_int 0)
      else float_truediv (dot_product common vec_a vec_b) (fmul mag_a mag_b)
  end.
Proof.
  cbv zeta. unfold _cosine_similarity.
  assert (H : mapM (fun t => a <- item t vec_a ;; b <- item t vec_b ;;
                             Ok (fmul a b))
                   (set_and (keys vec_a) (keys vec_b))
              = Ok (List.map (fun t => fmul (weight t vec_a) (weight t vec_b))
                             (set_and (keys vec_a) (keys vec_b)))).
  { apply mapM_ok. intros t Ht. apply set_and_in in Ht as [Ha Hb].
    rewrite (item_ok t (of_int 0) vec_a Ha), (item_ok t (of_int 0) vec_b Hb).
    reflexivity. }
  rewrite H. destruct (set_and (keys vec_a) (keys vec_b)); reflexivity.
Qed.

Lemma mapM_raises {X Y : Type} (f : X -> result Y) (l : list X) (e : exn) :
  mapM f l = Raise e -> exists x, In x l /\ f x = Raise e.
Proof.
  induction l as [|x l IH]; cbn [mapM]; [discriminate|].
  destruct (f x) as [y|e'] eqn:Ex; cbn [bind].
  - destruct (mapM f l) as [ys|e'']; cbn [bind]; [discriminate|].
    intros [= ->]. destruct (IH eq_refl) as [x' [Hin H]].
    exists x'. split; [now right | assumption].
  - intros [= ->]. exists x. split; [now left | assumption].
Qed.

Lemma mapM_total {X Y : Type} (f : X -> result Y) (l : list X) :
  (forall x, exists y, f x = Ok y) -> exists ys, mapM f l = Ok ys.
Proof.
  intros H. induction l as [|x l [ys IH]]; cbn [mapM]; [eauto|].
  destruct (H x) as [y ->]. cbn [bind]. rewrite IH. cbn [bind]. eauto.
Qed.

(** *** The match score *)

Lemma calculate_match_score_empty (resume_profile : ResumeProfile)
      (job_text : string) (alpha beta : F) :
  raw_text resume_profile = "" \/ job_text = "" ->
  calculate_match_score resume_profile job_text alpha beta = Ok (of_int 0).
Proof.
  unfold calculate_match_score. intros [-> | ->]; [reflexivity|].
  now rewrite orb_true_r.
Qed.

Lemma is_empty_false (s : string) : s <> "" -> Str.is_empty s = false.
Proof. destruct s; [congruence | reflexivity]. Qed.

Lemma calculate_match_score_unfold (resume_profile : ResumeProfile)
      (job_text : string) (alpha beta : F) :
  raw_text resume_profile <> "" -> job_text <> "" ->
  calculate_match_score resume_profile job_text alpha beta =
  (tfidf_sim <- tfidf_similarity (raw_text resume_profile) job_text ;;
   overlap <- overlap_ratio resume_profile job_text ;;
   Ok (clip (fadd (fmul alpha tfidf_sim) (fmul beta overlap)))).
Proof.
  intros Hr Hj. unfold calculate_match_score.
  now rewrite (is_empty_false _ Hr), (is_empty_false _ Hj).
Qed.

Lemma tfidf_similarity_unfold (resume_text job_text : string) :
  tfidf_similarity resume_text job_text =
  let resume_tokens := _tokenise resume_text in
  let job_tokens := _tokenise job_text in
  let idf := List.map (idf_weight 2) (doc_freq [resume_tokens; job_tokens]) in
  _cosine_similarity
    (List.map (tfidf_weight resume_tokens idf) (Counter resume_tokens))
    (List.map (tfidf_weight job_tokens idf) (Counter job_tokens)).
Proof.
  cbv zeta. unfold tfidf_similarity.
  rewrite _compute_idf_ok. cbn [bind].
  now rewrite !_build_tfidf_vector_ok.
Qed.

End EngineFacts.

(** C8.  With an empty résumé text or an empty job text the match score is
    [0.0], returned and not raised, whatever the weights; in binary64 the
    value is the float [0.0] itself. *)
Theorem calculate_match_score_empty_input :
  forall (F : Type) (A : Arith F) (resume_profile : ResumeProfile)
         (job_text : string) (alpha beta : F),
    raw_text resume_profile = "" \/ job_text = "" ->
    calculate_match_score resume_profile job_text alpha beta = Ok (of_int 0).
Proof. intros. now apply calculate_match_score_empty. Qed.

Lemma calculate_match_score_empty_input_witness :
  @calculate_match_score float Binary64.plain
    (mkProfile "python sql" ["python"; "sql"]) ""
    (@alpha_default float Binary64.plain) (@beta_default float Binary64.plain)
  = Ok 0%float.
Proof.
  apply (calculate_match_score_empty_input float Binary64.plain
           (mkProfile "python sql" ["python"; "sql"]) "").
  right. reflexivity.
Defined.

(** ** Classification *)

Section ClassifyFacts.

Context {F : Type} {A : Arith F}.

(** What a classification that returns has computed. *)
Lemma classify_job_ok (job : Job) (resume_profile : ResumeProfile)
      (c : ClassifiedJob F) :
  classify_job job resume_profile = Ok c <->
  exists description company url score,
    get "description" (PStr "") job = PStr description
    /\ get "company" (PStr "") job = PStr company
    /\ get "url" (PStr "") job = PStr url
    /\ calculate_match_score resume_profile description
         alpha_default beta_default = Ok score
    /\ c = {| posting := job;
              match_score := score;
              match_pct := fround1 (fmul score (of_int 100));
              h1b_sponsor := detect_h1b description;
              is_maang := detect_maang company description;
              is_fortune500 := detect_fortune500 company;
              portal := detect_portal url description;
              ats_keywords := extract_ats_keywords description resume_profile;
              key_skills :=
                sorted_str (matching_skills
                              (set_of (all_keywords resume_profile))
                              (_normalise description));
              above_threshold := fleb MATCH_THRESHOLD score |}.
Proof.
  unfold classify_job. split.
  - intros H.
    apply bind_ok in H as [d [Hd H]]. apply expect_str_ok in Hd.
    apply bind_ok in H as [score [Hs H]].
    apply bind_ok in H as [co [Hc H]]. apply expect_str_ok in Hc.
    apply bind_ok in H as [u [Hu H]]. apply expect_str_ok in Hu.
    exists d, co, u, score. repeat (split; [assumption|]). congruence.
  - intros [d [co [u [score [Hd [Hc [Hu [Hs ->]]]]]]]].
    rewrite Hd, Hc, Hu. cbn [expect_str bind]. rewrite Hs. reflexivity.
Qed.

Lemma classify_job_threshold (job : Job) (resume_profile : ResumeProfile)
      (c : ClassifiedJob F) :
  classify_job job resume_profile = Ok c ->
  above_threshold c = true <-> fleb MATCH_THRESHOLD (match_score c) = true.
Proof.
  intros H. apply classify_job_ok in H as [d [co [u [score [_ [_ [_ [_ ->]]]]]]]].
  reflexivity.
Qed.

(** A description that is not a string makes the classification raise. *)
Lemma classify_job_bad_description (job : Job) (resume_profile : ResumeProfile) :
  (forall s, get "description" (PStr "") job <> PStr s) ->
  classify_job job resume_profile = Raise AttributeError.
Proof.
  intros H. unfold classify_job.
  destruct (get "description" (PStr "") job) as [s| |n]; try reflexivity.
  now elim (H s).
Qed.

Lemma classify_loop (jobs : list Job) (resume_profile : ResumeProfile)
      (acc : list (ClassifiedJob F)) :
  fold_left (fun enriched job =>
               match classify_job job resume_profile with
               | Ok classified => enriched ++ [classified]
               | Raise exc => enriched
               end)
            jobs acc
  = acc ++ flat_map (classified_of resume_profile) jobs.
Proof.
  revert acc. induction jobs as [|job jobs IH]; intros acc;
    cbn [fold_left flat_map].
  - now rewrite app_nil_r.
  - rewrite IH. unfold classified_of at 2.
    destruct (classify_job job resume_profile); cbn [app].
    + now rewrite <- app_assoc.
    + reflexivity.
Qed.

Lemma classify_all_flat_map (jobs : list Job) (resume_profile : ResumeProfile) :
  classify_all jobs resume_profile
  = flat_map (classified_of resume_profile) jobs.
Proof. unfold classify_all. now rewrite classify_loop. Qed.

Lemma classify_all_in (jobs : list Job) (resume_profile : ResumeProfile)
      (c : ClassifiedJob F) :
  In c (classify_all jobs resume_profile) <->
  exists job, In job jobs /\ classify_job job resume_profile = Ok c.
Proof.
  rewrite classify_all_flat_map, in_flat_map. unfold classified_of.
  split; intros [job [Hin H]]; exists job; (split; [assumption|]).
  - destruct (classify_job job resume_profile); cbn in H; [|contradiction].
    destruct H as [->|[]]. reflexivity.
  - rewrite H. now left.
Qed.

Lemma classify_all_app (l1 l2 : list Job) (resume_profile : ResumeProfile) :
  classify_all (l1 ++ l2) resume_profile
  = classify_all l1 resume_profile ++ classify_all l2 resume_profile.
Proof. rewrite !classify_all_flat_map. apply flat_map_app. Qed.

(** A posting whose classification raises leaves no trace in the batch. *)
Lemma classify_all_drop (l1 l2 : list Job) (bad : Job) (e : exn)
      (resume_profile : ResumeProfile) :
  classify_job bad resume_profile = Raise e ->
  classify_all (l1 ++ bad :: l2) resume_profile
  = classify_all (l1 ++ l2) resume_profile.
Proof.
  intros H. rewrite !classify_all_app. f_equal.
  change (bad :: l2) with ([bad] ++ l2). rewrite classify_all_app.
  rewrite (classify_all_flat_map [bad]). cbn [flat_map]. unfold classified_of.
  now rewrite H.
Qed.

Lemma classify_jobs_batch_in (jobs : list Job) (resume_profile : ResumeProfile)
      (c : ClassifiedJob F) :
  In c (classify_jobs_batch jobs resume_profile) <->
  exists job, In job jobs
              /\ classify_job job resume_profile = Ok c
              /\ above_threshold c = true.
Proof.
  unfold classify_jobs_batch.
  rewrite stable_sort_in, filter_In, classify_all_in.
  split.
  - intros [[job [Hin H]] Ha]. now exists job.
  - intros [job [Hin [H Ha]]]. split; [now exists job | assumption].
Qed.

End ClassifyFacts.

(** ** The laws in binary64 *)

Module Binary64Facts.

Lemma SFcompare_lt_gt (a b : spec_float) :
  SFcompare a b = Some Lt -> SFcompare b a = Some Gt.
Proof.
  destruct a as [sa|sa| |sa ma ea], b as [sb|sb| |sb mb eb]; cbn;
    try destruct sa; try destruct sb; try congruence;
    rewrite (Z.compare_antisym ea eb);
    destruct (Z.compare ea eb); cbn; try congruence;
    rewrite (eq_sym (Pos.compare_cont_antisym ma mb Eq) :
               Pos.compare_cont Eq mb ma = CompOpp (Pos.compare_cont Eq ma mb));
    destruct (Pos.compare_cont Eq ma mb); cbn; congruence.
Qed.

Lemma float_ltb_asym (x y : float) :
  PrimFloat.ltb x y = true -> PrimFloat.ltb y x = false.
Proof.
  rewrite !ltb_spec. unfold SFltb.
  destruct (SFcompare (Prim2SF x) (Prim2SF y)) as [[| |]|] eqn:E; try discriminate.
  intros _. now rewrite (SFcompare_lt_gt _ _ E).
Qed.

Lemma ltb_leb (x y : float) :
  PrimFloat.ltb x y = true -> PrimFloat.leb x y = true.
Proof.
  rewrite ltb_spec, leb_spec. unfold SFltb, SFleb.
  now destruct (SFcompare (Prim2SF x) (Prim2SF y)) as [[| |]|].
Qed.

Lemma SFcompare_eq_eq (a b v : spec_float) :
  SFcompare a v = Some Eq -> SFcompare b v = Some Eq ->
  SFcompare a b = Some Eq.
Proof.
  destruct a as [sa|sa| |sa ma ea], b as [sb|sb| |sb mb eb],
           v as [sv|sv| |sv mv ev]; cbn;
    try destruct sa; try destruct sb; try destruct sv; try congruence;
    destruct (Z.compare_spec ea ev); try congruence;
    destruct (Z.compare_spec eb ev); try congruence; subst;
    rewrite Z.compare_refl;
    fold (Pos.compare ma mv); fold (Pos.compare mb mv); fold (Pos.compare ma mb);
    destruct (Pos.compare_spec ma mv); cbn; try congruence;
    destruct (Pos.compare_spec mb mv); cbn; try congruence; subst;
    now rewrite Pos.compare_refl.
Qed.

Lemma eqb_ltb (x y v : float) :
  PrimFloat.eqb x v = true -> PrimFloat.eqb y v = true ->
  PrimFloat.ltb x y = false.
Proof.
  rewrite !eqb_spec, ltb_spec. unfold SFeqb, SFltb.
  destruct (SFcompare (Prim2SF x) (Prim2SF v)) as [[| |]|] eqn:Ex; try discriminate.
  destruct (SFcompare (Prim2SF y) (Prim2SF v)) as [[| |]|] eqn:Ey; try discriminate.
  intros _ _. now rewrite (SFcompare_eq_eq _ _ _ Ex Ey).
Qed.

Lemma SFcompare_not_lt_trans (a b c : spec_float) :
  SFcompare a a = Some Eq -> SFcompare b b = Some Eq -> SFcompare c c = Some Eq ->
  SFcompare a b <> Some Lt -> SFcompare b c <> Some Lt ->
  SFcompare a c <> Some Lt.
Proof.
  destruct a as [sa|sa| |sa ma ea], b as [sb|sb| |sb mb eb],
           c as [sc|sc| |sc mc ec]; cbn; try discriminate;
    try destruct sa; try destruct sb; try destruct sc; cbn;
    intros _ _ _; try congruence;
    repeat match goal with
      | |- context [Z.compare ?a ?b] => destruct (Z.compare_spec a b); subst
      | |- context [Pos.compare_cont Eq ?a ?b] =>
          change (Pos.compare_cont Eq a b) with (Pos.compare a b);
          destruct (Pos.compare_spec a b); subst
      end;
    cbn; try congruence; try lia.
Qed.

(** Among floats none of which is a NaN, [<] orders as a total order does. *)
Lemma float_ltb_chain (x y z : float) :
  PrimFloat.eqb x x = true -> PrimFloat.eqb y y = true ->
  PrimFloat.eqb z z = true ->
  PrimFloat.ltb x y = false -> PrimFloat.ltb y z = false ->
  PrimFloat.ltb x z = false.
Proof.
  rewrite !eqb_spec, !ltb_spec. unfold SFeqb, SFltb.
  intros Hx Hy Hz Hxy Hyz.
  assert (Ex : SFcompare (Prim2SF x) (Prim2SF x) = Some Eq)
    by (destruct (SFcompare (Prim2SF x) (Prim2SF x)) as [[| |]|]; congruence).
  assert (Ey : SFcompare (Prim2SF y) (Prim2SF y) = Some Eq)
    by (destruct (SFcompare (Prim2SF y) (Prim2SF y)) as [[| |]|]; congruence).
  assert (Ez : SFcompare (Prim2SF z) (Prim2SF z) = Some Eq)
    by (destruct (SFcompare (Prim2SF z) (Prim2SF z)) as [[| |]|]; congruence).
  assert (Nxy : SFcompare (Prim2SF x) (Prim2SF y) <> Some Lt)
    by (intros E; rewrite E in Hxy; discriminate).
  assert (Nyz : SFcompare (Prim2SF y) (Prim2SF z) <> Some Lt)
    by (intros E; rewrite E in Hyz; discriminate).
  pose proof (SFcompare_not_lt_trans _ _ _ Ex Ey Ez Nxy Nyz) as N.
  destruct (SFcompare (Prim2SF x) (Prim2SF z)) as [[| |]|]; congruence.
Qed.

Lemma SFmul_comm (prec emax : Z) (a b : spec_float) :
  SFmul prec emax a b = SFmul prec emax b a.
Proof.
  destruct a as [sa|sa| |sa ma ea], b as [sb|sb| |sb mb eb]; cbn;
    try reflexivity; try (now rewrite xorb_comm).
  now rewrite xorb_comm, Pos.mul_comm, Z.add_comm.
Qed.

Lemma mul_comm (x y : float) : PrimFloat.mul x y = PrimFloat.mul y x.
Proof.
  apply Prim2SF_inj. rewrite !mul_spec. apply SFmul_comm.
Qed.

Lemma binary64_laws (log pow2 round1 : float -> float) :
  ArithLaws (Binary64.arith log pow2 round1).
Proof.
  constructor; cbn.
  - apply float_ltb_asym.
  - apply ltb_leb.
  - reflexivity.
  - reflexivity.
  - reflexivity.
  - apply eqb_ltb.
  - apply float_ltb_chain.
  - apply mul_comm.
  - intros x e. unfold Binary64.square.
    destruct (PrimFloat.is_nan x); [discriminate|].
    destruct (PrimFloat.is_infinity x); [discriminate|].
    destruct (PrimFloat.is_infinity (pow2 x)); congruence.
Qed.

(** The constants of the engine, as binary64 has them. *)
Lemma constants (log pow2 round1 : float -> float) :
  @alpha_default float (Binary64.arith log pow2 round1)
  = 0x1.4cccccccccccdp-1%float
  /\ @beta_default float (Binary64.arith log pow2 round1)
     = 0x1.6666666666666p-2%float
  /\ @MATCH_THRESHOLD float (Binary64.arith log pow2 round1)
     = 0x1.70a3d70a3d70ap-1%float.
Proof. repeat split. Qed.

End Binary64Facts.

(** ** The laws in the real numbers *)

Module ExactFacts.

Lemma ltb_iff (x y : R) : Exact.ltb x y = true <-> (x < y)%R.
Proof. unfold Exact.ltb. destruct (Rlt_dec x y); split; auto; discriminate. Qed.

Lemma leb_iff (x y : R) : Exact.leb x y = true <-> (x <= y)%R.
Proof. unfold Exact.leb. destruct (Rle_dec x y); split; auto; discriminate. Qed.

Lemma eqb_iff (x y : R) : Exact.eqb x y = true <-> x = y.
Proof. unfold Exact.eqb. destruct (Req_dec_T x y); split; auto; discriminate. Qed.

Lemma ltb_false_iff (x y : R) : Exact.ltb x y = false <-> (y <= x)%R.
Proof.
  unfold Exact.ltb. destruct (Rlt_dec x y); split; auto; try discriminate; lra.
Qed.

Lemma eqb_false_iff (x y : R) : Exact.eqb x y = false <-> x <> y.
Proof.
  unfold Exact.eqb. destruct (Req_dec_T x y); split; auto; try discriminate.
  contradiction.
Qed.

Lemma exact_laws : ArithLaws Exact.arith.
Proof.
  constructor; cbn.
  - intros x y H. apply ltb_iff in H. apply ltb_false_iff. lra.
  - intros x y H. apply ltb_iff in H. apply leb_iff. lra.
  - apply leb_iff. lra.
  - apply leb_iff. lra.
  - apply leb_iff. lra.
  - intros x y v Hx Hy. apply eqb_iff in Hx, Hy. apply ltb_false_iff. lra.
  - intros x y z _ _ _ Hxy Hyz. apply ltb_false_iff in Hxy, Hyz.
    apply ltb_false_iff. lra.
  - intros x y. apply Rmult_comm.
  - discriminate.
Qed.

End ExactFacts.

(** ** The claims on classification *)

(** C1.  A classification that returns satisfies the three invariants of
    the record: [match_pct] is [round(match_score * 100, 1)]; every key skill
    is one of the profile's keywords, and the key skills are in ascending
    order (strictly: none is repeated); [above_threshold] holds exactly when
    [match_score >= MATCH_THRESHOLD]. *)
Theorem classify_job_invariants :
  forall (F : Type) (A : Arith F) (job : Job) (resume_profile : ResumeProfile)
         (c : ClassifiedJob F),
    classify_job job resume_profile = Ok c ->
    match_pct c = fround1 (fmul (match_score c) (of_int 100))
    /\ (forall k, In k (key_skills c) -> In k (all_keywords resume_profile))
    /\ StronglySorted (fun a b => Str.ltb a b = true) (key_skills c)
    /\ (above_threshold c = true <->
        fleb MATCH_THRESHOLD (match_score c) = true).
Proof.
  intros F A job resume_profile c H.
  apply classify_job_ok in H as [d [co [u [score [_ [_ [_ [_ ->]]]]]]]].
  cbn [match_pct match_score key_skills above_threshold].
  split; [reflexivity|]. split; [|split; [|reflexivity]].
  - intros k Hk. apply StrOrder.sorted_str_in, matching_skills_in in Hk.
    now apply set_of_in.
  - apply StrOrder.sorted_str_ascending. unfold matching_skills.
    apply NoDup_filter, set_of_nodup.
Qed.

Lemma classify_job_invariants_witness :
  match @classify_job float Binary64.plain test_job test_profile with
  | Ok c =>
      key_skills c = ["pandas"; "python"; "sql"; "statistics"]
      /\ (forall k, In k (key_skills c) -> In k (all_keywords test_profile))
      /\ (above_threshold c = true <->
          PrimFloat.leb (@MATCH_THRESHOLD float Binary64.plain) (match_score c)
          = true)
  | Raise _ => False
  end.
Proof.
  destruct (@classify_job float Binary64.plain test_job test_profile) as [c|e] eqn:E.
  - split.
    + revert E. vm_compute. intros [= <-]. reflexivity.
    + pose proof (classify_job_invariants float Binary64.plain
                    test_job test_profile c E) as H.
      split; apply H.
  - revert E. vm_compute. discriminate.
Defined.

(** C3.  The batch returns a list for every list of postings: a posting
    whose classification raises is left out and changes nothing else, and
    every other posting is classified as [classify_job] classifies it: the
    batch over a list with a failing posting is the batch over the list
    without it, every classification that returns above the threshold is in
    the output, and the output holds nothing else.  A posting whose
    description is [None] is such a failing posting. *)
Theorem classify_jobs_batch_isolates_failures :
  forall (F : Type) (A : Arith F) (jobs : list Job)
         (resume_profile : ResumeProfile),
    (forall l1 l2 bad e,
        jobs = l1 ++ bad :: l2 ->
        classify_job bad resume_profile = Raise e ->
        classify_jobs_batch jobs resume_profile
        = classify_jobs_batch (l1 ++ l2) resume_profile)
    /\ (forall job c,
           In job jobs ->
           classify_job job resume_profile = Ok c ->
           above_threshold c = true ->
           In c (classify_jobs_batch jobs resume_profile))
    /\ (forall c,
           In c (classify_jobs_batch jobs resume_profile) ->
           exists job, In job jobs /\ classify_job job resume_profile = Ok c)
    /\ classify_job broken_job resume_profile = Raise AttributeError
    /\ classify_jobs_batch (broken_job :: jobs) resume_profile
       = classify_jobs_batch jobs resume_profile.
Proof.
  intros F A jobs resume_profile.
  assert (Hbroken : classify_job broken_job resume_profile = Raise AttributeError).
  { apply classify_job_bad_description. intros s. discriminate. }
  split; [|split; [|split; [|split]]].
  - intros l1 l2 bad e -> H. unfold classify_jobs_batch.
    now rewrite (classify_all_drop l1 l2 bad e).
  - intros job c Hin H Ha. apply classify_jobs_batch_in. now exists job.
  - intros c H. apply classify_jobs_batch_in in H as [job [Hin [H _]]].
    now exists job.
  - exact Hbroken.
  - unfold classify_jobs_batch.
    now rewrite (classify_all_drop [] jobs broken_job AttributeError).
Qed.

(** C4.  The output of the batch is a rearrangement of the classifications
    that returned with [above_threshold] true, that is with
    [match_score >= MATCH_THRESHOLD]; no element has a smaller [match_pct]
    than its successor, nor than any later element when no [match_pct] of
    the output is a NaN (each equals itself); and the elements whose
    [match_pct] equal a given value stand in the order of the input. *)
Theorem classify_jobs_batch_sorted :
  forall (F : Type) (A : Arith F) (L : ArithLaws A) (jobs : list Job)
         (resume_profile : ResumeProfile),
    let qualified :=
      filter above_threshold (flat_map (classified_of resume_profile) jobs) in
    let out := classify_jobs_batch jobs resume_profile in
    let not_below := fun x y : ClassifiedJob F =>
                       fltb (match_pct x) (match_pct y) = false in
    Permutation qualified out
    /\ (forall c,
           In c out <->
           exists job, In job jobs
                       /\ classify_job job resume_profile = Ok c
                       /\ fleb MATCH_THRESHOLD (match_score c) = true)
    /\ Sorted not_below out
    /\ ((forall c, In c out -> feqb (match_pct c) (match_pct c) = true) ->
        StronglySorted not_below out)
    /\ (forall v : F,
           filter (fun c => feqb (match_pct c) v) out
           = filter (fun c => feqb (match_pct c) v) qualified).
Proof.
  intros F A L jobs resume_profile qualified out not_below.
  assert (Hout : out = stable_sort pct_before qualified).
  { subst out qualified. unfold classify_jobs_batch.
    now rewrite classify_all_flat_map. }
  assert (Hs : Sorted not_below out).
  { rewrite Hout.
    apply (stable_sort_sorted pct_before).
    intros x y. unfold pct_before. apply fltb_asym. }
  split; [|split; [|split; [|split]]].
  - rewrite Hout. apply stable_sort_perm.
  - intros c. subst out. rewrite classify_jobs_batch_in.
    split; intros [job [Hin [H Ha]]]; exists job; (split; [assumption|]);
      (split; [assumption|]);
      apply (classify_job_threshold job resume_profile c H); assumption.
  - exact Hs.
  - intros Hnan. apply sorted_throughout; [|exact Hs].
    intros x y z Hx Hy Hz. apply fltb_chain; now apply Hnan.
  - intros v. rewrite Hout. apply filter_stable_sort.
    intros x y Hx Hy. unfold pct_before. now apply feqb_fltb with v.
Qed.

Lemma classify_jobs_batch_sorted_witness :
  let out := @classify_jobs_batch float Binary64.plain
               [empty_job; test_job; broken_job; second_job] test_profile in
  List.map (fun c => posting c) out = [test_job; second_job]
  /\ StronglySorted
       (fun x y => PrimFloat.ltb (match_pct x) (match_pct y) = false) out.
Proof.
  split.
  - vm_compute. reflexivity.
  - apply (classify_jobs_batch_sorted float Binary64.plain
             (Binary64Facts.binary64_laws _ _ _)
             [empty_job; test_job; broken_job; second_job] test_profile).
    apply Forall_forall. vm_compute. repeat constructor.
Defined.

(** C10.  A company name that normalises to the empty string is found in
    every non-empty set of names, the empty string being a substring of each
    of them: the Fortune 500 detector answers [True] for it, and a posting
    without a company entry, when its classification returns, is flagged as
    Fortune 500. *)
Theorem detect_fortune500_empty_name :
  forall (names : list string) (company : string),
    _normalise company = "" ->
    names <> [] ->
    detect_fortune500_in names company = true
    /\ detect_fortune500 company = true
    /\ (forall (F : Type) (A : Arith F) (job : Job)
               (resume_profile : ResumeProfile) (c : ClassifiedJob F),
           lookup "company" job = None ->
           classify_job job resume_profile = Ok c ->
           is_fortune500 c = true).
Proof.
  intros names company Hnorm Hnames.
  assert (Hset : Config.FORTUNE_500_SET <> []) by (vm_compute; discriminate).
  split; [now apply detect_fortune500_in_empty|].
  split; [now apply detect_fortune500_in_empty|].
  intros F A job resume_profile c Hco H.
  apply classify_job_ok in H as [d [co [u [score [_ [Hc [_ [_ ->]]]]]]]].
  cbn [is_fortune500]. unfold get in Hc. rewrite Hco in Hc.
  injection Hc as <-. now apply detect_fortune500_in_empty.
Qed.

Lemma detect_fortune500_empty_name_witness :
  _normalise "" = "" /\ _normalise "   " = "" /\ _normalise "-- !" = ""
  /\ detect_fortune500 "-- !" = true
  /\ _normalise "..." = "..."
  /\ detect_fortune500 "..." = false
  /\ detect_fortune500 "Acme Corp" = false.
Proof.
  split; [reflexivity|]. split; [reflexivity|]. split; [reflexivity|].
  split; [|split; [reflexivity | split; vm_compute; reflexivity]].
  apply (detect_fortune500_empty_name ["apple"] "-- !"); [reflexivity|discriminate].
Defined.

(** ** The score, under the laws of the arithmetic *)

Section ScoreFacts.

Context {F : Type} {A : Arith F} {L : ArithLaws A}.

(** The clipped value lies between 0 and 1, whatever is clipped (a NaN
    is clipped to 1). *)
Lemma clip_range (combined : F) :
  fleb (of_int 0) (clip combined) = true /\ fleb (clip combined) (of_int 1) = true.
Proof.
  unfold clip, py_max, py_min.
  destruct (fltb combined (of_int 1)) eqn:H1.
  - destruct (fltb (of_int 0) combined) eqn:H0.
    + split; now apply fltb_fleb.
    + split; [apply fleb_0_0 | apply fleb_0_1].
  - destruct (fltb (of_int 0) (of_int 1)) eqn:H0.
    + split; [apply fleb_0_1 | apply fleb_1_1].
    + split; [apply fleb_0_0 | apply fleb_0_1].
Qed.

Lemma calculate_match_score_range (resume_profile : ResumeProfile)
      (job_text : string) (alpha beta s : F) :
  calculate_match_score resume_profile job_text alpha beta = Ok s ->
  fleb (of_int 0) s = true /\ fleb s (of_int 1) = true.
Proof.
  unfold calculate_match_score.
  destruct (Str.is_empty (raw_text resume_profile) || Str.is_empty job_text).
  - intros [= <-]. split; [apply fleb_0_0 | apply fleb_0_1].
  - intros H. apply bind_ok in H as [sim [_ H]].
    apply bind_ok in H as [ov [_ H]]. injection H as <-. apply clip_range.
Qed.

(** The magnitude of a vector fails only when a square overflows. *)
Lemma magnitude_cases (vec : dict F) :
  (exists m, magnitude vec = Ok m) \/ magnitude vec = Raise OverflowError.
Proof.
  unfold magnitude. destruct (mapM fsquare (values vec)) as [sq|e] eqn:E.
  - left. cbn [bind]. eauto.
  - right. cbn [bind]. apply mapM_raises in E as [x [_ E]].
    now rewrite (fsquare_raises x e E).
Qed.

Lemma magnitude_total (vec : dict F) :
  never_overflows A -> exists m, magnitude vec = Ok m.
Proof.
  intros H. unfold magnitude.
  destruct (mapM_total fsquare (values vec) H) as [sq ->]. cbn [bind]. eauto.
Qed.

(** The similarity of [a] to [b] and of [b] to [a], when both walk the
    common terms in one order. *)
Lemma _cosine_similarity_sym (vec_a vec_b : dict F) :
  set_and (keys vec_a) (keys vec_b) = set_and (keys vec_b) (keys vec_a) ->
  _cosine_similarity vec_a vec_b = _cosine_similarity vec_b vec_a.
Proof.
  intros H. rewrite !_cosine_similarity_unfold. cbv zeta. rewrite <- H.
  destruct (set_and (keys vec_a) (keys vec_b)) as [|t common]; [reflexivity|].
  assert (E : dot_product (t :: common) vec_b vec_a
              = dot_product (t :: common) vec_a vec_b).
  { unfold dot_product. f_equal. apply map_ext. intros k. apply fmul_comm. }
  destruct (magnitude_cases vec_a) as [[ma ->] | ->],
           (magnitude_cases vec_b) as [[mb ->] | ->]; cbn [bind];
    try reflexivity.
  now rewrite E, (orb_comm (feqb mb (of_int 0))), (fmul_comm mb).
Qed.

Lemma _cosine_similarity_disjoint (vec_a vec_b : dict F) :
  set_and (keys vec_a) (keys vec_b) = [] ->
  _cosine_similarity vec_a vec_b = Ok (of_int 0).
Proof. intros H. rewrite _cosine_similarity_unfold. cbv zeta. now rewrite H. Qed.

Lemma _cosine_similarity_zero_magnitude (vec_a vec_b : dict F) (mag_a mag_b : F) :
  magnitude vec_a = Ok mag_a ->
  magnitude vec_b = Ok mag_b ->
  feqb mag_a (of_int 0) = true \/ feqb mag_b (of_int 0) = true ->
  _cosine_similarity vec_a vec_b = Ok (of_int 0).
Proof.
  intros Ha Hb H. rewrite _cosine_similarity_unfold. cbv zeta.
  destruct (set_and (keys vec_a) (keys vec_b)); [reflexivity|].
  rewrite Ha, Hb. cbn [bind].
  destruct H as [-> | ->]; [reflexivity | now rewrite orb_true_r].
Qed.

(** The similarity returns, or fails in a square that overflows or in its
    one division of two floats; a key is never missing. *)
Lemma _cosine_similarity_cases (vec_a vec_b : dict F) :
  (exists s, _cosine_similarity vec_a vec_b = Ok s)
  \/ _cosine_similarity vec_a vec_b = Raise ZeroDivisionError
  \/ _cosine_similarity vec_a vec_b = Raise OverflowError.
Proof.
  rewrite _cosine_similarity_unfold. cbv zeta.
  destruct (set_and (keys vec_a) (keys vec_b)); [left; eauto|].
  destruct (magnitude_cases vec_a) as [[ma ->] | ->]; cbn [bind]; [|auto].
  destruct (magnitude_cases vec_b) as [[mb ->] | ->]; cbn [bind]; [|auto].
  destruct (feqb ma (of_int 0) || feqb mb (of_int 0)); [left; eauto|].
  unfold float_truediv.
  destruct (feqb (fmul ma mb) (of_int 0)); [right; left; reflexivity | left; eauto].
Qed.

Lemma _cosine_similarity_total (vec_a vec_b : dict F) :
  no_zero_divisors A -> never_overflows A ->
  exists s, _cosine_similarity vec_a vec_b = Ok s.
Proof.
  intros Hnz Hno. rewrite _cosine_similarity_unfold. cbv zeta.
  destruct (set_and (keys vec_a) (keys vec_b)); [eauto|].
  destruct (magnitude_total vec_a Hno) as [ma ->].
  destruct (magnitude_total vec_b Hno) as [mb ->]. cbn [bind].
  destruct (feqb ma (of_int 0)) eqn:Ha; [eexists; reflexivity|].
  destruct (feqb mb (of_int 0)) eqn:Hb; [eexists; reflexivity|].
  cbn [orb]. unfold float_truediv. rewrite (Hnz _ _ Ha Hb). eauto.
Qed.

Lemma calculate_match_score_cases (resume_profile : ResumeProfile)
      (job_text : string) (alpha beta : F) :
  (exists s, calculate_match_score resume_profile job_text alpha beta = Ok s)
  \/ calculate_match_score resume_profile job_text alpha beta
     = Raise ZeroDivisionError
  \/ calculate_match_score resume_profile job_text alpha beta
     = Raise OverflowError.
Proof.
  unfold calculate_match_score.
  destruct (Str.is_empty (raw_text resume_profile) || Str.is_empty job_text);
    [left; eauto|].
  rewrite tfidf_similarity_unfold. cbv zeta.
  match goal with
  | |- context [_cosine_similarity ?a ?b] =>
      destruct (_cosine_similarity_cases a b) as [[sim ->] | [-> | ->]]
  end; cbn [bind]; auto.
  rewrite overlap_ratio_ok. cbn [bind]. left; eauto.
Qed.

Lemma calculate_match_score_total (resume_profile : ResumeProfile)
      (job_text : string) (alpha beta : F) :
  no_zero_divisors A -> never_overflows A ->
  exists s, calculate_match_score resume_profile job_text alpha beta = Ok s.
Proof.
  intros Hnz Hno. unfold calculate_match_score.
  destruct (Str.is_empty (raw_text resume_profile) || Str.is_empty job_text);
    [eauto|].
  rewrite tfidf_similarity_unfold. cbv zeta.
  match goal with
  | |- context [_cosine_similarity ?a ?b] =>
      destruct (_cosine_similarity_total a b Hnz Hno) as [sim ->]
  end.
  cbn [bind]. rewrite overlap_ratio_ok. cbn [bind]. eauto.
Qed.

End ScoreFacts.

(** ** Cosine similarity in exact arithmetic *)

Module CosineExact.

Local Open Scope R_scope.
#[local] Existing Instance Exact.arith.

Lemma no_zero_divisors : no_zero_divisors Exact.arith.
Proof.
  intros x y Hx Hy. cbn in *.
  apply ExactFacts.eqb_false_iff in Hx, Hy. apply ExactFacts.eqb_false_iff.
  now apply Rmult_integral_contrapositive.
Qed.

(** [sum] in the real numbers does not depend on the order. *)
Lemma fold_left_Rplus (l : list R) (a : R) :
  fold_left Rplus l a = a + total l.
Proof.
  revert a; induction l as [|x l IH]; intros a; cbn [fold_left total fold_right].
  - lra.
  - rewrite IH. unfold total. lra.
Qed.

Lemma py_sum_total (l : list R) : @py_sum R Exact.arith l = total l.
Proof. unfold py_sum. cbn. rewrite fold_left_Rplus. lra. Qed.

Lemma total_perm (l l' : list R) : Permutation l l' -> total l = total l'.
Proof.
  unfold total. induction 1; cbn [fold_right]; try lra.
Qed.

Lemma total_app (l l' : list R) : total (l ++ l') = total l + total l'.
Proof. unfold total. induction l; cbn [app fold_right]; lra. Qed.

Lemma total_nonneg (l : list R) : Forall (fun x => 0 <= x) l -> 0 <= total l.
Proof. unfold total. induction 1; cbn [fold_right]; lra. Qed.

Lemma squares_nonneg (l : list R) : 0 <= total (List.map (fun v => v * v) l).
Proof.
  apply total_nonneg, Forall_forall. intros x Hx.
  apply in_map_iff in Hx as [v [<- _]]. nra.
Qed.

Lemma never_overflows : never_overflows Exact.arith.
Proof. intros x. now exists (x * x). Qed.

Lemma magnitude_sqrt (vec : dict R) :
  @magnitude R Exact.arith vec = Ok (sqrt (squares vec)).
Proof.
  unfold magnitude, squares.
  rewrite (mapM_ok fsquare (fun v => v * v)) by reflexivity.
  cbn [bind]. now rewrite py_sum_total.
Qed.

Lemma dot_product_total (common : list string) (a b : dict R) :
  @dot_product R Exact.arith common a b
  = total (List.map (fun t => weight t a * weight t b) common).
Proof. unfold dot_product. now rewrite py_sum_total. Qed.

(** A sum over some of the elements of a list, each once, of values that
    are not negative. *)
Lemma total_incl {X : Type} (f : X -> R) (c l : list X) :
  (forall x, 0 <= f x) -> NoDup c -> incl c l ->
  total (List.map f c) <= total (List.map f l).
Proof.
  intros Hf. revert l. induction c as [|t c IH]; intros l Hnd Hin.
  - cbn. apply total_nonneg, Forall_forall. intros x Hx.
    apply in_map_iff in Hx as [y [<- _]]. apply Hf.
  - inversion Hnd as [|? ? Hnt Hnd']; subst.
    destruct (in_split t l (Hin t (or_introl eq_refl))) as [l1 [l2 ->]].
    rewrite map_app, total_app. cbn [List.map]. unfold total at 1 3.
    cbn [fold_right]. fold (total (List.map f c)). fold (total (List.map f l2)).
    assert (H : total (List.map f c) <= total (List.map f (l1 ++ l2))).
    { apply IH; [assumption|]. intros x Hx.
      assert (Hx' : In x (l1 ++ t :: l2)) by (apply Hin; now right).
      apply in_app_iff in Hx'. apply in_app_iff.
      destruct Hx' as [Hx'|[->|Hx']]; auto. contradiction. }
    rewrite map_app, total_app in H. lra.
Qed.

(** The inequality of Cauchy and Schwarz. *)
Lemma quadratic_nonneg {X : Type} (f g : X -> R) (l : list X) (p q : R) :
  0 <= p * p * total (List.map (fun x => g x * g x) l)
       - 2 * p * q * total (List.map (fun x => f x * g x) l)
       + q * q * total (List.map (fun x => f x * f x) l).
Proof.
  unfold total. induction l as [|x l IH]; cbn [List.map fold_right]; [lra|].
  set (Y := fold_right Rplus 0 (List.map (fun x => g x * g x) l)) in *.
  set (D := fold_right Rplus 0 (List.map (fun x => f x * g x) l)) in *.
  set (X' := fold_right Rplus 0 (List.map (fun x => f x * f x) l)) in *.
  replace (p * p * (g x * g x + Y) - 2 * p * q * (f x * g x + D)
           + q * q * (f x * f x + X'))
    with ((p * p * Y - 2 * p * q * D + q * q * X')
          + (p * g x - q * f x) * (p * g x - q * f x)) by ring.
  apply Rplus_le_le_0_compat; [exact IH | exact (Rle_0_sqr _)].
Qed.

Lemma cauchy_schwarz {X : Type} (f g : X -> R) (l : list X) :
  total (List.map (fun x => f x * g x) l) * total (List.map (fun x => f x * g x) l)
  <= total (List.map (fun x => f x * f x) l)
     * total (List.map (fun x => g x * g x) l).
Proof.
  pose proof (quadratic_nonneg f g l) as Hq.
  set (sd := total (List.map (fun x => f x * g x) l)) in *.
  set (sx := total (List.map (fun x => f x * f x) l)) in *.
  set (sy := total (List.map (fun x => g x * g x) l)) in *.
  assert (Hx : 0 <= sx).
  { apply total_nonneg, Forall_forall. intros x Hin.
    apply in_map_iff in Hin as [y [<- _]]. exact (Rle_0_sqr _). }
  assert (Hy : 0 <= sy).
  { apply total_nonneg, Forall_forall. intros x Hin.
    apply in_map_iff in Hin as [y [<- _]]. exact (Rle_0_sqr _). }
  destruct (Req_dec sy 0) as [Hy0 | Hy0].
  - pose proof (Hq ((sx + 1) / 2) sd) as H2. rewrite Hy0 in *.
    assert (H3 : sd * sd <= 0) by lra. lra.
  - pose proof (Hq sd sy) as H1.
    assert (H2 : 0 <= sy * (sx * sy - sd * sd)) by nra.
    assert (0 < sy) by lra. nra.
Qed.

(** *** The similarity *)

Lemma _cosine_similarity_exact (a b : dict R) :
  _cosine_similarity a b =
  match set_and (keys a) (keys b) with
  | [] => Ok 0
  | common =>
      if Exact.eqb (sqrt (squares a)) 0 || Exact.eqb (sqrt (squares b)) 0
      then Ok 0
      else
        if Exact.eqb (sqrt (squares a) * sqrt (squares b)) 0
        then Raise ZeroDivisionError
        else Ok (total (List.map (fun t => weight t a * weight t b) common)
                 / (sqrt (squares a) * sqrt (squares b)))
  end.
Proof.
  rewrite _cosine_similarity_unfold. cbv zeta.
  rewrite !magnitude_sqrt, dot_product_total. cbn [bind].
  destruct (set_and (keys a) (keys b)); reflexivity.
Qed.

Lemma squares_nonneg_vec (a : dict R) : 0 <= squares a.
Proof. apply squares_nonneg. Qed.

Lemma set_and_nodup (a b : list string) : NoDup (set_and a b).
Proof. unfold set_and. apply NoDup_filter, set_of_nodup. Qed.

Lemma set_and_perm (a b : list string) :
  Permutation (set_and a b) (set_and b a).
Proof.
  apply NoDup_Permutation; try apply set_and_nodup.
  intros x. rewrite !set_and_in. tauto.
Qed.

(** In exact arithmetic the similarity is symmetric. *)
Lemma symmetric (a b : dict R) :
  _cosine_similarity a b = _cosine_similarity b a.
Proof.
  rewrite !_cosine_similarity_exact.
  pose proof (set_and_perm (keys a) (keys b)) as Hp.
  destruct (set_and (keys a) (keys b)) as [|t l] eqn:Ea;
    destruct (set_and (keys b) (keys a)) as [|t' l'] eqn:Eb.
  - reflexivity.
  - now apply Permutation_nil_cons in Hp.
  - symmetry in Hp. now apply Permutation_nil_cons in Hp.
  - assert (Hd : total (List.map (fun t => weight t a * weight t b) (t :: l))
                 = total (List.map (fun t => weight t b * weight t a) (t' :: l'))).
    { rewrite (total_perm _ _ (Permutation_map _ Hp)).
      f_equal. apply map_ext. intros k. apply Rmult_comm. }
    rewrite Hd, (orb_comm (Exact.eqb (sqrt (squares b)) 0)),
      (Rmult_comm (sqrt (squares b))).
    reflexivity.
Qed.

(** The weights of a vector, read key by key. *)
Lemma weights_of_keys (v : dict R) :
  well_formed v -> List.map (fun t => weight t v) (keys v) = values v.
Proof.
  unfold well_formed, weight, get, keys, values.
  induction v as [|[k x] v IH]; cbn [List.map fst snd lookup];
    intros Hnd; [reflexivity|].
  inversion Hnd as [|? ? Hnin Hnd']; subst.
  rewrite String.eqb_refl. f_equal.
  rewrite <- IH by assumption. apply map_ext_in. intros t Ht.
  destruct (String.eqb_spec k t) as [->|Hne]; [contradiction | reflexivity].
Qed.

Lemma set_and_self (l : list string) : NoDup l -> set_and l l = l.
Proof.
  intros Hnd. unfold set_and, set_of. rewrite (nodup_fixed_point _ Hnd).
  apply forallb_filter_id. apply forallb_forall. intros x Hx. now apply mem_in.
Qed.

Lemma self_dot (v : dict R) :
  well_formed v ->
  total (List.map (fun t => weight t v * weight t v) (keys v)) = squares v.
Proof.
  intros Hwf. unfold squares. rewrite <- (weights_of_keys v Hwf).
  now rewrite map_map.
Qed.

(** In exact arithmetic the similarity of a vector to itself is 1, when
    its magnitude is not zero. *)
Lemma self_similarity (v : dict R) :
  well_formed v -> sqrt (squares v) <> 0 -> _cosine_similarity v v = Ok 1.
Proof.
  intros Hwf Hm. rewrite _cosine_similarity_exact, (set_and_self _ Hwf).
  pose proof (squares_nonneg_vec v) as Hs.
  assert (Hsq : sqrt (squares v) * sqrt (squares v) = squares v)
    by now apply sqrt_sqrt.
  assert (Hne : squares v <> 0) by (intros E; rewrite E, sqrt_0 in Hm; lra).
  destruct (keys v) as [|k ks] eqn:Ek.
  { destruct v; [|discriminate]. elim Hne. reflexivity. }
  rewrite (proj2 (ExactFacts.eqb_false_iff _ _) Hm). cbn [orb].
  rewrite Hsq, (proj2 (ExactFacts.eqb_false_iff _ _) Hne).
  rewrite <- Ek, (self_dot v Hwf). f_equal. now field.
Qed.

Lemma weight_nonneg (t : string) (v : dict R) :
  non_negative v -> 0 <= weight t v.
Proof.
  unfold non_negative, weight, get. intros H.
  induction v as [|[k x] v IH]; cbn [lookup]; [cbn; lra|].
  inversion H as [|? ? Hx Hv]; subst. cbn [snd] in Hx.
  destruct (String.eqb k t); [now apply ExactFacts.leb_iff in Hx | now apply IH].
Qed.

Lemma common_squares (a b : dict R) :
  well_formed a ->
  total (List.map (fun t => weight t a * weight t a) (set_and (keys a) (keys b)))
  <= squares a.
Proof.
  intros Hwf. rewrite <- (self_dot a Hwf).
  apply (total_incl (fun t => weight t a * weight t a)).
  - intros x. exact (Rle_0_sqr _).
  - apply set_and_nodup.
  - intros x Hx. now apply set_and_in in Hx.
Qed.

(** In exact arithmetic the similarity of two vectors of weights that are
    not negative is returned, and lies between 0 and 1. *)
Lemma bounded (a b : dict R) :
  well_formed a -> well_formed b -> non_negative a -> non_negative b ->
  exists s, _cosine_similarity a b = Ok s /\ 0 <= s <= 1.
Proof.
  intros Ha Hb Na Nb. rewrite _cosine_similarity_exact.
  destruct (set_and (keys a) (keys b)) as [|t l] eqn:Ec.
  { exists 0. split; [reflexivity | lra]. }
  destruct (Exact.eqb (sqrt (squares a)) 0) eqn:Ea.
  { exists 0. split; [reflexivity | lra]. }
  destruct (Exact.eqb (sqrt (squares b)) 0) eqn:Eb.
  { exists 0. split; [reflexivity | lra]. }
  cbn [orb]. apply ExactFacts.eqb_false_iff in Ea, Eb.
  pose proof (sqrt_pos (squares a)) as Pa.
  pose proof (sqrt_pos (squares b)) as Pb.
  assert (Hm : 0 < sqrt (squares a) * sqrt (squares b))
    by (apply Rmult_lt_0_compat; lra).
  assert (Hne : sqrt (squares a) * sqrt (squares b) <> 0) by lra.
  rewrite (proj2 (ExactFacts.eqb_false_iff _ _) Hne).
  eexists. split; [reflexivity|]. rewrite <- Ec.
  set (d := total (List.map (fun t => weight t a * weight t b)
                            (set_and (keys a) (keys b)))).
  assert (Hd0 : 0 <= d).
  { apply total_nonneg, Forall_forall. intros x Hx.
    apply in_map_iff in Hx as [k [<- _]].
    apply Rmult_le_pos; now apply weight_nonneg. }
  assert (Hcs : d * d <= squares a * squares b).
  { pose proof (cauchy_schwarz (fun t => weight t a) (fun t => weight t b)
                  (set_and (keys a) (keys b))) as H. fold d in H.
    pose proof (common_squares a b Ha) as H1.
    assert (H2 : total (List.map (fun t => weight t b * weight t b)
                                 (set_and (keys a) (keys b)))
                 <= squares b).
    { rewrite (total_perm _ _ (Permutation_map _ (set_and_perm (keys a) (keys b)))).
      now apply common_squares. }
    assert (0 <= total (List.map (fun t => weight t a * weight t a)
                                 (set_and (keys a) (keys b)))).
    { apply total_nonneg, Forall_forall. intros x Hx.
      apply in_map_iff in Hx as [k [<- _]]. exact (Rle_0_sqr _). }
    assert (0 <= total (List.map (fun t => weight t b * weight t b)
                                 (set_and (keys a) (keys b)))).
    { apply total_nonneg, Forall_forall. intros x Hx.
      apply in_map_iff in Hx as [k [<- _]]. exact (Rle_0_sqr _). }
    eapply Rle_trans; [exact H|]. now apply Rmult_le_compat. }
  assert (Hle : d <= sqrt (squares a) * sqrt (squares b)).
  { rewrite <- sqrt_mult by apply squares_nonneg_vec.
    rewrite <- (sqrt_square d Hd0). now apply sqrt_le_1_alt. }
  split.
  - apply Rmult_le_pos; [assumption|]. left. now apply Rinv_0_lt_compat.
  - apply Rmult_le_reg_r with (sqrt (squares a) * sqrt (squares b));
      [assumption|].
    unfold Rdiv. rewrite Rmult_assoc, Rinv_l by lra. lra.
Qed.

End CosineExact.

(** ** Rounding to binary64, on the mantissa and the exponent *)

Module RoundFacts.

Local Open Scope Z_scope.

(** The number of binary digits of a mantissa. *)
Lemma digits2_pos_bounds (m : positive) :
  2 ^ (Zpos (digits2_pos m) - 1) <= Zpos m < 2 ^ Zpos (digits2_pos m).
Proof.
  induction m as [p IH | p IH |]; cbn [digits2_pos].
  - rewrite Pos2Z.inj_succ, (Pos2Z.inj_xI p).
    replace (Z.succ (Zpos (digits2_pos p)) - 1)
      with (Z.succ (Zpos (digits2_pos p) - 1)) by lia.
    rewrite !Z.pow_succ_r by lia. lia.
  - rewrite Pos2Z.inj_succ, (Pos2Z.inj_xO p).
    replace (Z.succ (Zpos (digits2_pos p)) - 1)
      with (Z.succ (Zpos (digits2_pos p) - 1)) by lia.
    rewrite !Z.pow_succ_r by lia. lia.
  - cbn. lia.
Qed.

Lemma Zdigits2_nonneg (m : Z) : 0 <= Zdigits2 m.
Proof. destruct m; cbn; lia. Qed.

Lemma Zdigits2_bounds (m : Z) :
  0 < m -> 2 ^ (Zdigits2 m - 1) <= m < 2 ^ Zdigits2 m.
Proof. destruct m as [|p|p]; try lia. intros _. apply digits2_pos_bounds. Qed.

Lemma Zdigits2_pos (m : Z) : 0 < m -> 0 < Zdigits2 m.
Proof. destruct m; cbn; lia. Qed.

(** [m < 2 ^ k] bounds the digits of [m] by [k], and [2 ^ k <= m] makes
    them more than [k]. *)
Lemma Zdigits2_le (m k : Z) : 0 <= m -> 0 <= k -> m < 2 ^ k -> Zdigits2 m <= k.
Proof.
  intros Hm Hk H. destruct (Z.eq_dec m 0) as [->|Hz]; [cbn; lia|].
  destruct (Zdigits2_bounds m ltac:(lia)) as [Hl _].
  destruct (Z.le_gt_cases (Zdigits2 m) k) as [|Hgt]; [assumption|].
  assert (2 ^ k <= 2 ^ (Zdigits2 m - 1)) by (apply Z.pow_le_mono_r; lia).
  lia.
Qed.

Lemma Zdigits2_gt (m k : Z) : 0 <= k -> 2 ^ k <= m -> k < Zdigits2 m.
Proof.
  intros Hk H.
  assert (Hm : 0 < m) by (pose proof (Z.pow_pos_nonneg 2 k); lia).
  destruct (Zdigits2_bounds m Hm) as [_ Hu].
  destruct (Z.lt_ge_cases k (Zdigits2 m)) as [|Hge]; [assumption|].
  assert (2 ^ Zdigits2 m <= 2 ^ k)
    by (apply Z.pow_le_mono_r; pose proof (Zdigits2_nonneg m); lia).
  lia.
Qed.

Lemma Zdigits2_mono (a b : Z) : 0 <= a <= b -> Zdigits2 a <= Zdigits2 b.
Proof.
  intros [Ha Hab]. destruct (Z.eq_dec b 0) as [->|Hb].
  - replace a with 0 by lia. lia.
  - apply Zdigits2_le; [lia | apply Zdigits2_nonneg |].
    destruct (Zdigits2_bounds b ltac:(lia)). lia.
Qed.

Lemma Zdigits2_succ (m : Z) : 0 <= m -> Zdigits2 (m + 1) <= Zdigits2 m + 1.
Proof.
  intros Hm. destruct (Z.eq_dec m 0) as [->|Hz]; [cbn; lia|].
  destruct (Zdigits2_bounds m ltac:(lia)) as [_ Hu].
  pose proof (Zdigits2_nonneg m).
  apply Zdigits2_le; [lia | lia |].
  rewrite Z.pow_add_r by lia. change (2 ^ 1) with 2. lia.
Qed.

Lemma Zdigits2_mul (a b : Z) :
  0 < a -> 0 < b ->
  Zdigits2 a + Zdigits2 b - 1 <= Zdigits2 (a * b) <= Zdigits2 a + Zdigits2 b.
Proof.
  intros Ha Hb.
  destruct (Zdigits2_bounds a Ha) as [Hal Hau].
  destruct (Zdigits2_bounds b Hb) as [Hbl Hbu].
  pose proof (Zdigits2_pos a Ha). pose proof (Zdigits2_pos b Hb).
  split.
  - assert (Zdigits2 a - 1 + (Zdigits2 b - 1) < Zdigits2 (a * b)); [|lia].
    apply Zdigits2_gt; [lia|]. rewrite Z.pow_add_r by lia.
    apply Z.mul_le_mono_nonneg; try lia; apply Z.pow_nonneg; lia.
  - apply Zdigits2_le; [nia | lia |]. rewrite Z.pow_add_r by lia.
    apply Z.mul_lt_mono_nonneg; lia.
Qed.

(** The digits of a quotient by a power of two that is not zero. *)
Lemma Zdigits2_shift (m n : Z) :
  0 <= n -> 0 < m / 2 ^ n -> Zdigits2 (m / 2 ^ n) + n = Zdigits2 m.
Proof.
  intros Hn Hq.
  assert (Hp : 0 < 2 ^ n) by (apply Z.pow_pos_nonneg; lia).
  assert (Hm : 0 < m).
  { destruct (Z.lt_ge_cases 0 m) as [|Hle]; [assumption|].
    assert (m / 2 ^ n <= 0) by (apply Z.div_le_upper_bound; lia). lia. }
  pose proof (Z.mul_div_le m (2 ^ n) Hp) as Hle.
  pose proof (Z.mul_succ_div_gt m (2 ^ n) Hp) as Hgt.
  destruct (Zdigits2_bounds _ Hq) as [Hql Hqu].
  destruct (Zdigits2_bounds _ Hm) as [Hml Hmu].
  pose proof (Zdigits2_pos _ Hq). pose proof (Zdigits2_pos _ Hm).
  apply Z.le_antisymm.
  - assert (Zdigits2 (m / 2 ^ n) - 1 + n < Zdigits2 m); [|lia].
    apply Zdigits2_gt; [lia|]. rewrite Z.pow_add_r by lia. nia.
  - apply Zdigits2_le; [lia | lia |]. rewrite Z.pow_add_r by lia. nia.
Qed.

(** A quotient by a power of two below the number of digits is not zero. *)
Lemma shift_positive (m n : Z) :
  0 < m -> 0 <= n < Zdigits2 m -> 0 < m / 2 ^ n.
Proof.
  intros Hm [Hn Hlt].
  destruct (Zdigits2_bounds m Hm) as [Hl _].
  assert (2 ^ n <= 2 ^ (Zdigits2 m - 1)) by (apply Z.pow_le_mono_r; lia).
  apply Z.div_str_pos. split; [apply Z.pow_pos_nonneg; lia | lia].
Qed.

(** ** Shifting a mantissa to the right *)

Lemma shr_1_m (mrs : shr_record) :
  0 <= shr_m mrs -> shr_m (shr_1 mrs) = shr_m mrs / 2.
Proof.
  destruct mrs as [m r s]. cbn [shr_m]. intros Hm.
  destruct m as [|[p|p|]|p]; cbn [shr_1 shr_m]; try lia; try reflexivity.
  - rewrite (Pos2Z.inj_xI p). apply (Z.div_unique _ 2 _ 1); lia.
  - rewrite (Pos2Z.inj_xO p). apply (Z.div_unique _ 2 _ 0); lia.
Qed.

Lemma iter_shr_m (p : positive) :
  forall mrs : shr_record,
    0 <= shr_m mrs ->
    shr_m (SpecFloat.iter_pos shr_1 p mrs) = shr_m mrs / 2 ^ Zpos p.
Proof.
  assert (Hdiv : forall a n k, 0 <= a -> 0 < n -> 0 < k ->
                               a / n / k = a / (n * k)).
  { intros a n k Ha Hn Hk. apply Z.div_div; lia. }
  assert (Hnn : forall a n, 0 <= a -> 0 < n -> 0 <= a / n).
  { intros a n Ha Hn. apply Z.div_pos; lia. }
  induction p as [p IH | p IH |]; intros mrs Hm; cbn [SpecFloat.iter_pos].
  - assert (H1 : 0 <= shr_m (shr_1 mrs))
      by (rewrite shr_1_m by assumption; apply Hnn; lia).
    assert (Hp : 0 < 2 ^ Zpos p) by (apply Z.pow_pos_nonneg; lia).
    rewrite IH by (rewrite IH by assumption; apply Hnn; assumption).
    rewrite IH by assumption. rewrite shr_1_m by assumption.
    rewrite !Hdiv; try lia; [|apply Hnn; lia].
    f_equal. rewrite (Pos2Z.inj_xI p).
    replace (2 * Zpos p + 1) with (1 + Zpos p + Zpos p) by lia.
    rewrite !Z.pow_add_r by lia. change (2 ^ 1) with 2. lia.
  - assert (Hp : 0 < 2 ^ Zpos p) by (apply Z.pow_pos_nonneg; lia).
    rewrite IH by (rewrite IH by assumption; apply Hnn; assumption).
    rewrite IH by assumption.
    rewrite Hdiv; try lia.
    f_equal. rewrite (Pos2Z.inj_xO p).
    replace (2 * Zpos p) with (Zpos p + Zpos p) by lia.
    rewrite Z.pow_add_r by lia. lia.
  - rewrite shr_1_m by assumption. reflexivity.
Qed.

Lemma shr_spec (mrs : shr_record) (e n : Z) :
  0 <= shr_m mrs ->
  shr_m (fst (shr mrs e n)) = shr_m mrs / 2 ^ Z.max n 0
  /\ snd (shr mrs e n) = e + Z.max n 0.
Proof.
  intros Hm. destruct n as [|p|p]; cbn [shr fst snd].
  - cbn. rewrite Z.div_1_r. lia.
  - rewrite iter_shr_m by assumption. rewrite Z.max_l by lia. lia.
  - cbn. rewrite Z.div_1_r. lia.
Qed.

Lemma shr_record_of_loc_m (m : Z) (l : location) :
  shr_m (shr_record_of_loc m l) = m.
Proof. destruct l as [|[| |]]; reflexivity. Qed.

Section Format.

Variables prec emax : Z.
Hypothesis prec_pos : 0 < prec.

Abbreviation emin := (SpecFloat.emin prec emax).
Abbreviation fexp := (SpecFloat.fexp prec emax).

Abbreviation shift_of := (Rounding.shift_of prec emax).
Abbreviation m1 := (Rounding.shifted prec emax).
Abbreviation e1 := (Rounding.shifted_exponent prec emax).

Lemma shr_fexp_spec (m e : Z) (l : location) :
  0 <= m ->
  shr_m (fst (shr_fexp prec emax m e l)) = m / 2 ^ shift_of m e
  /\ snd (shr_fexp prec emax m e l) = e + shift_of m e.
Proof.
  intros Hm. unfold shr_fexp, Rounding.shift_of.
  pose proof (shr_spec (shr_record_of_loc m l) e
                (fexp (Zdigits2 m + e) - e)) as H.
  rewrite shr_record_of_loc_m in H. now apply H.
Qed.

Lemma shift_of_nonneg (m e : Z) : 0 <= shift_of m e.
Proof. unfold Rounding.shift_of. lia. Qed.

Lemma shift_of_exponent (m e : Z) : emin <= e + shift_of m e.
Proof. unfold Rounding.shift_of, SpecFloat.fexp. lia. Qed.

(** A mantissa whose magnitude is above [emin] keeps a digit. *)
Lemma shift_of_lt (m e : Z) :
  0 < m -> emin < Zdigits2 m + e -> shift_of m e < Zdigits2 m.
Proof.
  intros Hm H. pose proof (Zdigits2_pos m Hm).
  unfold Rounding.shift_of, SpecFloat.fexp. lia.
Qed.

Lemma round_nearest_even_bounds (m : Z) (l : location) :
  m <= round_nearest_even m l <= m + 1.
Proof.
  destruct l as [|[| |]]; cbn [round_nearest_even]; try lia.
  destruct (Z.even m); lia.
Qed.

(** [binary_round_aux] shifts, rounds the mantissa, and shifts again. *)
Lemma binary_round_aux_spec (sx : bool) (m e : Z) (l : location) :
  0 <= m ->
  exists m2 : Z,
    m1 m e <= m2 <= m1 m e + 1
    /\ binary_round_aux prec emax sx m e l
       = match m1 m2 (e1 m e) with
         | Z0 => S754_zero sx
         | Zpos m3 =>
             if (e1 m2 (e1 m e) <=? emax - prec)
             then S754_finite sx m3 (e1 m2 (e1 m e))
             else S754_infinity sx
         | Zneg _ => S754_nan
         end.
Proof.
  intros Hm. unfold binary_round_aux.
  destruct (shr_fexp_spec m e l Hm) as [Hm1 He1].
  destruct (shr_fexp prec emax m e l) as [mrs' e'] eqn:E1.
  cbn [fst snd] in Hm1, He1.
  set (m2 := round_nearest_even (shr_m mrs') (loc_of_shr_record mrs')).
  assert (Hm2 : m1 m e <= m2 <= m1 m e + 1).
  { unfold Rounding.shifted. rewrite <- Hm1. apply round_nearest_even_bounds. }
  assert (H0 : 0 <= m1 m e).
  { unfold Rounding.shifted. apply Z.div_pos; [lia|]. apply Z.pow_pos_nonneg; [lia|].
    apply shift_of_nonneg. }
  destruct (shr_fexp_spec m2 e' loc_Exact ltac:(lia)) as [Hm3 He3].
  destruct (shr_fexp prec emax m2 e' loc_Exact) as [mrs'' e''] eqn:E2.
  cbn [fst snd] in Hm3, He3.
  exists m2. split; [exact Hm2|].
  unfold Rounding.shifted at 1, Rounding.shifted_exponent.
  rewrite <- He1, <- He3, <- Hm3. reflexivity.
Qed.

(** The exponent of a rounded number is not below the exponent it was
    given with, nor below [emin]. *)
Lemma binary_round_aux_exponent (sx : bool) (m e : Z) (l : location)
      (s3 : bool) (m3 : positive) (e3 : Z) :
  0 <= m ->
  binary_round_aux prec emax sx m e l = S754_finite s3 m3 e3 ->
  e <= e3 /\ emin <= e3.
Proof.
  intros Hm H. destruct (binary_round_aux_spec sx m e l Hm) as [m2 [Hm2 E]].
  rewrite E in H. clear E.
  destruct (m1 m2 (e1 m e)); try discriminate.
  destruct (e1 m2 (e1 m e) <=? emax - prec); try discriminate.
  injection H as _ _ <-. unfold Rounding.shifted_exponent.
  pose proof (shift_of_nonneg m e). pose proof (shift_of_nonneg m2 (e + shift_of m e)).
  pose proof (shift_of_exponent m e). lia.
Qed.

(** A number whose magnitude is above [emin] does not round to zero, and
    rounding does not lower its magnitude. *)
Lemma binary_round_aux_nonzero (sx : bool) (m e : Z) (l : location) :
  0 < m -> emin < Zdigits2 m + e ->
  (exists m3 e3, binary_round_aux prec emax sx m e l = S754_finite sx m3 e3
                 /\ Zdigits2 m + e <= Zpos (digits2_pos m3) + e3)
  \/ binary_round_aux prec emax sx m e l = S754_infinity sx.
Proof.
  intros Hm Hmu.
  destruct (binary_round_aux_spec sx m e l ltac:(lia)) as [m2 [Hm2 E]].
  rewrite E. clear E.
  pose proof (shift_of_lt m e Hm Hmu) as Hs1.
  pose proof (shift_of_nonneg m e) as Hs0.
  assert (H1 : 0 < m1 m e) by (apply shift_positive; [assumption | lia]).
  pose proof (Zdigits2_shift m _ Hs0 H1) as Hd1. fold (m1 m e) in Hd1.
  assert (H2 : 0 < m2) by lia.
  assert (Hd2 : Zdigits2 (m1 m e) <= Zdigits2 m2) by (apply Zdigits2_mono; lia).
  pose proof (shift_of_exponent m e) as He1. fold (e1 m e) in He1.
  assert (Hs2 : shift_of m2 (e1 m e) < Zdigits2 m2).
  { pose proof (Zdigits2_pos m2 H2). unfold Rounding.shift_of, SpecFloat.fexp. lia. }
  pose proof (shift_of_nonneg m2 (e1 m e)) as Hs20.
  assert (H3 : 0 < m1 m2 (e1 m e)) by (apply shift_positive; [assumption | lia]).
  pose proof (Zdigits2_shift m2 _ Hs20 H3) as Hd3. fold (m1 m2 (e1 m e)) in Hd3.
  destruct (m1 m2 (e1 m e)) as [|m3|m3] eqn:E3; try lia.
  destruct (e1 m2 (e1 m e) <=? emax - prec); [left | now right].
  exists m3, (e1 m2 (e1 m e)). split; [reflexivity|].
  cbn [Zdigits2] in Hd3. unfold Rounding.shifted_exponent in *. lia.
Qed.

Lemma rounded_digits (m e m2 : Z) :
  0 <= m -> m1 m e <= m2 <= m1 m e + 1 ->
  0 <= m2
  /\ Zdigits2 m2 + e1 m e <= Z.max (Zdigits2 m + e) emin + 1
  /\ e1 m e <= Z.max (Zdigits2 m + e) emin.
Proof.
  intros Hm Hm2.
  pose proof (shift_of_nonneg m e) as Hs0.
  assert (H0 : 0 <= m1 m e).
  { unfold Rounding.shifted. apply Z.div_pos; [lia|]. apply Z.pow_pos_nonneg; lia. }
  pose proof (Zdigits2_nonneg m) as Hd.
  assert (Hd1 : Zdigits2 (m1 m e) + e1 m e <= Z.max (Zdigits2 m + e) emin).
  { destruct (Z.eq_dec (m1 m e) 0) as [Hz|Hz].
    - rewrite Hz. cbn [Zdigits2].
      unfold Rounding.shifted_exponent, Rounding.shift_of, SpecFloat.fexp. lia.
    - pose proof (Zdigits2_shift m _ Hs0 ltac:(fold (m1 m e); lia)) as Hd1.
      fold (m1 m e) in Hd1. unfold Rounding.shifted_exponent. lia. }
  assert (Hd2 : Zdigits2 m2 <= Zdigits2 (m1 m e) + 1).
  { transitivity (Zdigits2 (m1 m e + 1)).
    - apply Zdigits2_mono; lia.
    - apply Zdigits2_succ; lia. }
  split; [lia|]. split; [lia|].
  unfold Rounding.shifted_exponent, Rounding.shift_of, SpecFloat.fexp. lia.
Qed.

(** Rounding raises the order by one at most, and not above [emin + 1]
    when it was below [emin]. *)
Lemma binary_round_aux_order (sx : bool) (m e : Z) (l : location)
      (s3 : bool) (m3 : positive) (e3 : Z) :
  0 <= m ->
  binary_round_aux prec emax sx m e l = S754_finite s3 m3 e3 ->
  Zpos (digits2_pos m3) + e3 <= Z.max (Zdigits2 m + e) emin + 1.
Proof.
  intros Hm H. destruct (binary_round_aux_spec sx m e l Hm) as [m2 [Hm2 E]].
  rewrite E in H. clear E.
  destruct (rounded_digits m e m2 Hm Hm2) as [H2 [Hd2 _]].
  pose proof (shift_of_nonneg m2 (e1 m e)) as Hs20.
  destruct (m1 m2 (e1 m e)) as [|p|p] eqn:E3; try discriminate.
  destruct (e1 m2 (e1 m e) <=? emax - prec); try discriminate.
  injection H as _ <- <-.
  pose proof (Zdigits2_shift m2 _ Hs20 ltac:(fold (m1 m2 (e1 m e)); lia)) as Hd3.
  fold (m1 m2 (e1 m e)) in Hd3. rewrite E3 in Hd3. cbn [Zdigits2] in Hd3.
  unfold Rounding.shifted_exponent at 1. lia.
Qed.

(** A number of an order up to [emax - prec] does not round to an
    infinity. *)
Lemma binary_round_aux_finite (sx : bool) (m e : Z) (l : location) :
  0 <= m -> Z.max (Zdigits2 m + e) emin <= emax - prec ->
  ~ Rounding.is_infinite (binary_round_aux prec emax sx m e l).
Proof.
  intros Hm Hmu. destruct (binary_round_aux_spec sx m e l Hm) as [m2 [Hm2 E]].
  rewrite E. clear E.
  destruct (rounded_digits m e m2 Hm Hm2) as [H2 [Hd2 He1]].
  destruct (m1 m2 (e1 m e)) as [|p|p]; cbn; try tauto.
  destruct (Z.leb_spec (e1 m2 (e1 m e)) (emax - prec)) as [|Hgt]; cbn; [tauto|].
  exfalso. revert Hgt.
  unfold Rounding.shifted_exponent at 1, Rounding.shift_of, SpecFloat.fexp. lia.
Qed.

End Format.

End RoundFacts.

(** ** Binary64: the order of products, quotients and square roots *)

Module Binary64Order.

Import Rounding.
Local Open Scope Z_scope.

Lemma prec_pos : 0 < prec.
Proof. reflexivity. Qed.

Lemma emin_value : SpecFloat.emin prec emax = -1074.
Proof. reflexivity. Qed.

(** A binary64 number is canonical: its mantissa has 53 digits, or fewer
    at the least exponent. *)
Lemma canonical (s : bool) (m : positive) (e : Z) :
  valid_binary (S754_finite s m e) = true ->
  Z.max (Zpos (digits2_pos m) + e - 53) (-1074) = e /\ e <= 971.
Proof.
  unfold SpecFloat.valid_binary, SpecFloat.bounded, SpecFloat.canonical_mantissa,
    SpecFloat.fexp.
  rewrite emin_value. unfold prec, emax.
  intros H. apply andb_true_iff in H as [H1 H2].
  apply Z.eqb_eq in H1. apply Z.leb_le in H2. lia.
Qed.

Lemma mul_order_le (kx ky : Z) (x y : spec_float) :
  order_le kx x -> order_le ky y ->
  order_le (Z.max (kx + ky) (-1074) + 1) (SF64mul x y).
Proof.
  destruct x as [sx|sx| |sx mx ex], y as [sy|sy| |sy my ey];
    cbn [SF64mul SFmul order_le]; trivial.
  intros Hx Hy.
  destruct (binary_round_aux prec emax (xorb sx sy) (Zpos (mx * my)) (ex + ey)
              loc_Exact) as [| | |s3 m3 e3] eqn:E; cbn [order_le]; trivial.
  pose proof (RoundFacts.binary_round_aux_order prec emax prec_pos
                _ _ _ _ _ _ _ (Pos2Z.is_nonneg _) E) as H.
  rewrite emin_value in H.
  pose proof (RoundFacts.Zdigits2_mul (Zpos mx) (Zpos my)
                ltac:(lia) ltac:(lia)) as Hd.
  change (Zpos mx * Zpos my) with (Zpos (mx * my)) in Hd.
  cbn [Zdigits2] in Hd, H. lia.
Qed.

(** The product of two numbers that are not zero and not below
    [2 ^ -537] is not zero. *)
Lemma mul_nonzero (x y : spec_float) :
  ~ is_zero x -> ~ is_zero y ->
  order_ge (-536) x -> order_ge (-536) y ->
  ~ is_zero (SF64mul x y).
Proof.
  destruct x as [sx|sx| |sx mx ex], y as [sy|sy| |sy my ey];
    cbn [SF64mul SFmul order_ge is_zero]; try tauto.
  intros _ _ Hx Hy.
  pose proof (RoundFacts.Zdigits2_mul (Zpos mx) (Zpos my)
                ltac:(lia) ltac:(lia)) as Hd.
  change (Zpos mx * Zpos my) with (Zpos (mx * my)) in Hd.
  destruct (RoundFacts.binary_round_aux_nonzero prec emax prec_pos
              (xorb sx sy) (Zpos (mx * my)) (ex + ey) loc_Exact)
    as [[m3 [e3 [E _]]] | E]; try (rewrite E; cbn; tauto); try lia.
  rewrite emin_value. cbn [Zdigits2] in Hd |- *. lia.
Qed.

Lemma Zdigits2_shiftl (m s : Z) :
  0 < m -> 0 <= s -> Zdigits2 (m * 2 ^ s) <= Zdigits2 m + s.
Proof.
  intros Hm Hs.
  destruct (RoundFacts.Zdigits2_bounds m Hm) as [_ Hu].
  pose proof (RoundFacts.Zdigits2_pos m Hm).
  assert (0 < 2 ^ s) by (apply Z.pow_pos_nonneg; lia).
  apply RoundFacts.Zdigits2_le; [nia | lia |].
  rewrite Z.pow_add_r by lia. nia.
Qed.

Lemma shl_value (m s : Z) :
  0 <= s ->
  match s with
  | 0 => m
  | Zpos _ => Z.shiftl m s
  | Zneg _ => 0
  end = m * 2 ^ s.
Proof.
  intros Hs. destruct s as [|p|p]; try lia.
  apply Z.shiftl_mul_pow2. lia.
Qed.

(** The quotient that [SFdiv] rounds. *)
Lemma div_core_order (mx my : positive) (ex ey : Z) :
  let '(q, e', l) := SFdiv_core_binary prec emax (Zpos mx) ex (Zpos my) ey in
  0 <= q
  /\ Zdigits2 q + e'
     <= Z.max (Zpos (digits2_pos mx) + ex - (Zpos (digits2_pos my) + ey) + 1)
              (-1074).
Proof.
  unfold SFdiv_core_binary. cbn [Zdigits2].
  set (dx := Zpos (digits2_pos mx)). set (dy := Zpos (digits2_pos my)).
  set (e' := Z.min (SpecFloat.fexp prec emax (dx + ex - (dy + ey))) (ex - ey)).
  set (s := ex - ey - e').
  set (m' := match s with
             | 0 => Zpos mx
             | Zpos _ => Z.shiftl (Zpos mx) s
             | Zneg _ => 0
             end).
  assert (Hs : 0 <= s) by (unfold s, e'; lia).
  assert (Hm' : m' = Zpos mx * 2 ^ s) by (apply shl_value; exact Hs).
  pose proof (Z.div_eucl_eq m' (Zpos my) ltac:(lia)) as Hq.
  pose proof (Z.mod_pos_bound m' (Zpos my) ltac:(lia)) as Hr.
  unfold Z.modulo in Hr.
  destruct (Z.div_eucl m' (Zpos my)) as [q r]. 
  assert (H2s : 0 < 2 ^ s) by (apply Z.pow_pos_nonneg; lia).
  assert (Hq0 : 0 <= q) by nia.
  split; [exact Hq0|].
  destruct (Z.eq_dec q 0) as [->|Hqz].
  - cbn [Zdigits2]. unfold e', SpecFloat.fexp. rewrite emin_value.
    unfold prec. lia.
  - pose proof (RoundFacts.Zdigits2_bounds q ltac:(lia)) as [Hql _].
    pose proof (RoundFacts.digits2_pos_bounds my) as [Hyl _].
    fold dy in Hyl.
    pose proof (Zdigits2_shiftl (Zpos mx) s ltac:(lia) Hs) as Hdm.
    change (Zdigits2 (Zpos mx)) with dx in Hdm. rewrite <- Hm' in Hdm.
    pose proof (RoundFacts.Zdigits2_pos q ltac:(lia)) as Hdq.
    assert (Hdy : 0 < dy) by (unfold dy; lia).
    assert (Hlt : Zdigits2 q - 1 + (dy - 1) < Zdigits2 m').
    { apply RoundFacts.Zdigits2_gt; [lia|]. rewrite Z.pow_add_r by lia.
      transitivity (q * Zpos my); [|lia].
      apply Z.mul_le_mono_nonneg; try lia; apply Z.pow_nonneg; lia. }
    unfold s in Hdm. lia.
Qed.

Lemma div_order_le (kx ly : Z) (x y : spec_float) :
  order_le kx x -> order_ge ly y ->
  order_le (Z.max (kx - ly + 1) (-1074) + 1) (SF64div x y).
Proof.
  destruct x as [sx|sx| |sx mx ex], y as [sy|sy| |sy my ey];
    cbn [SF64div SFdiv order_le order_ge]; trivial.
  intros Hx Hy.
  pose proof (div_core_order mx my ex ey) as H.
  destruct (SFdiv_core_binary prec emax (Zpos mx) ex (Zpos my) ey)
    as [[q e'] l].
  destruct H as [Hq Hd].
  destruct (binary_round_aux prec emax (xorb sx sy) q e' l)
    as [| | |s3 m3 e3] eqn:E; cbn [order_le]; trivial.
  pose proof (RoundFacts.binary_round_aux_order prec emax prec_pos
                _ _ _ _ _ _ _ Hq E) as H.
  rewrite emin_value in H. lia.
Qed.

(** A square root that is finite and not zero is [2 ^ -537] at least. *)
Lemma sqrt_order_ge (x : spec_float) :
  valid_binary x = true -> valid_binary (SF64sqrt x) = true ->
  order_ge (-536) (SF64sqrt x).
Proof.
  destruct x as [sx|sx| |sx mx ex]; try (destruct sx); cbn; trivial.
  intros Hx. apply (canonical false) in Hx as [Hx _].
  unfold SF64sqrt, SFsqrt, SFsqrt_core_binary. cbn [Zdigits2].
  set (dx := Zpos (digits2_pos mx)) in *.
  set (e' := Z.min (SpecFloat.fexp prec emax (Z.div2 (dx + ex + 1)))
                   (Z.div2 ex)).
  set (s := ex - 2 * e').
  set (m' := match s with
             | 0 => Zpos mx
             | Zpos _ => Z.shiftl (Zpos mx) s
             | Zneg _ => 0
             end).
  pose proof (Z.sqrtrem_spec m') as Hsq.
  assert (Hm' : 0 <= m').
  { unfold m'. destruct s; try lia. apply Z.shiftl_nonneg. lia. }
  specialize (Hsq Hm').
  destruct (Z.sqrtrem m') as [q r].
  assert (Hq : 0 <= q).
  { destruct (Z.lt_ge_cases q 0) as [Hneg|]; [|assumption]. nia. }
  assert (He' : -589 <= e').
  { unfold e', SpecFloat.fexp. rewrite emin_value. unfold prec.
    assert (0 < dx) by (unfold dx; lia).
    rewrite !Z.div2_div.
    assert (-536 <= (dx + ex + 1) / 2) by (apply Z.div_le_lower_bound; lia).
    assert (-537 <= ex / 2) by (apply Z.div_le_lower_bound; lia).
    lia. }
  set (l := if r =? 0 then loc_Exact
            else loc_Inexact (if r <=? q then Lt else Gt)).
  destruct (binary_round_aux prec emax false q e' l)
    as [| | |s3 m3 e3] eqn:E; cbn [order_ge valid_binary]; trivial.
  intros Hv. apply (canonical false) in Hv as [Hv _].
  destruct (RoundFacts.binary_round_aux_exponent prec emax
              _ _ _ _ _ _ _ Hq E) as [He3 _].
  lia.
Qed.

(** ** On the primitive floats *)

Lemma eqb_zero (x : float) :
  PrimFloat.eqb x 0 = true <-> is_zero (Prim2SF x).
Proof.
  rewrite eqb_spec. change (Prim2SF 0) with (S754_zero false).
  unfold SFeqb.
  destruct (Prim2SF x) as [s|s| |s m e]; cbn; try destruct s;
    intuition discriminate.
Qed.

Lemma eqb_zero_false (x : float) :
  PrimFloat.eqb x 0 = false <-> ~ is_zero (Prim2SF x).
Proof.
  rewrite <- eqb_zero. destruct (PrimFloat.eqb x 0); intuition discriminate.
Qed.

(** The product of two square roots that are not zero is not zero: it
    does not underflow. *)
Lemma sqrt_product_nonzero (a b : float) :
  PrimFloat.eqb (PrimFloat.sqrt a) 0 = false ->
  PrimFloat.eqb (PrimFloat.sqrt b) 0 = false ->
  PrimFloat.eqb (PrimFloat.mul (PrimFloat.sqrt a) (PrimFloat.sqrt b)) 0 = false.
Proof.
  rewrite !eqb_zero_false, mul_spec. intros Ha Hb.
  apply mul_nonzero; try assumption.
  - rewrite sqrt_spec. apply sqrt_order_ge; [apply Prim2SF_valid|].
    rewrite <- sqrt_spec. apply Prim2SF_valid.
  - rewrite sqrt_spec. apply sqrt_order_ge; [apply Prim2SF_valid|].
    rewrite <- sqrt_spec. apply Prim2SF_valid.
Qed.

End Binary64Order.

(** ** Binary64: conversions and comparisons *)

Module Binary64Bounds.

Import Rounding.
Local Open Scope Z_scope.

Lemma order_le_weaken (k k' : Z) (f : spec_float) :
  k <= k' -> order_le k f -> order_le k' f.
Proof. destruct f; cbn; trivial. lia. Qed.

Lemma digits2_pos_iter (m d : positive) :
  digits2_pos (Pos.iter xO m d) = (digits2_pos m + d)%positive.
Proof.
  induction d as [|d IH] using Pos.peano_ind.
  - cbn. now rewrite Pos.add_1_r.
  - rewrite Pos.iter_succ. cbn [digits2_pos]. rewrite IH.
    now rewrite Pos.add_succ_r.
Qed.

Lemma shl_align_order (mx : positive) (ex ex' : Z) :
  Zpos (digits2_pos (fst (shl_align mx ex ex'))) + snd (shl_align mx ex ex')
  = Zpos (digits2_pos mx) + ex.
Proof.
  unfold shl_align. destruct (ex' - ex) as [|d|d] eqn:E; cbn [fst snd];
    try reflexivity.
  rewrite digits2_pos_iter. lia.
Qed.

(** The float of an int below [2 ^ 63]: zero, or of an order from 1
    to 64. *)
Lemma binary_normalize_order (z : Z) :
  0 <= z < 2 ^ 63 ->
  order_le 64 (binary_normalize prec emax z 0 false)
  /\ order_ge 1 (binary_normalize prec emax z 0 false).
Proof.
  intros Hz. destruct z as [|p|p]; cbn [binary_normalize order_le order_ge];
    try tauto; try lia.
  unfold binary_round.
  pose proof (shl_align_order p 0
                (SpecFloat.fexp prec emax (Zpos (digits2_pos p) + 0))) as Ho.
  destruct (shl_align p 0 (SpecFloat.fexp prec emax (Zpos (digits2_pos p) + 0)))
    as [mz ez]. cbn [fst snd] in Ho.
  assert (Hd : 0 < Zpos (digits2_pos p) <= 63).
  { split; [lia|].
    apply (RoundFacts.Zdigits2_le (Zpos p) 63); lia. }
  destruct (RoundFacts.binary_round_aux_nonzero prec emax Binary64Order.prec_pos
              false (Zpos mz) ez loc_Exact ltac:(lia))
    as [[m3 [e3 [E Hge]]] | E].
  - rewrite Binary64Order.emin_value. cbn [Zdigits2]. lia.
  - rewrite E. cbn [order_le order_ge].
    pose proof (RoundFacts.binary_round_aux_order prec emax
                  Binary64Order.prec_pos _ _ _ _ _ _ _ (Pos2Z.is_nonneg _) E)
      as Hle.
    rewrite Binary64Order.emin_value in Hle. cbn [Zdigits2] in Hle, Hge. lia.
  - rewrite E. cbn. tauto.
Qed.

Lemma float_of_int_order (z : Z) :
  order_le 64 (Prim2SF (Binary64.float_of_int z))
  /\ order_ge 1 (Prim2SF (Binary64.float_of_int z)).
Proof.
  assert (H : forall n, order_le 64 (Prim2SF (PrimFloat.of_uint63 n))
                        /\ order_ge 1 (Prim2SF (PrimFloat.of_uint63 n))).
  { intros n. rewrite of_uint63_spec. apply binary_normalize_order.
    exact (Uint63.to_Z_bounded n). }
  destruct z as [|p|p]; cbn [Binary64.float_of_int].
  - change (Prim2SF PrimFloat.zero) with (S754_zero false). cbn. tauto.
  - apply H.
  - rewrite opp_spec.
    destruct (H (Uint63.of_Z (Zpos p))) as [Hl Hg].
    destruct (Prim2SF (of_uint63 (Uint63.of_Z (Zpos p)))); cbn in *; tauto.
Qed.

Lemma is_infinity_iff (x : float) :
  PrimFloat.is_infinity x = true <-> is_infinite (Prim2SF x).
Proof.
  unfold PrimFloat.is_infinity. rewrite eqb_spec, abs_spec.
  change (Prim2SF infinity) with (S754_infinity false). unfold SFeqb.
  destruct (Prim2SF x) as [s|s| |s m e]; cbn; intuition discriminate.
Qed.

(** A float that is not [2 ^ (eb + 52)] or more in absolute value has an
    order up to [eb + 53], and a finite float of an order up to [eb + 52]
    is below [2 ^ (eb + 52)] in absolute value. *)
Lemma order_le_of_leb (b x : float) (eb : Z) :
  Prim2SF b = S754_finite false 4503599627370496 eb ->
  PrimFloat.leb b (PrimFloat.abs x) = false ->
  order_le (eb + 53) (Prim2SF x).
Proof.
  intros Hb. rewrite leb_spec, abs_spec, Hb.
  pose proof (Prim2SF_valid x) as Hv.
  destruct (Prim2SF x) as [s|s| |s m e]; cbn [order_le]; trivial.
  apply (Binary64Order.canonical s) in Hv as [Hv _].
  unfold SFleb. cbn [SFabs SFcompare]. intros H.
  destruct (Z.compare_spec eb e) as [E|E|E]; try discriminate H; lia.
Qed.

Lemma leb_of_order_le (b x : float) (eb : Z) :
  Prim2SF b = S754_finite false 4503599627370496 eb ->
  -1074 < eb ->
  order_le (eb + 52) (Prim2SF x) ->
  PrimFloat.is_infinity x = false ->
  PrimFloat.leb b (PrimFloat.abs x) = false.
Proof.
  intros Hb Heb Ho Hinf. rewrite leb_spec, abs_spec, Hb.
  assert (Hni : ~ is_infinite (Prim2SF x)).
  { rewrite <- is_infinity_iff. congruence. }
  pose proof (Prim2SF_valid x) as Hv.
  destruct (Prim2SF x) as [s|s| |s m e]; cbn [order_le is_infinite] in *;
    try reflexivity; try tauto.
  apply (Binary64Order.canonical s) in Hv as [Hv _].
  unfold SFleb. cbn [SFabs SFcompare].
  destruct (Z.compare_spec eb e) as [E|E|E]; try reflexivity; lia.
Qed.

(** The rounded product squares without an overflow below [2 ^ 400]. *)
Lemma mul_pow_finite : pow_finite (fun x => PrimFloat.mul x x).
Proof.
  intros x H.
  pose proof (order_le_of_leb 0x1p+400 x 348 eq_refl H) as Ho.
  destruct (PrimFloat.is_infinity (x * x)) eqn:E; [|reflexivity].
  exfalso. apply is_infinity_iff in E. rewrite mul_spec in E.
  rewrite leb_spec, abs_spec in H.
  change (Prim2SF 0x1p+400) with (S754_finite false 4503599627370496 348) in H.
  destruct (Prim2SF x) as [s|s| |s m e];
    cbn [SF64mul SFmul is_infinite SFabs order_le] in *;
    try tauto; try discriminate H.
  revert E. apply RoundFacts.binary_round_aux_finite;
    [exact Binary64Order.prec_pos | lia |].
  rewrite Binary64Order.emin_value. unfold prec, emax.
  pose proof (RoundFacts.Zdigits2_mul (Zpos m) (Zpos m) ltac:(lia) ltac:(lia))
    as Hd.
  change (Zpos m * Zpos m) with (Zpos (m * m)) in Hd.
  cbn [Zdigits2] in Hd |- *. lia.
Qed.

End Binary64Bounds.

(** ** The similarity in binary64: no division by zero *)

Module Binary64Cosine.

(** In binary64 the division of the similarity never fails: a magnitude is
    a square root, and the product of two square roots that are not zero is
    not zero. *)
Lemma _cosine_similarity_binary64 (log pow2 round1 : float -> float)
      (vec_a vec_b : dict float) :
  (exists s, @_cosine_similarity float (Binary64.arith log pow2 round1)
               vec_a vec_b = Ok s)
  \/ @_cosine_similarity float (Binary64.arith log pow2 round1) vec_a vec_b
     = Raise OverflowError.
Proof.
  pose proof (Binary64Facts.binary64_laws log pow2 round1) as L.
  rewrite _cosine_similarity_unfold. cbv zeta.
  destruct (set_and (keys vec_a) (keys vec_b)); [left; eauto|].
  destruct (@magnitude_cases _ _ L vec_a) as [[ma Ha] | Ha];
    rewrite Ha; cbn [bind]; [|auto].
  destruct (@magnitude_cases _ _ L vec_b) as [[mb Hb] | Hb];
    rewrite Hb; cbn [bind]; [|auto].
  left.
  destruct (feqb ma (of_int 0)) eqn:Ea; [eexists; reflexivity|].
  destruct (feqb mb (of_int 0)) eqn:Eb; [eexists; reflexivity|].
  cbn [orb]. unfold float_truediv.
  unfold magnitude in Ha, Hb.
  apply bind_ok in Ha as [sa [_ Ha]]. apply bind_ok in Hb as [sb [_ Hb]].
  injection Ha as <-. injection Hb as <-.
  cbv [feqb fmul fsqrt of_int Binary64.arith Binary64.float_of_int
       PrimFloat.zero]
    in Ea, Eb |- *.
  rewrite (Binary64Order.sqrt_product_nonzero _ _ Ea Eb). eauto.
Qed.

Lemma tfidf_similarity_binary64 (log pow2 round1 : float -> float)
      (resume_text job_text : string) :
  (exists s, @tfidf_similarity float (Binary64.arith log pow2 round1)
               resume_text job_text = Ok s)
  \/ @tfidf_similarity float (Binary64.arith log pow2 round1)
       resume_text job_text = Raise OverflowError.
Proof.
  rewrite tfidf_similarity_unfold. cbv zeta.
  apply _cosine_similarity_binary64.
Qed.

Lemma calculate_match_score_binary64 (log pow2 round1 : float -> float)
      (resume_profile : ResumeProfile) (job_text : string)
      (alpha beta : float) :
  (exists s, @calculate_match_score float (Binary64.arith log pow2 round1)
               resume_profile job_text alpha beta = Ok s)
  \/ @calculate_match_score float (Binary64.arith log pow2 round1)
       resume_profile job_text alpha beta = Raise OverflowError.
Proof.
  unfold calculate_match_score.
  destruct (Str.is_empty (raw_text resume_profile) || Str.is_empty job_text);
    [left; eauto|].
  rewrite tfidf_similarity_unfold. cbv zeta.
  match goal with
  | |- context [_cosine_similarity ?a ?b] =>
      destruct (_cosine_similarity_binary64 log pow2 round1 a b)
        as [[sim ->] | ->]
  end; cbn [bind]; [|now right].
  rewrite overlap_ratio_ok. cbn [bind]. left; eauto.
Qed.

End Binary64Cosine.

(** ** Cosine similarity: the claim and what holds instead *)

(** C7, as stated, fails in binary64: the similarity of the vector
    [{a: 1.0, b: 1.0}] to itself is [0.9999999999999998], that of
    [{a: 1.0, b: 1.0, c: 1.0}] to itself is [1.0000000000000002], above 1,
    that of [{a: 2.6e-162}] to [{a: 1.0}], two vectors of positive weights,
    is [1.169717586581231], that of the non-empty vector [{a: 0.0}] to itself
    is [0.0], and that of [{a: 0.0}], whose magnitude is zero, to
    [{a: 2.0 ** 600}] is not [0.0]: the square of the second weight
    overflows, and raises. *)
Lemma cosine_similarity_not_exactly_one :
  @_cosine_similarity float Binary64.plain
    [("a", 1%float); ("b", 1%float)] [("a", 1%float); ("b", 1%float)]
  = Ok 0x1.ffffffffffffep-1%float
  /\ PrimFloat.eqb 0x1.ffffffffffffep-1 1 = false
  /\ @_cosine_similarity float Binary64.plain
       [("a", 1%float); ("b", 1%float); ("c", 1%float)]
       [("a", 1%float); ("b", 1%float); ("c", 1%float)]
     = Ok 0x1.0000000000001p+0%float
  /\ PrimFloat.leb 0x1.0000000000001p+0 1 = false
  /\ @_cosine_similarity float Binary64.plain
       [("a", 0x1.2b729c9bec24cp-537%float)] [("a", 1%float)]
     = Ok 0x1.2b729c9bec24cp+0%float
  /\ PrimFloat.leb 0x1.2b729c9bec24cp+0 1 = false
  /\ @_cosine_similarity float Binary64.plain [("a", 0%float)] [("a", 0%float)]
     = Ok 0%float
  /\ @magnitude float Binary64.plain [("a", 0%float)] = Ok 0%float
  /\ @_cosine_similarity float Binary64.plain
       [("a", 0%float)] [("a", 0x1p+600%float)]
     = Raise OverflowError.
Proof.
  split; [vm_compute; reflexivity|].
  split; [vm_compute; reflexivity|].
  split; [vm_compute; reflexivity|].
  split; [vm_compute; reflexivity|].
  split; [vm_compute; reflexivity|].
  split; [vm_compute; reflexivity|].
  split; [vm_compute; reflexivity|].
  split; vm_compute; reflexivity.
Qed.

(** C7, amended.  In exact arithmetic the similarity of two well-formed
    vectors is symmetric, is 1 for a vector and itself when its magnitude is
    not zero, lies in [[0, 1]] for weights that are not negative, and is 0
    when the vectors share no term or a magnitude is zero.  In every
    arithmetic with a commutative product, binary64 among them, it is
    symmetric when both calls walk the common terms in one order, 0 when
    the vectors share no term, and 0 when both magnitudes are computed and
    one of them is zero.  In binary64 it returns or raises [OverflowError],
    in the square of a weight: its division never raises, because the
    product of two magnitudes that are not zero is not zero. *)
Theorem cosine_similarity_properties :
  forall a b : dict R,
    well_formed a ->
    well_formed b ->
    @_cosine_similarity R Exact.arith a b = @_cosine_similarity R Exact.arith b a
    /\ (@magnitude R Exact.arith a <> Ok 0%R ->
        @_cosine_similarity R Exact.arith a a = Ok 1%R)
    /\ (@non_negative R Exact.arith a -> @non_negative R Exact.arith b ->
        exists s, @_cosine_similarity R Exact.arith a b = Ok s
                  /\ (0 <= s <= 1)%R)
    /\ (set_and (keys a) (keys b) = []
        \/ @magnitude R Exact.arith a = Ok 0%R
        \/ @magnitude R Exact.arith b = Ok 0%R ->
        @_cosine_similarity R Exact.arith a b = Ok 0%R)
    /\ (forall (F : Type) (A : Arith F) (L : ArithLaws A) (x y : dict F),
           (set_and (keys x) (keys y) = set_and (keys y) (keys x) ->
            _cosine_similarity x y = _cosine_similarity y x)
           /\ (set_and (keys x) (keys y) = [] ->
               _cosine_similarity x y = Ok (of_int 0))
           /\ (forall mag_x mag_y : F,
                  magnitude x = Ok mag_x ->
                  magnitude y = Ok mag_y ->
                  feqb mag_x (of_int 0) = true \/ feqb mag_y (of_int 0) = true ->
                  _cosine_similarity x y = Ok (of_int 0)))
    /\ (forall (log pow2 round1 : float -> float) (x y : dict float),
           (exists s, @_cosine_similarity float (Binary64.arith log pow2 round1)
                        x y = Ok s)
           \/ @_cosine_similarity float (Binary64.arith log pow2 round1) x y
              = Raise OverflowError).
Proof.
  intros a b Ha Hb.
  split; [apply CosineExact.symmetric|].
  split.
  { intros Hm. apply CosineExact.self_similarity; [assumption|].
    intros E. apply Hm. now rewrite CosineExact.magnitude_sqrt, E. }
  split; [now apply CosineExact.bounded|].
  split.
  { intros [H | [H | H]].
    - now apply (@_cosine_similarity_disjoint R Exact.arith).
    - apply (@_cosine_similarity_zero_magnitude R Exact.arith
               a b _ _ H (CosineExact.magnitude_sqrt b)).
      left. now apply ExactFacts.eqb_iff.
    - apply (@_cosine_similarity_zero_magnitude R Exact.arith
               a b _ _ (CosineExact.magnitude_sqrt a) H).
      right. now apply ExactFacts.eqb_iff. }
  split.
  { intros F A L x y.
    split; [apply _cosine_similarity_sym|].
    split; [apply _cosine_similarity_disjoint
           | apply _cosine_similarity_zero_magnitude]. }
  intros log pow2 round1 x y.
  apply Binary64Cosine._cosine_similarity_binary64.
Qed.

Lemma cosine_similarity_properties_witness :
  @_cosine_similarity R Exact.arith [("x", 3%R); ("y", 4%R)] [("x", 1%R)]
  = @_cosine_similarity R Exact.arith [("x", 1%R)] [("x", 3%R); ("y", 4%R)]
  /\ @_cosine_similarity R Exact.arith
       [("x", 3%R); ("y", 4%R)] [("x", 3%R); ("y", 4%R)]
     = Ok 1%R.
Proof.
  assert (Ha : @well_formed R [("x", 3%R); ("y", 4%R)]).
  { unfold well_formed. cbn. repeat constructor; cbn; intuition discriminate. }
  assert (Hb : @well_formed R [("x", 1%R)]).
  { unfold well_formed. cbn. repeat constructor; cbn; intuition discriminate. }
  split.
  - exact (proj1 (cosine_similarity_properties _ _ Ha Hb)).
  - apply (proj1 (proj2 (cosine_similarity_properties _ _ Ha Ha))).
    rewrite CosineExact.magnitude_sqrt. unfold squares, total. cbn.
    intros [= E].
    assert (0 < sqrt (3 * 3 + (4 * 4 + 0)))%R; [|lra].
    apply sqrt_lt_R0. lra.
Defined.

(* ================================================================== *)
(** * Further properties *)

Module TextFacts.

Ltac each_char c :=
  destruct c as [[] [] [] [] [] [] [] []].

Lemma lower_lower (c : ascii) : Char.lower (Char.lower c) = Char.lower c.
Proof. each_char c; vm_compute; reflexivity. Qed.

Lemma kept_iff (c : ascii) :
  is_kept c = true <->
  Char.is_space c = false /\ Char.is_special c = false /\ Char.lower c = c.
Proof.
  each_char c; vm_compute; split; try congruence; try tauto;
    intros [? [? ?]]; congruence.
Qed.

Lemma kept_not_space (c : ascii) : is_kept c = true -> Char.is_space c = false.
Proof. intros H. now apply kept_iff in H. Qed.

Lemma kept_not_blank (c : ascii) : is_kept c = true -> Ascii.eqb c " " = false.
Proof.
  intros H. destruct (Ascii.eqb_spec c " ") as [->|]; [|reflexivity].
  discriminate H.
Qed.

(** What the first two steps of [_normalise] make of a character. *)
Lemma cleaned (c : ascii) :
  let c' := if Char.is_special (Char.lower c) then " "%char else Char.lower c in
  (Char.is_space c' = true /\ is_kept c' = false)
  \/ (Char.is_space c' = false /\ is_kept c' = true).
Proof. each_char c; vm_compute; tauto. Qed.

Lemma single_spaced_weaken (r : bool) (s : string) :
  single_spaced true s = true -> single_spaced r s = true.
Proof.
  destruct s as [|c s]; [reflexivity|]. cbn [single_spaced].
  destruct (Ascii.eqb c " "); [discriminate | trivial].
Qed.

Lemma single_spaced_chars (r : bool) (s : string) (c : ascii) :
  single_spaced r s = true -> In c (chars s) ->
  c = " "%char \/ is_kept c = true.
Proof.
  revert r. induction s as [|a s IH]; intros r; cbn [single_spaced chars
    list_ascii_of_string In]; [tauto|].
  fold (chars s).
  destruct (Ascii.eqb_spec a " ") as [->|Hne].
  - intros H [<-|Hin]; [now left|].
    apply andb_true_iff in H as [_ H]. now apply (IH true).
  - intros H [<-|Hin]; apply andb_true_iff in H as [Hk H];
      [now right | now apply (IH false)].
Qed.

Lemma collapse_single_spaced (r : bool) (s : string) :
  (forall c, In c (chars s) ->
             (Char.is_space c = true /\ is_kept c = false)
             \/ (Char.is_space c = false /\ is_kept c = true)) ->
  single_spaced r (Str.collapse r s) = true.
Proof.
  revert r. induction s as [|a s IH]; intros r H; [reflexivity|].
  assert (Hs : forall c, In c (chars s) ->
                         (Char.is_space c = true /\ is_kept c = false)
                         \/ (Char.is_space c = false /\ is_kept c = true)).
  { intros c Hc. apply H. now right. }
  cbn [Str.collapse].
  destruct (H a (or_introl eq_refl)) as [[Hsp Hk]|[Hsp Hk]]; rewrite Hsp.
  - destruct r; [now apply IH|].
    cbn [single_spaced Ascii.eqb Bool.eqb negb andb]. now apply IH.
  - cbn [single_spaced]. rewrite (kept_not_blank a Hk), Hk. now apply IH.
Qed.

Lemma lstrip_fixed (s : string) : single_spaced true s = true -> Str.lstrip s = s.
Proof.
  destruct s as [|c s]; [reflexivity|]. cbn [single_spaced Str.lstrip].
  destruct (Ascii.eqb c " "); [discriminate|].
  intros H. apply andb_true_iff in H as [H _].
  now rewrite (kept_not_space c H).
Qed.

Lemma lstrip_single_spaced (r : bool) (s : string) :
  single_spaced r s = true -> single_spaced true (Str.lstrip s) = true.
Proof.
  destruct s as [|c s]; [reflexivity|]. cbn [single_spaced Str.lstrip].
  destruct (Ascii.eqb_spec c " ") as [->|Hne].
  - intros H. apply andb_true_iff in H as [_ H].
    change (Char.is_space " ") with true. cbv iota.
    now rewrite (lstrip_fixed s H).
  - intros H. pose proof H as H'. apply andb_true_iff in H' as [Hk _].
    rewrite (kept_not_space c Hk). cbn [single_spaced].
    now rewrite (proj2 (Ascii.eqb_neq _ _) Hne).
Qed.

Lemma rstrip_cons (c : ascii) (s : string) :
  Char.is_space c = false -> Str.rstrip (String c s) = String c (Str.rstrip s).
Proof.
  intros H. cbn [Str.rstrip]. rewrite H. now destruct (Str.rstrip s).
Qed.

Lemma rstrip_single_spaced (r : bool) (s : string) :
  single_spaced r s = true -> single_spaced r (Str.rstrip s) = true.
Proof.
  revert r. induction s as [|c s IH]; intros r; [reflexivity|].
  cbn [single_spaced].
  destruct (Ascii.eqb_spec c " ") as [->|Hne].
  - intros H. apply andb_true_iff in H as [Hr H]. cbn [Str.rstrip].
    specialize (IH true H).
    destruct (Str.rstrip s) as [|c' s'] eqn:E; [reflexivity|].
    cbn [single_spaced Ascii.eqb Bool.eqb]. rewrite Hr. exact IH.
  - intros H. apply andb_true_iff in H as [Hk H].
    rewrite (rstrip_cons c s (kept_not_space c Hk)). cbn [single_spaced].
    rewrite (proj2 (Ascii.eqb_neq _ _) Hne), Hk. now apply IH.
Qed.

Lemma rstrip_cons_nonempty (c : ascii) (s : string) :
  Str.rstrip s <> "" -> Str.rstrip (String c s) = String c (Str.rstrip s).
Proof. intros H. cbn [Str.rstrip]. now destruct (Str.rstrip s). Qed.

Lemma rstrip_rstrip (s : string) : Str.rstrip (Str.rstrip s) = Str.rstrip s.
Proof.
  induction s as [|c s IH]; [reflexivity|].
  destruct (Str.rstrip s) as [|c' s'] eqn:E.
  - cbn [Str.rstrip]. rewrite E.
    destruct (Char.is_space c) eqn:Hc; [reflexivity|].
    cbn [Str.rstrip]. now rewrite Hc.
  - rewrite (rstrip_cons_nonempty c s) by (rewrite E; discriminate).
    rewrite E, rstrip_cons_nonempty by (rewrite IH; discriminate).
    now rewrite IH.
Qed.

Lemma rstrip_fixed_tail (c : ascii) (s : string) :
  Str.rstrip (String c s) = String c s -> Str.rstrip s = s.
Proof.
  cbn [Str.rstrip]. destruct (Str.rstrip s) as [|c' s'] eqn:E.
  - destruct (Char.is_space c); [discriminate|]. now intros [= <-].
  - now intros [= <-].
Qed.

Lemma rstrip_lstrip (s : string) :
  Str.rstrip s = s -> Str.rstrip (Str.lstrip s) = Str.lstrip s.
Proof.
  induction s as [|c s IH]; [reflexivity|]. intros H. cbn [Str.lstrip].
  destruct (Char.is_space c); [|assumption].
  apply IH. now apply rstrip_fixed_tail in H.
Qed.

Lemma strip_normalised (r : bool) (s : string) :
  single_spaced r s = true -> normalised (Str.strip s).
Proof.
  intros H. unfold normalised, Str.strip. split.
  - apply (lstrip_single_spaced r). now apply rstrip_single_spaced.
  - apply rstrip_lstrip, rstrip_rstrip.
Qed.

Lemma map_chars (f : ascii -> ascii) (s : string) :
  chars (Str.map f s) = List.map f (chars s).
Proof.
  induction s as [|c s IH]; [reflexivity|].
  cbn [Str.map chars list_ascii_of_string List.map]. f_equal. exact IH.
Qed.

Lemma _normalise_normalised (text : string) : normalised (_normalise text).
Proof.
  unfold _normalise. apply (strip_normalised false), collapse_single_spaced.
  intros c Hc. rewrite map_chars in Hc. apply in_map_iff in Hc as [b [<- Hb]].
  unfold Str.lower in Hb. rewrite map_chars in Hb.
  apply in_map_iff in Hb as [a [<- _]]. apply cleaned.
Qed.

Lemma map_fixed (f : ascii -> ascii) (s : string) :
  (forall c, In c (chars s) -> f c = c) -> Str.map f s = s.
Proof.
  induction s as [|c s IH]; intros H; [reflexivity|]. cbn [Str.map].
  rewrite (H c) by now left. f_equal. apply IH. intros; apply H. now right.
Qed.

Lemma collapse_fixed (r : bool) (s : string) :
  single_spaced r s = true -> Str.collapse r s = s.
Proof.
  revert r. induction s as [|c s IH]; intros r; [reflexivity|].
  cbn [single_spaced Str.collapse].
  destruct (Ascii.eqb_spec c " ") as [->|Hne].
  - intros H. apply andb_true_iff in H as [Hr H].
    change (Char.is_space " ") with true. cbv iota.
    destruct r; [discriminate|]. now rewrite (IH true H).
  - intros H. apply andb_true_iff in H as [Hk H].
    rewrite (kept_not_space c Hk). now rewrite (IH false H).
Qed.

Lemma normalised_fixed (s : string) : normalised s -> _normalise s = s.
Proof.
  intros [Hs Hr]. unfold _normalise.
  assert (Hl : Str.lower s = s).
  { apply map_fixed. intros c Hc.
    destruct (single_spaced_chars true s c Hs Hc) as [->|Hk]; [reflexivity|].
    now apply kept_iff in Hk. }
  rewrite Hl.
  assert (Hm : Str.map (fun c => if Char.is_special c then " "%char else c) s = s).
  { apply map_fixed. intros c Hc.
    destruct (single_spaced_chars true s c Hs Hc) as [->|Hk]; [reflexivity|].
    apply kept_iff in Hk as [_ [-> _]]. reflexivity. }
  rewrite Hm, (collapse_fixed false s (single_spaced_weaken false s Hs)).
  unfold Str.strip. now rewrite Hr, lstrip_fixed.
Qed.

Lemma _normalise_fixed (text : string) :
  _normalise (_normalise text) = _normalise text.
Proof. apply normalised_fixed, _normalise_normalised. Qed.


(** *** The shape of a normalised text *)

Lemma prefix_blank (s : string) :
  single_spaced true s = true -> prefix " " s = false.
Proof.
  destruct s as [|c s]; [reflexivity|]. cbn [single_spaced prefix].
  destruct (Ascii.eqb_spec c " ") as [->|Hne]; [discriminate|]. intros _.
  destruct (ascii_dec " " c) as [<-|]; [now elim Hne | reflexivity].
Qed.

Lemma single_spaced_no_double (r : bool) (s : string) :
  single_spaced r s = true -> Str.contains "  " s = false.
Proof.
  revert r. induction s as [|c s IH]; intros r; [reflexivity|].
  cbn [single_spaced Str.contains]. intros H.
  apply orb_false_iff.
  destruct (Ascii.eqb_spec c " ") as [->|Hne].
  - apply andb_true_iff in H as [_ H]. split; [|now apply (IH true)].
    cbn [prefix]. destruct (ascii_dec " " " "); [|reflexivity].
    now apply prefix_blank.
  - apply andb_true_iff in H as [_ H]. split; [|now apply (IH false)].
    cbn [prefix]. destruct (ascii_dec " " c) as [<-|]; [now elim Hne | reflexivity].
Qed.

Lemma normalised_strip (s : string) : normalised s -> Str.strip s = s.
Proof. intros [Hs Hr]. unfold Str.strip. now rewrite Hr, lstrip_fixed. Qed.

(** *** Tokens *)

Lemma join_cons (sep x : string) (l : list string) :
  l <> [] -> join sep (x :: l) = (x ++ sep ++ join sep l)%string.
Proof. destruct l; [congruence | reflexivity]. Qed.

Lemma append_nil_r (s : string) : (s ++ "")%string = s.
Proof. induction s as [|c s IH]; [reflexivity|]. cbn. now rewrite IH. Qed.

Lemma append_assoc (a b c : string) :
  ((a ++ b) ++ c)%string = (a ++ b ++ c)%string.
Proof. induction a as [|x a IH]; [reflexivity|]. cbn. now rewrite IH. Qed.

Lemma split_from_join (cur s : string) :
  single_spaced (Str.is_empty cur) s = true ->
  Str.rstrip s = s ->
  join " " (Str.split_from cur s) = (cur ++ s)%string.
Proof.
  revert cur. induction s as [|c s IH]; intros cur Hs Hr.
  - cbn [Str.split_from]. rewrite append_nil_r. now destruct cur.
  - pose proof (rstrip_fixed_tail c s Hr) as Hr'.
    cbn [single_spaced] in Hs. cbn [Str.split_from].
    destruct (Ascii.eqb_spec c " ") as [->|Hne].
    + apply andb_true_iff in Hs as [Hc Hs].
      change (Char.is_space " ") with true. cbv iota.
      destruct cur as [|a cur]; [discriminate|].
      specialize (IH "" Hs Hr'). cbn [append] in IH.
      destruct s as [|b s]; [discriminate Hr|].
      rewrite join_cons, IH; [reflexivity|].
      intros E. rewrite E in IH. discriminate IH.
    + apply andb_true_iff in Hs as [Hk Hs].
      rewrite (kept_not_space c Hk).
      rewrite IH; [now rewrite append_assoc| |assumption].
      replace (Str.is_empty (cur ++ String c "")%string) with false; [assumption|].
      now destruct cur.
Qed.

Lemma _tokenise_join (text : string) :
  join " " (_tokenise text) = _normalise text.
Proof.
  destruct (_normalise_normalised text) as [Hs Hr].
  unfold _tokenise, Str.split. now rewrite split_from_join.
Qed.

(** A token of [s.split()] is not empty and holds no white space, for
    every [s]. *)
Lemma split_from_tokens (cur s t : string) :
  (forall c, In c (chars cur) -> Char.is_space c = false) ->
  In t (Str.split_from cur s) ->
  t <> "" /\ forall c, In c (chars t) -> Char.is_space c = false.
Proof.
  revert cur. induction s as [|a s IH]; intros cur Hcur; cbn [Str.split_from].
  - destruct cur as [|b cur]; cbn [In]; [tauto|].
    intros [<-|[]]. split; [discriminate | assumption].
  - destruct (Char.is_space a) eqn:Ha.
    + destruct cur as [|b cur].
      * apply IH. intros c [].
      * cbn [In]. intros [<-|Hin]; [split; [discriminate | assumption]|].
        revert Hin. apply IH. intros c [].
    + apply IH. intros c Hc. unfold chars in Hc.
      assert (E : forall x y, list_ascii_of_string (x ++ y)%string
                              = list_ascii_of_string x ++ list_ascii_of_string y).
      { intros x y. induction x as [|d x IHx]; [reflexivity|].
        cbn. now rewrite IHx. }
      rewrite E in Hc. apply in_app_iff in Hc as [Hc|[<-|[]]];
        [now apply Hcur | assumption].
Qed.

(** *** Words that survive normalisation *)

Lemma map_app (f : ascii -> ascii) (a b : string) :
  Str.map f (a ++ b) = (Str.map f a ++ Str.map f b)%string.
Proof. induction a as [|c a IH]; [reflexivity|]. cbn. now rewrite IH. Qed.

Lemma map_length (f : ascii -> ascii) (s : string) :
  length (Str.map f s) = length s.
Proof. induction s as [|c s IH]; [reflexivity|]. cbn. now rewrite IH. Qed.

Lemma collapse_app (r : bool) (a b : string) :
  exists r', Str.collapse r (a ++ b) = (Str.collapse r a ++ Str.collapse r' b)%string.
Proof.
  revert r. induction a as [|c a IH]; intros r; [now exists r|].
  cbn [append Str.collapse]. destruct (Char.is_space c).
  - destruct (IH true) as [r' E]. exists r'. rewrite E. now destruct r.
  - destruct (IH false) as [r' E]. exists r'. now rewrite E.
Qed.

Lemma collapse_word (r : bool) (w b : string) :
  (forall c, In c (chars w) -> Char.is_space c = false) ->
  exists r', Str.collapse r (w ++ b) = (w ++ Str.collapse r' b)%string.
Proof.
  revert r. induction w as [|c w IH]; intros r H; [now exists r|].
  cbn [append Str.collapse]. rewrite (H c) by now left.
  destruct (IH false) as [r' E]; [intros; apply H; now right|].
  exists r'. now rewrite E.
Qed.

Lemma rstrip_word (w b : string) :
  (forall c, In c (chars w) -> Char.is_space c = false) ->
  Str.rstrip (w ++ b) = (w ++ Str.rstrip b)%string.
Proof.
  induction w as [|c w IH]; intros H; [reflexivity|].
  cbn [append]. rewrite rstrip_cons by (apply H; now left).
  rewrite IH; [reflexivity|]. intros; apply H. now right.
Qed.

Lemma rstrip_app (a b : string) :
  Str.rstrip b <> "" -> Str.rstrip (a ++ b) = (a ++ Str.rstrip b)%string.
Proof.
  intros H. induction a as [|c a IH]; [reflexivity|].
  cbn [append]. rewrite rstrip_cons_nonempty; rewrite IH; [reflexivity|].
  destruct a; [assumption | discriminate].
Qed.

Lemma lstrip_app (a b : string) :
  (exists c b', b = String c b' /\ Char.is_space c = false) ->
  exists a', Str.lstrip (a ++ b) = (a' ++ b)%string.
Proof.
  intros [c [b' [-> Hc]]]. induction a as [|d a [a' IH]].
  - exists "". cbn [append Str.lstrip]. now rewrite Hc.
  - cbn [append Str.lstrip]. destruct (Char.is_space d).
    + now exists a'.
    + now exists (String d a).
Qed.

Lemma plain_chars (w : string) (c : ascii) :
  plain w = true -> In c (chars w) -> is_kept c = true.
Proof.
  unfold plain. intros H Hc. apply andb_true_iff in H as [_ H].
  rewrite forallb_forall in H. now apply H.
Qed.

Lemma contains_normalise (w text : string) :
  plain w = true ->
  Str.contains w (Str.lower text) = true ->
  Str.contains w (_normalise text) = true.
Proof.
  intros Hw H. unfold _normalise.
  assert (Hsp : forall c, In c (chars w) -> Char.is_space c = false).
  { intros c Hc. apply kept_not_space. now apply (plain_chars w). }
  apply StrFacts.contains_iff in H as [pre [post ->]].
  rewrite !map_app.
  rewrite (map_fixed _ w).
  2:{ intros c Hc. apply (plain_chars w c Hw) in Hc.
      apply kept_iff in Hc as [_ [-> _]]. reflexivity. }
  set (g := fun c => if Char.is_special c then " "%char else c).
  destruct (collapse_app false (Str.map g pre) (w ++ Str.map g post))
    as [r1 ->].
  destruct (collapse_word r1 w (Str.map g post) Hsp) as [r2 ->].
  set (a := Str.collapse false (Str.map g pre)).
  set (b := Str.collapse r2 (Str.map g post)).
  unfold Str.strip.
  assert (Hne : w <> "").
  { intros ->. discriminate Hw. }
  rewrite rstrip_app; rewrite rstrip_word by assumption.
  2:{ destruct w; [congruence | discriminate]. }
  destruct (lstrip_app a (w ++ Str.rstrip b)) as [a' ->].
  { destruct w as [|c w]; [congruence|]. exists c, (w ++ Str.rstrip b)%string.
    split; [reflexivity|]. apply Hsp. now left. }
  apply StrFacts.contains_iff. now exists a', (Str.rstrip b).
Qed.

(** *** Lower case, slices and concatenation *)

Lemma lower_app (a b : string) :
  Str.lower (a ++ b) = (Str.lower a ++ Str.lower b)%string.
Proof. apply map_app. Qed.

Lemma lower_take (n : nat) (s : string) :
  Str.lower (Str.take n s) = Str.take n (Str.lower s).
Proof.
  unfold Str.take, Str.lower. revert s.
  induction n as [|n IH]; intros [|c s]; cbn; try reflexivity.
  now rewrite IH.
Qed.

(** A pattern without a space that occurs in [a + " " + b] occurs in [a] or
    in [b]. *)
Lemma prefix_blank_app (p a b : string) :
  (forall c, In c (chars p) -> c <> " "%char) ->
  prefix p (a ++ String " " b) = prefix p a.
Proof.
  revert a. induction p as [|c p IH]; intros a H.
  - now rewrite !StrFacts.prefix_nil.
  - destruct a as [|d a]; cbn [append prefix].
    + destruct (ascii_dec c " ") as [->|]; [|reflexivity].
      now elim (H " "%char (or_introl eq_refl)).
    + destruct (ascii_dec c d); [|reflexivity].
      apply IH. intros; apply H. now right.
Qed.

Lemma contains_blank_app (p a b : string) :
  p <> "" ->
  (forall c, In c (chars p) -> c <> " "%char) ->
  Str.contains p (a ++ String " " b)
  = Str.contains p a || Str.contains p b.
Proof.
  intros Hne H. induction a as [|d a IH].
  - cbn [append Str.contains]. rewrite orb_false_r.
    destruct p as [|c p]; [congruence|].
    cbn [prefix]. destruct (ascii_dec c " ") as [->|]; [|reflexivity].
    now elim (H " "%char (or_introl eq_refl)).
  - cbn [append]. cbn [Str.contains]. rewrite IH.
    change (String d (a ++ String " " b)) with (String d a ++ String " " b)%string.
    rewrite prefix_blank_app by assumption. now rewrite orb_assoc.
Qed.

Lemma chars_app (a b : string) : chars (a ++ b) = chars a ++ chars b.
Proof.
  unfold chars. induction a as [|c a IH]; [reflexivity|]. cbn. now rewrite IH.
Qed.

Lemma split_from_chars (cur s t : string) (c : ascii) :
  In t (Str.split_from cur s) -> In c (chars t) ->
  In c (chars cur) \/ In c (chars s).
Proof.
  revert cur. induction s as [|a s IH]; intros cur; cbn [Str.split_from].
  - destruct cur as [|b cur]; cbn [In]; [tauto|]. intros [<-|[]]. now left.
  - destruct (Char.is_space a).
    + destruct cur as [|b cur].
      * intros Ht Hc. destruct (IH "" Ht Hc) as [[]|H]. right. now right.
      * cbn [In]. intros [<-|Ht] Hc; [now left|].
        destruct (IH "" Ht Hc) as [[]|H]. right. now right.
    + intros Ht Hc. destruct (IH _ Ht Hc) as [H|H].
      * rewrite chars_app in H. apply in_app_iff in H as [H|[<-|[]]];
          [now left | right; now left].
      * right. now right.
Qed.

Lemma _tokenise_tokens (text t : string) :
  In t (_tokenise text) ->
  t <> "" /\ forall c, In c (chars t) -> is_kept c = true.
Proof.
  intros Ht. unfold _tokenise, Str.split in Ht.
  destruct (split_from_tokens "" _ t (fun c (H : In c []) => match H with end) Ht)
    as [Hne Hsp].
  split; [assumption|]. intros c Hc.
  destruct (split_from_chars _ _ _ c Ht Hc) as [[]|H].
  destruct (_normalise_normalised text) as [Hs _].
  destruct (single_spaced_chars true _ c Hs H) as [->|Hk]; [|assumption].
  now apply Hsp in Hc.
Qed.

End TextFacts.

(** ** Normalised text and tokens *)

(** X1.  The text [_normalise] returns is made of kept characters (word
    characters, dots, pluses and hashes that [lower] leaves alone) and of
    single spaces between them: it has no white space at either end and no
    two spaces in a row. *)
Theorem _normalise_shape :
  forall text : string,
    let n := _normalise text in
    (forall c, In c (chars n) -> c = " "%char \/ is_kept c = true)
    /\ Str.strip n = n
    /\ Str.contains "  " n = false.
Proof.
  intros text n. destruct (TextFacts._normalise_normalised text) as [Hs Hr].
  fold n in Hs, Hr. split; [|split].
  - intros c. now apply (TextFacts.single_spaced_chars true).
  - now apply TextFacts.normalised_strip.
  - now apply (TextFacts.single_spaced_no_double true).
Qed.

(** X2.  [_normalise] is idempotent, so what reads a text only through its
    normal form gives the same answer on the normal form: the tokens, the
    sponsorship detector, the Fortune 500 detector and the ATS keywords. *)
Theorem _normalise_idempotent :
  forall text : string,
    _normalise (_normalise text) = _normalise text
    /\ _tokenise (_normalise text) = _tokenise text
    /\ detect_h1b (_normalise text) = detect_h1b text
    /\ detect_fortune500 (_normalise text) = detect_fortune500 text
    /\ (forall resume_profile,
           extract_ats_keywords (_normalise text) resume_profile
           = extract_ats_keywords text resume_profile).
Proof.
  intros text. pose proof (TextFacts._normalise_fixed text) as H.
  split; [exact H|]. split; [|split; [|split]].
  - unfold _tokenise. now rewrite H.
  - unfold detect_h1b. now rewrite H.
  - unfold detect_fortune500, detect_fortune500_in. now rewrite H.
  - intros resume_profile.
    cbv beta zeta delta [extract_ats_keywords extract_ats_keywords_in].
    now rewrite H.
Qed.

(** X3.  The tokens of a text, joined by single spaces, are its normal
    form; every token is a word of kept characters, not empty and without
    white space; and a text has no token exactly when its normal form is
    empty. *)
Theorem _tokenise_round_trip :
  forall text : string,
    join " " (_tokenise text) = _normalise text
    /\ (forall t, In t (_tokenise text) -> plain t = true)
    /\ (_tokenise text = [] <-> _normalise text = "").
Proof.
  intros text. pose proof (TextFacts._tokenise_join text) as H.
  split; [exact H|]. split.
  - intros t Ht. destruct (TextFacts._tokenise_tokens text t Ht) as [Hne Hk].
    unfold plain. apply andb_true_iff. split.
    + destruct t; [congruence | reflexivity].
    + apply forallb_forall. exact Hk.
  - split.
    + intros E. now rewrite E in H.
    + intros E. unfold _tokenise. now rewrite E.
Qed.

Module DetectorMoreFacts.

Import TextFacts.

Lemma fortune_500_set_in (f500 : string) :
  In f500 Config.FORTUNE_500_SET <-> In f500 Config.FORTUNE_500_COMPANIES.
Proof.
  unfold Config.FORTUNE_500_SET, Config.lower_strip_set. rewrite set_of_in.
  replace (List.map (fun s => Str.strip (Str.lower s)) Config.FORTUNE_500_COMPANIES)
    with Config.FORTUNE_500_COMPANIES by (vm_compute; reflexivity).
  reflexivity.
Qed.

Lemma detect_fortune500_iff (company : string) :
  detect_fortune500 company = true <->
  exists f500, In f500 Config.FORTUNE_500_COMPANIES
               /\ (Str.contains f500 (_normalise company) = true
                   \/ Str.contains (_normalise company) f500 = true).
Proof.
  unfold detect_fortune500, detect_fortune500_in. rewrite existsb_exists.
  split; intros [f500 [Hin H]]; exists f500.
  - apply (proj1 (fortune_500_set_in f500)) in Hin.
    apply (proj1 (orb_true_iff _ _)) in H. split; assumption.
  - apply (proj2 (fortune_500_set_in f500)) in Hin.
    apply (proj2 (orb_true_iff _ _)) in H. split; assumption.
Qed.

(** *** The portal table *)

Lemma lower_fixed (s : string) : Str.lower (Str.lower s) = Str.lower s.
Proof.
  unfold Str.lower. induction s as [|c s IH]; [reflexivity|].
  cbn [Str.map]. now rewrite lower_lower, IH.
Qed.

Lemma search_text_lower (job_url job_text : string) :
  Str.lower (job_url ++ " " ++ Str.take 1000 job_text)
  = (Str.lower job_url ++ String " " (Str.lower (Str.take 1000 job_text)))%string.
Proof. now rewrite !lower_app. Qed.

Lemma portal_patterns_plain (kv : string * list string) (pattern : string) :
  In kv Config.PORTAL_PATTERNS -> In pattern (snd kv) ->
  Str.lower pattern <> ""
  /\ forall c, In c (chars (Str.lower pattern)) -> c <> " "%char.
Proof.
  intros Hkv Hp.
  assert (H : forallb (fun kv : string * list string =>
                forallb (fun p => negb (Str.is_empty (Str.lower p))
                                  && forallb (fun c => negb (Ascii.eqb c " "))
                                             (chars (Str.lower p)))
                        (snd kv))
              Config.PORTAL_PATTERNS = true) by (vm_compute; reflexivity).
  rewrite forallb_forall in H. specialize (H kv Hkv).
  rewrite forallb_forall in H. specialize (H pattern Hp).
  apply andb_true_iff in H as [Hne Hsp]. split.
  - intros E. rewrite E in Hne. discriminate.
  - intros c Hc. rewrite forallb_forall in Hsp. specialize (Hsp c Hc).
    intros ->. discriminate.
Qed.

Lemma portal_hit_iff (job_url job_text : string)
      (kv : string * list string) (pattern : string) :
  In kv Config.PORTAL_PATTERNS -> In pattern (snd kv) ->
  Str.contains (Str.lower pattern)
               (Str.lower (job_url ++ " " ++ Str.take 1000 job_text))
  = portal_hit job_url job_text pattern.
Proof.
  intros Hkv Hp. destruct (portal_patterns_plain kv pattern Hkv Hp) as [Hne Hsp].
  rewrite search_text_lower. unfold portal_hit.
  now apply contains_blank_app.
Qed.

Lemma existsb_ext_in {X : Type} (f g : X -> bool) (l : list X) :
  (forall x, In x l -> f x = g x) -> existsb f l = existsb g l.
Proof.
  induction l as [|x l IH]; intros H; [reflexivity|]. cbn [existsb].
  rewrite (H x) by now left. rewrite IH; [reflexivity|].
  intros; apply H. now right.
Qed.

Lemma find_ext_in {X : Type} (f g : X -> bool) (l : list X) :
  (forall x, In x l -> f x = g x) -> find f l = find g l.
Proof.
  induction l as [|x l IH]; intros H; [reflexivity|]. cbn [find].
  rewrite (H x) by now left. rewrite IH; [reflexivity|].
  intros; apply H. now right.
Qed.

(** [detect_portal] is the search of the table for the first portal with a
    pattern that hits. *)
Lemma detect_portal_find (job_url job_text : string) :
  detect_portal job_url job_text =
  match find (fun kv => existsb (portal_hit job_url job_text) (snd kv))
             Config.PORTAL_PATTERNS with
  | Some (portal_name, _) => portal_name
  | None => "Unknown"
  end.
Proof.
  unfold detect_portal. cbv zeta.
  rewrite (find_ext_in _ (fun kv => existsb (portal_hit job_url job_text) (snd kv)));
    [reflexivity|].
  intros kv Hkv. apply existsb_ext_in. intros pattern Hp.
  now apply (portal_hit_iff job_url job_text kv).
Qed.

Lemma find_first {X : Type} (f : X -> bool) (before after : list X) (x : X) :
  (forall y, In y before -> f y = false) -> f x = true ->
  find f (before ++ x :: after) = Some x.
Proof.
  intros Hb Hx. induction before as [|y before IH]; cbn [app find].
  - now rewrite Hx.
  - rewrite (Hb y) by now left. apply IH. intros; apply Hb. now right.
Qed.

End DetectorMoreFacts.

Module DetectorTextFacts.

(** The characters of a substring are characters of the text. *)
Lemma contains_chars (p s : string) (c : ascii) :
  Str.contains p s = true -> In c (chars p) -> In c (chars s).
Proof.
  intros H Hc. apply StrFacts.contains_iff in H as [pre [post ->]].
  rewrite !TextFacts.chars_app, !in_app_iff. auto.
Qed.

(** A name with a character that [_normalise] replaces occurs in no
    normalised text. *)
Lemma contains_special (p text : string) (c : ascii) :
  In c (chars p) -> c <> " "%char -> is_kept c = false ->
  Str.contains p (_normalise text) = false.
Proof.
  intros Hc Hs Hk. destruct (Str.contains p (_normalise text)) eqn:E;
    [|reflexivity].
  exfalso. pose proof (contains_chars _ _ c E Hc) as Hin.
  destruct (TextFacts._normalise_normalised text) as [Hsp _].
  destruct (TextFacts.single_spaced_chars true _ c Hsp Hin); congruence.
Qed.

Lemma detect_portal_cut (job_url text text' : string) :
  Str.take 1000 text' = Str.take 1000 text ->
  detect_portal job_url text' = detect_portal job_url text.
Proof. intros H. unfold detect_portal. cbv zeta. now rewrite H. Qed.

End DetectorTextFacts.

(** ** The detectors *)

(** X4.  The Fortune 500 detector matches substrings in both directions and
    knows no word boundary: a company is flagged exactly when a listed name
    occurs in its normalised name or its normalised name occurs in a listed
    name.  So it is flagged as soon as a listed name made of kept characters
    only (letters, digits, [_], [.], [+], [#]) occurs anywhere in the
    company name, in any letter case and even inside a word ("ge" in "Page
    One Media"), and so is a name as short as "A".  A listed name with
    another character, as "at&t", "coca-cola" and "t-mobile", occurs in no
    normalised name: "AT&T", "The Coca-Cola Company" and "T-Mobile US" are
    not flagged. *)
Theorem detect_fortune500_substring :
  forall company : string,
    (detect_fortune500 company = true <->
     exists f500,
       In f500 Config.FORTUNE_500_COMPANIES
       /\ (Str.contains f500 (_normalise company) = true
           \/ Str.contains (_normalise company) f500 = true))
    /\ (forall f500,
           In f500 Config.FORTUNE_500_COMPANIES -> plain f500 = true ->
           Str.contains f500 (Str.lower company) = true ->
           detect_fortune500 company = true)
    /\ (forall (f500 : string) (c : ascii),
           In c (chars f500) -> c <> " "%char -> is_kept c = false ->
           Str.contains f500 (_normalise company) = false)
    /\ detect_fortune500 "Page One Media" = true
    /\ detect_maang "Page One Media" "" = false
    /\ detect_fortune500 "A" = true
    /\ In "at&t" Config.FORTUNE_500_COMPANIES
    /\ detect_fortune500 "AT&T" = false
    /\ In "coca-cola" Config.FORTUNE_500_COMPANIES
    /\ detect_fortune500 "The Coca-Cola Company" = false
    /\ In "t-mobile" Config.FORTUNE_500_COMPANIES
    /\ detect_fortune500 "T-Mobile US" = false.
Proof.
  intros company. split; [apply DetectorMoreFacts.detect_fortune500_iff|].
  split; [|split; [|split; [|split; [|split; [|split; [|split; [|split;
    [|split; [|split]]]]]]]]].
  3, 4, 5, 7, 9, 11: vm_compute; reflexivity.
  - intros f500 Hin Hp H. apply DetectorMoreFacts.detect_fortune500_iff.
    exists f500. split; [assumption|]. left.
    now apply TextFacts.contains_normalise.
  - intros f500 c. apply DetectorTextFacts.contains_special.
  - apply (proj1 (mem_in _ _)). vm_compute. reflexivity.
  - apply (proj1 (mem_in _ _)). vm_compute. reflexivity.
  - apply (proj1 (mem_in _ _)). vm_compute. reflexivity.
Qed.

(** X5.  The portal detector answers with the first portal of the table
    one of whose patterns occurs, in lower case, in the lower-cased URL or in
    the lower-cased first 1000 characters of the job text: no match straddles
    the two, and the order of the table decides between two portals that
    both occur.  It answers "Unknown" exactly when no pattern occurs, and
    never anything but "Unknown" or a portal of the table. *)
Theorem detect_portal_first_match :
  forall job_url job_text : string,
    (forall before portal_name patterns after,
        Config.PORTAL_PATTERNS = before ++ (portal_name, patterns) :: after ->
        (forall kv pattern, In kv before -> In pattern (snd kv) ->
                            portal_hit job_url job_text pattern = false) ->
        existsb (portal_hit job_url job_text) patterns = true ->
        detect_portal job_url job_text = portal_name)
    /\ (detect_portal job_url job_text = "Unknown" <->
        forall kv pattern, In kv Config.PORTAL_PATTERNS -> In pattern (snd kv) ->
                           portal_hit job_url job_text pattern = false)
    /\ In (detect_portal job_url job_text)
          ("Unknown" :: List.map fst Config.PORTAL_PATTERNS).
Proof.
  intros job_url job_text. rewrite DetectorMoreFacts.detect_portal_find.
  set (f := fun kv : string * list string =>
              existsb (portal_hit job_url job_text) (snd kv)).
  split; [|split].
  - intros before portal_name patterns after E Hb Hp. rewrite E.
    rewrite (DetectorMoreFacts.find_first f before after (portal_name, patterns));
      [reflexivity| |exact Hp].
    intros kv Hkv. unfold f.
    destruct (existsb (portal_hit job_url job_text) (snd kv)) eqn:Ex;
      [|reflexivity].
    apply existsb_exists in Ex as [pattern [Hin Hhit]].
    now rewrite (Hb kv pattern Hkv Hin) in Hhit.
  - destruct (find f Config.PORTAL_PATTERNS) as [[portal_name patterns]|] eqn:E.
    + apply find_some in E as [Hin Hf]. split.
      * intros ->. exfalso.
        assert (H : forallb (fun kv : string * list string =>
                               negb (String.eqb (fst kv) "Unknown"))
                            Config.PORTAL_PATTERNS = true)
          by (vm_compute; reflexivity).
        rewrite forallb_forall in H. specialize (H _ Hin). discriminate H.
      * intros H. exfalso. unfold f in Hf. cbn [snd] in Hf.
        apply existsb_exists in Hf as [pattern [Hp Hhit]].
        now rewrite (H _ pattern Hin Hp) in Hhit.
    + split; [|reflexivity]. intros _ kv pattern Hkv Hp.
      pose proof (find_none _ _ E kv Hkv) as Hf. unfold f in Hf.
      destruct (portal_hit job_url job_text pattern) eqn:Hhit; [|reflexivity].
      rewrite <- Hf. symmetry. apply existsb_exists. now exists pattern.
  - destruct (find f Config.PORTAL_PATTERNS) as [[portal_name patterns]|] eqn:E.
    + apply find_some in E as [Hin _]. right.
      change portal_name with (fst (portal_name, patterns)). now apply in_map.
    + now left.
Qed.

(** X6.  The portal detector reads the job text through its first 1000
    characters only: two texts that agree on them get the same portal, and
    a pattern behind them is not seen.  On a URL and a job text of ASCII
    characters it does not see the letter case. *)
Theorem detect_portal_insensitive :
  forall job_url job_text : string,
    (forall text' : string,
        Str.take 1000 text' = Str.take 1000 job_text ->
        detect_portal job_url text' = detect_portal job_url job_text)
    /\ detect_portal job_url (Str.take 1000 job_text)
       = detect_portal job_url job_text
    /\ (ascii_text job_url -> ascii_text job_text ->
        detect_portal (Str.lower job_url) (Str.lower job_text)
        = detect_portal job_url job_text)
    /\ detect_portal "" "apply at linkedin.com/jobs/123" = "LinkedIn Easy Apply"
    /\ detect_portal "" (blanks 1000 ++ "apply at linkedin.com/jobs/123")
       = "Unknown".
Proof.
  intros job_url job_text.
  split; [intros text'; apply DetectorTextFacts.detect_portal_cut|].
  split; [apply DetectorTextFacts.detect_portal_cut, StrFacts.take_take|].
  split; [|split].
  2, 3: vm_compute; reflexivity.
  intros _ _. unfold detect_portal. cbv zeta.
  rewrite !DetectorMoreFacts.search_text_lower.
  rewrite <- TextFacts.lower_take.
  now rewrite !DetectorMoreFacts.lower_fixed.
Qed.

Module DictFacts.

Lemma lookup_set_item_same {V : Type} (k : string) (v : V) (d : dict V) :
  lookup k (set_item k v d) = Some v.
Proof.
  induction d as [|[k' v'] d IH]; cbn [set_item lookup].
  - now rewrite String.eqb_refl.
  - destruct (String.eqb k' k) eqn:E; cbn [lookup]; now rewrite E.
Qed.

Lemma lookup_set_item_other {V : Type} (k k' : string) (v : V) (d : dict V) :
  k <> k' -> lookup k' (set_item k v d) = lookup k' d.
Proof.
  intros Hne. induction d as [|[k0 v0] d IH]; cbn [set_item lookup].
  - now rewrite (proj2 (String.eqb_neq k k') Hne).
  - destruct (String.eqb_spec k0 k) as [->|H0]; cbn [lookup].
    + now rewrite (proj2 (String.eqb_neq k k') Hne).
    + now rewrite IH.
Qed.

Lemma keys_set_item {V : Type} (k : string) (v : V) (d : dict V) :
  keys (set_item k v d) = if mem k (keys d) then keys d else keys d ++ [k].
Proof.
  unfold keys, mem. induction d as [|[k' v'] d IH];
    cbn [set_item List.map fst existsb]; [reflexivity|].
  rewrite (String.eqb_sym k k').
  destruct (String.eqb k' k); cbn [orb List.map fst]; [reflexivity|].
  rewrite IH. now destruct (existsb (String.eqb k) (List.map fst d)).
Qed.

Lemma lookup_none {V : Type} (k : string) (d : dict V) :
  lookup k d = None <-> ~ In k (keys d).
Proof.
  unfold keys. induction d as [|[k' v'] d IH]; cbn [lookup List.map fst In];
    [tauto|].
  destruct (String.eqb_spec k' k) as [->|Hne].
  - split; [discriminate | tauto].
  - rewrite IH. tauto.
Qed.

(** *** Counting by [incr] *)

Lemma lookup_incr (k t : string) (d : dict Z) :
  lookup t (incr k d)
  = if String.eqb k t then Some (get t 0 d + 1)%Z else lookup t d.
Proof.
  unfold incr. destruct (String.eqb_spec k t) as [->|Hne].
  - apply lookup_set_item_same.
  - now apply lookup_set_item_other.
Qed.

Lemma get_incr (k t : string) (d : dict Z) :
  get t 0%Z (incr k d)
  = (get t 0 d + if String.eqb k t then 1 else 0)%Z.
Proof.
  unfold get at 1. rewrite lookup_incr.
  destruct (String.eqb k t); [reflexivity|]. unfold get. lia.
Qed.

Lemma keys_incr (k : string) (d : dict Z) :
  keys (incr k d) = if mem k (keys d) then keys d else keys d ++ [k].
Proof. apply keys_set_item. Qed.

Lemma get_fold_incr (l : list string) (t : string) (d : dict Z) :
  get t 0%Z (fold_left (fun tf k => incr k tf) l d)
  = (get t 0 d + Z.of_nat (count_occ string_dec l t))%Z.
Proof.
  revert d. induction l as [|k l IH]; intros d; cbn [fold_left count_occ];
    [lia|].
  rewrite IH, get_incr.
  destruct (string_dec k t) as [->|Hne].
  - rewrite String.eqb_refl. lia.
  - rewrite (proj2 (String.eqb_neq k t) Hne). lia.
Qed.

Lemma keys_fold_incr (l : list string) (d : dict Z) :
  keys (fold_left (fun tf k => incr k tf) l d)
  = fold_left (fun seen k => if mem k seen then seen else seen ++ [k]) l (keys d).
Proof.
  revert d. induction l as [|k l IH]; intros d; cbn [fold_left]; [reflexivity|].
  now rewrite IH, keys_incr.
Qed.

Lemma fold_keys_in (l seen : list string) (t : string) :
  In t (fold_left (fun seen k => if mem k seen then seen else seen ++ [k]) l seen)
  <-> In t seen \/ In t l.
Proof.
  revert seen. induction l as [|k l IH]; intros seen; cbn [fold_left In];
    [tauto|].
  rewrite IH. destruct (mem k seen) eqn:E.
  - apply mem_in in E. split; [tauto|].
    intros [H|[<-|H]]; tauto.
  - rewrite in_app_iff. cbn [In]. tauto.
Qed.

Lemma fold_keys_nodup (l seen : list string) :
  NoDup seen ->
  NoDup (fold_left (fun seen k => if mem k seen then seen else seen ++ [k]) l seen).
Proof.
  revert seen. induction l as [|k l IH]; intros seen H; cbn [fold_left];
    [assumption|].
  apply IH. destruct (mem k seen) eqn:E; [assumption|].
  apply NoDup_app; [assumption | repeat constructor; intros [] |].
  intros x Hx [<-|[]].
  apply mem_in in Hx. congruence.
Qed.

Lemma fromkeys_in (l : list string) (t : string) : In t (fromkeys l) <-> In t l.
Proof. unfold fromkeys. rewrite fold_keys_in. cbn [In]. tauto. Qed.

Lemma fromkeys_nodup (l : list string) : NoDup (fromkeys l).
Proof. apply fold_keys_nodup. constructor. Qed.

Lemma keys_Counter (tokens : list string) : keys (Counter tokens) = fromkeys tokens.
Proof. unfold Counter. now rewrite keys_fold_incr. Qed.

Lemma lookup_of_get (t : string) (d : dict Z) :
  In t (keys d) -> lookup t d = Some (get t 0%Z d).
Proof.
  intros H. unfold get. destruct (lookup t d) eqn:E; [reflexivity|].
  now apply lookup_none in E.
Qed.

Lemma lookup_Counter (tokens : list string) (t : string) :
  In t tokens ->
  lookup t (Counter tokens) = Some (Z.of_nat (count_occ string_dec tokens t)).
Proof.
  intros H. rewrite lookup_of_get.
  - unfold Counter. rewrite get_fold_incr. reflexivity.
  - rewrite keys_Counter. now apply fromkeys_in.
Qed.

(** *** Document frequencies *)

Lemma get_fold_incr_set (l : list string) (t : string) (d : dict Z) :
  NoDup l ->
  get t 0%Z (fold_left (fun df k => incr k df) l d)
  = (get t 0 d + if mem t l then 1 else 0)%Z.
Proof.
  intros Hnd. rewrite get_fold_incr.
  destruct (mem t l) eqn:E.
  - apply mem_in in E. rewrite (proj1 (NoDup_count_occ' string_dec l) Hnd t E).
    reflexivity.
  - assert (Hn : ~ In t l) by (intros H; apply mem_in in H; congruence).
    now rewrite (proj1 (count_occ_not_In string_dec l t) Hn).
Qed.

Lemma mem_set_of (t : string) (l : list string) : mem t (set_of l) = mem t l.
Proof.
  destruct (mem t l) eqn:E.
  - apply mem_in. apply set_of_in. now apply mem_in.
  - destruct (mem t (set_of l)) eqn:E'; [|reflexivity].
    apply (proj1 (mem_in t _)) in E'. apply (proj1 (set_of_in l t)) in E'.
    apply (proj2 (mem_in t l)) in E'. congruence.
Qed.

Lemma doc_freq_fold (corpus : list (list string)) (t : string) (d : dict Z) :
  get t 0%Z (fold_left (fun df tokens =>
                          fold_left (fun df term => incr term df)
                                    (set_of tokens) df)
                       corpus d)
  = (get t 0 d + Z.of_nat (documents_with t corpus))%Z.
Proof.
  unfold documents_with. revert d.
  induction corpus as [|doc corpus IH]; intros d; cbn [fold_left filter];
    [cbn; lia|].
  rewrite IH, get_fold_incr_set by apply set_of_nodup.
  rewrite mem_set_of. destruct (mem t doc); cbn [List.length]; lia.
Qed.

Lemma get_doc_freq (corpus : list (list string)) (t : string) :
  get t 0%Z (doc_freq corpus) = Z.of_nat (documents_with t corpus).
Proof. unfold doc_freq. now rewrite doc_freq_fold. Qed.

Lemma keys_doc_freq_fold (corpus : list (list string)) (d : dict Z) :
  NoDup (keys d) ->
  let d' := fold_left (fun df tokens =>
                         fold_left (fun df term => incr term df)
                                   (set_of tokens) df)
                      corpus d in
  NoDup (keys d')
  /\ forall t, In t (keys d') <->
               In t (keys d) \/ exists doc, In doc corpus /\ In t doc.
Proof.
  revert d. induction corpus as [|doc corpus IH]; intros d Hnd; cbn [fold_left].
  - cbv zeta. split; [assumption|]. intros t. split; [tauto|].
    intros [H|[doc [[] _]]]. assumption.
  - cbv zeta.
    set (d1 := fold_left (fun df term => incr term df) (set_of doc) d).
    assert (H1 : NoDup (keys d1)).
    { unfold d1. rewrite keys_fold_incr. now apply fold_keys_nodup. }
    destruct (IH d1 H1) as [Hn Hin]. split; [exact Hn|].
    intros t. rewrite Hin. unfold d1 at 1. rewrite keys_fold_incr, fold_keys_in.
    rewrite set_of_in. split.
    + intros [[H|H]|[doc' [Hd Ht]]].
      * now left.
      * right. exists doc. split; [now left | assumption].
      * right. exists doc'. split; [now right | assumption].
    + intros [H|[doc' [[<-|Hd] Ht]]].
      * left. now left.
      * left. now right.
      * right. now exists doc'.
Qed.

Lemma keys_doc_freq (corpus : list (list string)) :
  NoDup (keys (doc_freq corpus))
  /\ forall t, In t (keys (doc_freq corpus)) <->
               exists doc, In doc corpus /\ In t doc.
Proof.
  destruct (keys_doc_freq_fold corpus [] (NoDup_nil _)) as [Hn Hin].
  split; [exact Hn|]. intros t. unfold doc_freq. rewrite Hin.
  cbn [keys List.map In]. tauto.
Qed.

Lemma documents_with_le (t : string) (corpus : list (list string)) :
  documents_with t corpus <= List.length corpus.
Proof. apply filter_length_le. Qed.

Lemma documents_with_positive (t : string) (corpus : list (list string)) :
  (exists doc, In doc corpus /\ In t doc) -> 0 < documents_with t corpus.
Proof.
  intros [doc [Hd Ht]]. unfold documents_with.
  assert (H : In doc (filter (mem t) corpus)).
  { apply filter_In. split; [assumption | now apply mem_in]. }
  destruct (filter (mem t) corpus); [destruct H | cbn; lia].
Qed.

(** *** Dictionaries built by a comprehension *)

Lemma keys_map {V W : Type} (f : string * V -> string * W) (d : dict V) :
  (forall e, fst (f e) = fst e) -> keys (List.map f d) = keys d.
Proof.
  intros H. unfold keys. rewrite map_map. apply map_ext. exact H.
Qed.

Lemma lookup_map {V W : Type} (g : string -> V -> W) (d : dict V) (t : string) :
  lookup t (List.map (fun e => (fst e, g (fst e) (snd e))) d)
  = option_map (g t) (lookup t d).
Proof.
  induction d as [|[k v] d IH]; cbn [List.map lookup fst snd]; [reflexivity|].
  destruct (String.eqb_spec k t) as [->|Hne]; [reflexivity | exact IH].
Qed.

End DictFacts.

Section VectorFacts.

Context {F : Type} {A : Arith F}.

Lemma total_of_tokens (tokens : list string) :
  tokens <> [] -> total_of tokens = Z.of_nat (List.length tokens).
Proof.
  intros H. unfold total_of.
  destruct (Z.eqb_spec (Z.of_nat (List.length tokens)) 0) as [E|]; [|reflexivity].
  destruct tokens; [congruence | discriminate E].
Qed.

Lemma keys_tfidf (tokens : list string) (idf : dict F) :
  keys (List.map (tfidf_weight tokens idf) (Counter tokens)) = fromkeys tokens.
Proof.
  rewrite DictFacts.keys_map by reflexivity. apply DictFacts.keys_Counter.
Qed.

Lemma lookup_tfidf (tokens : list string) (idf : dict F) (t : string) :
  In t tokens ->
  lookup t (List.map (tfidf_weight tokens idf) (Counter tokens))
  = Some (fmul (fdiv (of_int (Z.of_nat (count_occ string_dec tokens t)))
                     (of_int (Z.of_nat (List.length tokens))))
               (get t (of_int 1) idf)).
Proof.
  intros Ht. unfold tfidf_weight.
  rewrite (DictFacts.lookup_map
             (fun k v => fmul (fdiv (of_int v) (of_int (total_of tokens)))
                              (get k (of_int 1) idf))).
  rewrite (DictFacts.lookup_Counter tokens t Ht). cbn [option_map].
  rewrite total_of_tokens; [reflexivity|]. intros ->. destruct Ht.
Qed.

Lemma keys_idf (corpus : list (list string)) :
  keys (List.map (@idf_weight F A (Z.of_nat (List.length corpus)))
                 (doc_freq corpus))
  = keys (doc_freq corpus).
Proof. now apply DictFacts.keys_map. Qed.

Lemma lookup_idf (corpus : list (list string)) (t : string) :
  In t (keys (doc_freq corpus)) ->
  lookup t (List.map (idf_weight (Z.of_nat (List.length corpus)))
                     (doc_freq corpus))
  = Some (fadd (flog (fdiv (of_int (Z.of_nat (List.length corpus) + 1))
                           (of_int (Z.of_nat (documents_with t corpus) + 1))))
               (of_int 1)).
Proof.
  intros Ht. unfold idf_weight.
  rewrite (DictFacts.lookup_map
             (fun (k : string) v =>
                fadd (flog (fdiv (of_int (Z.of_nat (List.length corpus) + 1))
                                 (of_int (v + 1))))
                     (of_int 1))).
  rewrite (DictFacts.lookup_of_get t _ Ht), DictFacts.get_doc_freq.
  reflexivity.
Qed.

End VectorFacts.

(** ** The TF-IDF vectors *)

(** X7.  [_build_tfidf_vector] never fails.  Its vector has one entry for
    each distinct token, in the order of the first occurrences, and the
    weight of a token is the share of its occurrences among the tokens,
    times its IDF weight (1.0 for a token the IDF table does not know). *)
Theorem _build_tfidf_vector_term_frequency :
  forall (F : Type) (A : Arith F) (tokens : list string) (idf : dict F),
  exists vec,
    _build_tfidf_vector tokens idf = Ok vec
    /\ keys vec = fromkeys tokens
    /\ NoDup (keys vec)
    /\ (forall t, In t (keys vec) <-> In t tokens)
    /\ (forall t,
           In t tokens ->
           lookup t vec
           = Some (fmul (fdiv (of_int (Z.of_nat (count_occ string_dec tokens t)))
                              (of_int (Z.of_nat (List.length tokens))))
                        (get t (of_int 1) idf))).
Proof.
  intros F A tokens idf.
  exists (List.map (tfidf_weight tokens idf) (Counter tokens)).
  split; [apply _build_tfidf_vector_ok|].
  rewrite keys_tfidf. split; [reflexivity|]. split; [|split].
  - apply DictFacts.fromkeys_nodup.
  - intros t. apply DictFacts.fromkeys_in.
  - intros t. apply lookup_tfidf.
Qed.

(** X8.  [_compute_idf] never fails.  Its table has one entry for each term
    that occurs in a document of the corpus; the document frequency of a term
    is the number of documents it occurs in, however often it occurs in each,
    so it lies between 1 and the size [N] of the corpus, and the weight of
    the term is [log((N + 1) / (df + 1)) + 1]. *)
Theorem _compute_idf_document_frequency :
  forall (F : Type) (A : Arith F) (corpus : list (list string)),
  exists idf,
    _compute_idf corpus = Ok idf
    /\ NoDup (keys idf)
    /\ (forall t, In t (keys idf) <-> exists doc, In doc corpus /\ In t doc)
    /\ (forall t,
           In t (keys idf) ->
           let df := documents_with t corpus in
           1 <= df <= List.length corpus
           /\ lookup t idf
              = Some (fadd (flog (fdiv (of_int (Z.of_nat (List.length corpus) + 1))
                                       (of_int (Z.of_nat df + 1))))
                           (of_int 1))).
Proof.
  intros F A corpus.
  exists (List.map (idf_weight (Z.of_nat (List.length corpus))) (doc_freq corpus)).
  split; [apply _compute_idf_ok|].
  rewrite keys_idf. destruct (DictFacts.keys_doc_freq corpus) as [Hnd Hin].
  split; [exact Hnd|]. split; [exact Hin|].
  intros t Ht df. split; [split|].
  - apply DictFacts.documents_with_positive. now apply Hin.
  - apply DictFacts.documents_with_le.
  - now apply lookup_idf.
Qed.

(** ** Postings that cannot qualify *)

Section BatchMoreFacts.

Context {F : Type} {A : Arith F}.

Lemma word_search_empty_text (pat : string) : Re.word_search pat "" = false.
Proof.
  unfold Re.word_search. cbn [Re.search_from]. unfold Re.match_here.
  cbn [Str.head Re.boundary Re.word_at xorb].
  now rewrite andb_false_r.
Qed.

Lemma matching_skills_empty_text (resume_skills : list string) :
  matching_skills resume_skills "" = [].
Proof.
  unfold matching_skills. induction resume_skills as [|s l IH]; [reflexivity|].
  cbn [filter]. now rewrite word_search_empty_text.
Qed.

Lemma findall_count_empty_text (pat : string) : Re.findall_count pat "" = 0.
Proof.
  unfold Re.findall_count. cbn [Re.findall_from]. unfold Re.match_here.
  cbn [Str.head Re.boundary Re.word_at xorb].
  now rewrite andb_false_r.
Qed.

Lemma extract_ats_keywords_in_empty_text (skills : list string) :
  extract_ats_keywords_in skills "" = [].
Proof.
  unfold extract_ats_keywords_in. cbv zeta.
  change (_normalise "") with "".
  assert (E : job_skill_hits skills "" = []).
  { unfold job_skill_hits. induction skills as [|s l IH]; [reflexivity|].
    cbn [List.map filter snd]. now rewrite findall_count_empty_text. }
  now rewrite E.
Qed.

(** A posting that is not above the threshold when its classification
    returns leaves no trace in the batch. *)
Lemma classify_jobs_batch_drop (l1 l2 : list Job) (job : Job)
      (resume_profile : ResumeProfile) :
  (forall c : ClassifiedJob F,
      classify_job job resume_profile = Ok c -> above_threshold c = false) ->
  classify_jobs_batch (l1 ++ job :: l2) resume_profile
  = classify_jobs_batch (l1 ++ l2) resume_profile.
Proof.
  intros H. unfold classify_jobs_batch. cbv zeta.
  rewrite !classify_all_flat_map, !flat_map_app. cbn [flat_map].
  rewrite !filter_app.
  assert (E : filter above_threshold (classified_of resume_profile job) = []).
  { unfold classified_of.
    destruct (classify_job job resume_profile) as [c|e] eqn:Ec; [|reflexivity].
    cbn [filter]. now rewrite (H c eq_refl). }
  now rewrite E.
Qed.

End BatchMoreFacts.

(** ** The score in binary64 *)

Module Binary64Score.

Import Rounding.

(** An entry of a dictionary whose keys are distinct is what [get]
    returns. *)
Lemma get_of_in {V : Type} (k : string) (v dflt : V) (d : dict V) :
  NoDup (keys d) -> In (k, v) d -> get k dflt d = v.
Proof.
  unfold keys, get. induction d as [|[k' v'] d IH];
    cbn [List.map fst In lookup]; [tauto|].
  intros Hnd [H|H].
  - injection H as -> ->. now rewrite String.eqb_refl.
  - inversion Hnd as [|? ? Hn Hnd']; subst.
    destruct (String.eqb_spec k' k) as [->|Hne].
    + exfalso. apply Hn. change k with (fst (k, v)). now apply in_map.
    + now apply IH.
Qed.

Lemma get_cases {V : Type} (P : V -> Prop) (k : string) (dflt : V) (d : dict V) :
  P dflt -> Forall P (values d) -> P (get k dflt d).
Proof.
  intros Hd H. unfold get. destruct (lookup k d) as [v|] eqn:E; [|assumption].
  rewrite Forall_forall in H. apply H.
  clear -E. induction d as [|[k' v'] d IH]; [discriminate|].
  cbn [lookup] in E. cbn [values List.map snd In].
  destruct (String.eqb k' k); [left; congruence | right; now apply IH].
Qed.

(** A term of the corpus occurs in one document at least and in no more
    documents than the corpus has. *)
Lemma doc_freq_values (corpus : list (list string)) :
  Forall (fun c => 1 <= c <= Z.of_nat (List.length corpus))%Z
         (values (doc_freq corpus)).
Proof.
  apply Forall_forall. intros c Hc. unfold values in Hc.
  apply in_map_iff in Hc as [[k c'] [E Hin]]. cbn [snd] in E. subst c'.
  destruct (DictFacts.keys_doc_freq corpus) as [Hnd Hk].
  rewrite <- (get_of_in k c 0%Z _ Hnd Hin), DictFacts.get_doc_freq.
  pose proof (DictFacts.documents_with_le k corpus).
  assert (0 < documents_with k corpus).
  { apply DictFacts.documents_with_positive. apply Hk.
    unfold keys. change k with (fst (k, c)). now apply in_map. }
  lia.
Qed.

Lemma log_of_two_documents_moderate : log_moderate log_of_two_documents.
Proof. intros q [-> | ->]; vm_compute; reflexivity. Qed.

Section Library.

Variables log pow2 round1 : float -> float.
Hypothesis log_ok : log_moderate log.
Hypothesis pow_ok : pow_finite pow2.

Lemma square_returns (w : float) :
  order_le 400 (Prim2SF w) -> exists y, Binary64.square pow2 w = Ok y.
Proof.
  intros Ho. unfold Binary64.square.
  destruct (PrimFloat.is_nan w); [eauto|].
  destruct (PrimFloat.is_infinity w) eqn:Ei; [eauto|].
  cbv zeta. rewrite pow_ok; [eauto|].
  now apply (Binary64Bounds.leb_of_order_le 0x1p+400 w 348).
Qed.

Lemma magnitude_returns (vec : dict float) :
  Forall (fun w => order_le 400 (Prim2SF w)) (values vec) ->
  exists m, @magnitude float (Binary64.arith log pow2 round1) vec = Ok m.
Proof.
  intros H. unfold magnitude.
  assert (Hs : exists sq, mapM (@fsquare float (Binary64.arith log pow2 round1))
                               (values vec) = Ok sq).
  { induction (values vec) as [|w l IH]; cbn [mapM]; [eauto|].
    inversion H as [|? ? Hw Hl]; subst.
    destruct (square_returns w Hw) as [y Hy].
    cbn [fsquare Binary64.arith]. rewrite Hy. cbn [bind].
    destruct (IH Hl) as [sq Hsq]. cbn [fsquare Binary64.arith] in Hsq.
    rewrite Hsq. cbn [bind]. eauto. }
  destruct Hs as [sq ->]. cbn [bind]. eauto.
Qed.

(** The two inverse document frequencies of a corpus of two documents. *)
Lemma idf_order (resume_tokens job_tokens : list string) :
  Forall (fun v => order_le 301 (Prim2SF v))
         (values (List.map (@idf_weight float (Binary64.arith log pow2 round1) 2)
                           (doc_freq [resume_tokens; job_tokens]))).
Proof.
  unfold values. rewrite map_map. apply Forall_forall. intros v Hv.
  apply in_map_iff in Hv as [[k c] [<- Hin]].
  pose proof (doc_freq_values [resume_tokens; job_tokens]) as Hc.
  rewrite Forall_forall in Hc.
  assert (Hc' : (1 <= c <= 2)%Z).
  { apply Hc. unfold values. change c with (snd (k, c)). now apply in_map. }
  cbn [idf_weight snd fst fadd flog fdiv of_int Binary64.arith].
  apply (Binary64Bounds.order_le_of_leb 0x1p+300 _ 248 eq_refl).
  apply log_ok.
  assert (Hcases : c = 1%Z \/ c = 2%Z) by lia.
  destruct Hcases as [-> | ->]; [right | left]; vm_compute; reflexivity.
Qed.

(** No weight of a TF-IDF vector is [2 ^ 400] or more in absolute value. *)
Lemma tfidf_order (tokens : list string) (idf : dict float) :
  Forall (fun v => order_le 301 (Prim2SF v)) (values idf) ->
  Forall (fun w => order_le 400 (Prim2SF w))
         (values (List.map (@tfidf_weight float
                              (Binary64.arith log pow2 round1) tokens idf)
                           (Counter tokens))).
Proof.
  intros Hidf. unfold values. rewrite map_map. apply Forall_forall.
  intros w Hw. apply in_map_iff in Hw as [[k c] [<- _]].
  cbn [tfidf_weight snd fst fmul fdiv of_int Binary64.arith].
  rewrite mul_spec.
  apply (Binary64Bounds.order_le_weaken (Z.max (65 + 301) (-1074) + 1));
    [lia|].
  apply Binary64Order.mul_order_le.
  - rewrite div_spec.
    apply (Binary64Bounds.order_le_weaken (Z.max (64 - 1 + 1) (-1074) + 1));
      [lia|].
    apply Binary64Order.div_order_le; apply Binary64Bounds.float_of_int_order.
  - apply (get_cases (fun v => order_le 301 (Prim2SF v))); [|exact Hidf].
    apply (Binary64Bounds.order_le_weaken 64); [lia|].
    apply Binary64Bounds.float_of_int_order.
Qed.

(** With such a library the similarity of two texts and their match score
    return, in binary64. *)
Lemma tfidf_similarity_returns (resume_text job_text : string) :
  exists s, @tfidf_similarity float (Binary64.arith log pow2 round1)
              resume_text job_text = Ok s.
Proof.
  rewrite tfidf_similarity_unfold. cbv zeta.
  match goal with
  | |- context [_cosine_similarity ?a ?b] =>
      destruct (Binary64Cosine._cosine_similarity_binary64 log pow2 round1 a b)
        as [H | H]; [exact H|];
      pose proof (magnitude_returns a
                    (tfidf_order _ _ (idf_order _ _))) as [ma Ha];
      pose proof (magnitude_returns b
                    (tfidf_order _ _ (idf_order _ _))) as [mb Hb]
  end.
  exfalso. rewrite _cosine_similarity_unfold in H. cbv zeta in H.
  destruct (set_and _ _); [discriminate|].
  rewrite Ha, Hb in H. cbn [bind] in H.
  destruct (_ || _); [discriminate|].
  unfold float_truediv in H. destruct (feqb _ _); discriminate.
Qed.

Lemma calculate_match_score_returns (resume_profile : ResumeProfile)
      (job_text : string) (alpha beta : float) :
  exists s, @calculate_match_score float (Binary64.arith log pow2 round1)
              resume_profile job_text alpha beta = Ok s
            /\ PrimFloat.leb 0 s = true /\ PrimFloat.leb s 1 = true.
Proof.
  assert (H : exists s, @calculate_match_score float
                          (Binary64.arith log pow2 round1)
                          resume_profile job_text alpha beta = Ok s).
  { unfold calculate_match_score.
    destruct (Str.is_empty (raw_text resume_profile) || Str.is_empty job_text);
      [eauto|].
    destruct (tfidf_similarity_returns (raw_text resume_profile) job_text)
      as [sim ->].
    cbn [bind]. rewrite overlap_ratio_ok. cbn [bind]. eauto. }
  destruct H as [s Hs]. exists s. split; [exact Hs|].
  exact (@calculate_match_score_range float _
           (Binary64Facts.binary64_laws log pow2 round1) _ _ _ _ _ Hs).
Qed.

End Library.

End Binary64Score.

(** ** The match score *)

Section ClipFacts.

Context {F : Type} {A : Arith F}.

(** [max(0.0, min(1.0, x))], case by case. *)
Lemma clip_cases (x : F) :
  (fltb x (of_int 1) = true -> fltb (of_int 0) x = true -> clip x = x)
  /\ (fltb x (of_int 1) = true -> fltb (of_int 0) x = false ->
      clip x = of_int 0)
  /\ (fltb x (of_int 1) = false -> fltb (of_int 0) (of_int 1) = true ->
      clip x = of_int 1).
Proof.
  unfold clip, py_max, py_min. split; [|split]; intros H1 H0; rewrite H1.
  - now rewrite H0.
  - now rewrite H0.
  - now rewrite H0.
Qed.

(** The keywords of the overlap: the distinct keywords of the résumé, and
    those of them that stand in the normalised job text between two word
    boundaries. *)
Lemma overlap_ratio_whole_words (resume_profile : ResumeProfile)
      (job_text : string) :
  exists resume_skills matched : list string,
    NoDup resume_skills
    /\ (forall k, In k resume_skills <-> In k (all_keywords resume_profile))
    /\ NoDup matched
    /\ (forall k, In k matched <->
                  In k (all_keywords resume_profile)
                  /\ exists pre post : string,
                       _normalise job_text = (pre ++ k ++ post)%string
                       /\ whole_word None pre k post)
    /\ overlap_ratio resume_profile job_text
       = Ok (fdiv (of_int (Z.of_nat (List.length matched)))
                  (of_int (Z.max (Z.of_nat (List.length resume_skills)) 1))).
Proof.
  exists (set_of (all_keywords resume_profile)),
         (matching_skills (set_of (all_keywords resume_profile))
                          (_normalise job_text)).
  split; [apply set_of_nodup|]. split; [intros k; apply set_of_in|].
  split; [apply NoDup_filter, set_of_nodup|].
  split; [|apply overlap_ratio_ok].
  intros k. rewrite matching_skills_in, set_of_in, ReFacts.word_search_iff.
  unfold whole_word. split.
  - intros [Hk [pre [post [E [Hb He]]]]]. split; [exact Hk|].
    exists pre, post. auto.
  - intros [Hk [pre [post [E [Hb He]]]]]. split; [exact Hk|].
    exists pre, post. auto.
Qed.

End ClipFacts.

(** C2.  For a profile with a résumé text and a job text that are not
    empty, the score is [alpha * tfidf_sim + beta * overlap] clipped to
    [[0, 1]]: a value below 0 becomes 0, a value of 1 or more (or a NaN)
    becomes 1, any other stays.  The overlap is the number of the distinct
    keywords of the résumé that stand in the normalised job text as whole
    words, between two word boundaries, divided by the number of the
    distinct keywords, or by 1 when the résumé has none: this division
    never fails.  A score that is returned lies in [[0, 1]].  In binary64
    the score never raises [ZeroDivisionError], whatever the C library: it
    returns or raises [OverflowError]; with a library whose [pow] and
    [log] are finite where the engine calls them it returns, a value in
    [[0, 1]].  In exact arithmetic it returns, a value in [[0, 1]]. *)
Theorem calculate_match_score_combines :
  forall (F : Type) (A : Arith F) (L : ArithLaws A)
         (resume_profile : ResumeProfile) (job_text : string) (alpha beta : F),
    raw_text resume_profile <> "" ->
    job_text <> "" ->
    let norm_job := _normalise job_text in
    let keywords := all_keywords resume_profile in
    let score := calculate_match_score resume_profile job_text alpha beta in
    (exists resume_skills matched : list string,
        NoDup resume_skills
        /\ (forall k, In k resume_skills <-> In k keywords)
        /\ NoDup matched
        /\ (forall k, In k matched <->
                      In k keywords
                      /\ exists pre post : string,
                           norm_job = (pre ++ k ++ post)%string
                           /\ whole_word None pre k post)
        /\ let overlap :=
             fdiv (of_int (Z.of_nat (List.length matched)))
                  (of_int (Z.max (Z.of_nat (List.length resume_skills)) 1)) in
           overlap_ratio resume_profile job_text = Ok overlap
           /\ score
              = (tfidf_sim <- tfidf_similarity (raw_text resume_profile)
                                               job_text ;;
                 Ok (clip (fadd (fmul alpha tfidf_sim) (fmul beta overlap)))))
    /\ (keywords = [] ->
        overlap_ratio resume_profile job_text
        = Ok (fdiv (of_int 0) (of_int 1)))
    /\ (forall x : F,
           (fltb x (of_int 1) = true -> fltb (of_int 0) x = true ->
            clip x = x)
           /\ (fltb x (of_int 1) = true -> fltb (of_int 0) x = false ->
               clip x = of_int 0)
           /\ (fltb x (of_int 1) = false ->
               fltb (of_int 0) (of_int 1) = true -> clip x = of_int 1))
    /\ (forall s, score = Ok s ->
                  fleb (of_int 0) s = true /\ fleb s (of_int 1) = true)
    /\ ((exists s, score = Ok s)
        \/ score = Raise ZeroDivisionError \/ score = Raise OverflowError)
    /\ (forall (log pow2 round1 : float -> float) (a b : float),
           let score64 :=
             @calculate_match_score float (Binary64.arith log pow2 round1)
               resume_profile job_text a b in
           ((exists s, score64 = Ok s) \/ score64 = Raise OverflowError)
           /\ (log_moderate log -> pow_finite pow2 ->
               exists s, score64 = Ok s
                         /\ PrimFloat.leb 0 s = true
                         /\ PrimFloat.leb s 1 = true))
    /\ (forall a b : R,
           exists s, @calculate_match_score R Exact.arith
                       resume_profile job_text a b = Ok s
                     /\ (0 <= s <= 1)%R).
Proof.
  intros F A L resume_profile job_text alpha beta Hr Hj
         norm_job keywords score.
  split; [|split; [|split; [|split; [|split; [|split]]]]].
  - destruct (overlap_ratio_whole_words resume_profile job_text)
      as [skills [matched [H1 [H2 [H3 [H4 H5]]]]]].
    exists skills, matched.
    split; [exact H1|]. split; [exact H2|]. split; [exact H3|].
    split; [exact H4|]. cbv zeta. split; [exact H5|].
    subst score. rewrite calculate_match_score_unfold by assumption.
    now rewrite H5.
  - intros Hk. rewrite overlap_ratio_ok. subst keywords. rewrite Hk.
    reflexivity.
  - apply clip_cases.
  - intros s. apply calculate_match_score_range.
  - apply calculate_match_score_cases.
  - intros log pow2 round1 a b score64. split.
    + apply Binary64Cosine.calculate_match_score_binary64.
    + intros Hlog Hpow.
      apply Binary64Score.calculate_match_score_returns; assumption.
  - intros a b.
    destruct (@calculate_match_score_total R Exact.arith resume_profile
                job_text a b CosineExact.no_zero_divisors
                CosineExact.never_overflows) as [s Hs].
    exists s. split; [exact Hs|].
    destruct (@calculate_match_score_range R Exact.arith
                ExactFacts.exact_laws _ _ _ _ _ Hs) as [H0 H1].
    split; now apply ExactFacts.leb_iff.
Qed.

Lemma calculate_match_score_combines_witness :
  (exists s : float,
      @calculate_match_score float two_documents test_profile
        "Python machine learning SQL pandas statistics"
        (@alpha_default float two_documents) (@beta_default float two_documents)
      = Ok s
      /\ PrimFloat.leb 0 s = true /\ PrimFloat.leb s 1 = true)
  /\ (exists s : R,
         @calculate_match_score R Exact.arith test_profile
           "Python machine learning SQL pandas statistics"
           (@alpha_default R Exact.arith) (@beta_default R Exact.arith)
         = Ok s
         /\ (0 <= s <= 1)%R).
Proof.
  assert (Hr : raw_text test_profile <> "") by discriminate.
  assert (Hj : "Python machine learning SQL pandas statistics" <> "")
    by discriminate.
  destruct (calculate_match_score_combines float two_documents
              (Binary64Facts.binary64_laws _ _ _)
              test_profile "Python machine learning SQL pandas statistics"
              (@alpha_default float two_documents)
              (@beta_default float two_documents)
              Hr Hj)
    as [_ [_ [_ [_ [_ [H64 Hexact]]]]]].
  split.
  - exact (proj2 (H64 log_of_two_documents (fun x => PrimFloat.mul x x)
                      (fun x => x) _ _)
                 Binary64Score.log_of_two_documents_moderate
                 Binary64Bounds.mul_pow_finite).
  - apply Hexact.
Defined.

(** ** Similarity, batch and failures in binary64 *)

Section SimilarityFacts.

Context {F : Type} {A : Arith F}.

Lemma set_and_disjoint (a b : list string) :
  (forall t, In t a -> ~ In t b) -> set_and a b = [].
Proof.
  intros H. destruct (set_and a b) as [|t l] eqn:E; [reflexivity|].
  exfalso. assert (Ht : In t (set_and a b)) by (rewrite E; now left).
  apply set_and_in in Ht as [Ha Hb]. exact (H t Ha Hb).
Qed.

Lemma tfidf_similarity_disjoint (resume_text job_text : string) :
  (forall t, In t (_tokenise resume_text) -> ~ In t (_tokenise job_text)) ->
  tfidf_similarity resume_text job_text = Ok (of_int 0).
Proof.
  intros H. rewrite tfidf_similarity_unfold. cbv zeta.
  apply _cosine_similarity_disjoint. rewrite !keys_tfidf.
  apply set_and_disjoint. intros t Ht. rewrite DictFacts.fromkeys_in in Ht |- *.
  now apply H.
Qed.

(** A batch none of whose postings can qualify is empty. *)
Lemma classify_jobs_batch_none (jobs : list Job) (resume_profile : ResumeProfile) :
  (forall job (c : ClassifiedJob F),
      In job jobs -> classify_job job resume_profile = Ok c ->
      above_threshold c = false) ->
  classify_jobs_batch jobs resume_profile = [].
Proof.
  intros H. destruct (classify_jobs_batch jobs resume_profile) as [|c l] eqn:E;
    [reflexivity|].
  exfalso.
  assert (Hc : In c (classify_jobs_batch jobs resume_profile))
    by (rewrite E; now left).
  apply classify_jobs_batch_in in Hc as [job [Hin [Hok Ha]]].
  rewrite (H job c Hin Hok) in Ha. discriminate.
Qed.

(** With an empty résumé text or an empty description the score is 0, and
    the posting has no key skill and no ATS keyword when the description is
    empty. *)
Lemma classify_job_zero_score (job : Job) (resume_profile : ResumeProfile)
      (c : ClassifiedJob F) :
  raw_text resume_profile = ""
  \/ get "description" (PStr "") job = PStr "" ->
  classify_job job resume_profile = Ok c ->
  match_score c = of_int 0
  /\ above_threshold c = fleb MATCH_THRESHOLD (of_int 0).
Proof.
  intros H Hc.
  apply classify_job_ok in Hc as [d [co [u [score [Hd [_ [_ [Hs ->]]]]]]]].
  cbn [match_score above_threshold].
  rewrite calculate_match_score_empty in Hs.
  - injection Hs as <-. now split.
  - destruct H as [H|H]; [now left | right]. rewrite Hd in H. congruence.
Qed.

Lemma classify_job_empty (job : Job) (resume_profile : ResumeProfile)
      (c : ClassifiedJob F) :
  get "description" (PStr "") job = PStr "" ->
  classify_job job resume_profile = Ok c ->
  h1b_sponsor c = None /\ key_skills c = [] /\ ats_keywords c = [].
Proof.
  intros Hd Hc.
  apply classify_job_ok in Hc as [d [co [u [score [Hd' [_ [_ [_ ->]]]]]]]].
  rewrite Hd in Hd'. injection Hd' as <-.
  cbn [h1b_sponsor key_skills ats_keywords].
  split; [reflexivity|]. split.
  - change (_normalise "") with "". now rewrite matching_skills_empty_text.
  - cbv beta zeta delta [extract_ats_keywords].
    apply extract_ats_keywords_in_empty_text.
Qed.

End SimilarityFacts.

Module ThresholdFacts.

Lemma binary64_zero_below (log pow2 round1 : float -> float) :
  @fleb float (Binary64.arith log pow2 round1)
    (@MATCH_THRESHOLD float (Binary64.arith log pow2 round1))
    (@of_int float (Binary64.arith log pow2 round1) 0) = false.
Proof. reflexivity. Qed.

Lemma exact_zero_below :
  @fleb R Exact.arith (@MATCH_THRESHOLD R Exact.arith)
        (@of_int R Exact.arith 0) = false.
Proof.
  unfold MATCH_THRESHOLD, Config.MATCH_THRESHOLD_PCT.
  cbn [fleb fdiv of_int Exact.arith]. unfold Exact.leb.
  destruct (Rle_dec (72 / 100) 0) as [Hle|]; [lra | reflexivity].
Qed.

End ThresholdFacts.

(** X9.  The TF-IDF similarity of two texts without a common token is
    exactly 0, in every arithmetic.  In binary64 the similarity of two
    texts returns or raises [OverflowError], never [ZeroDivisionError] and
    never [KeyError], whatever the C library; it returns with a library
    whose [pow] and [log] are finite where the engine calls them.  What it
    returns can be above 1: [1.0000000000000002] for a text of 16 tokens,
    one of them five times and one four times, and itself (every sum of
    this computation is exact). *)
Theorem tfidf_similarity_no_common_token :
  forall (F : Type) (A : Arith F) (resume_text job_text : string),
    ((forall t, In t (_tokenise resume_text) -> ~ In t (_tokenise job_text)) ->
     tfidf_similarity resume_text job_text = Ok (of_int 0))
    /\ (forall log pow2 round1 : float -> float,
           let sim :=
             @tfidf_similarity float (Binary64.arith log pow2 round1)
               resume_text job_text in
           ((exists s, sim = Ok s) \/ sim = Raise OverflowError)
           /\ (log_moderate log -> pow_finite pow2 -> exists s, sim = Ok s))
    /\ (let text :=
          ("python python python python python sql sql sql sql "
           ++ "pandas numpy spark excel tableau docker linux")%string in
        @tfidf_similarity float two_documents text text
        = Ok 0x1.0000000000001p+0%float)
    /\ PrimFloat.ltb 1 0x1.0000000000001p+0 = true
    /\ @tfidf_similarity float two_documents "Python SQL" "Java Kotlin"
       = Ok 0%float.
Proof.
  intros F A resume_text job_text.
  split; [apply tfidf_similarity_disjoint|].
  split; [|split; [|split]].
  2, 3, 4: vm_compute; reflexivity.
  intros log pow2 round1 sim. split.
  - apply Binary64Cosine.tfidf_similarity_binary64.
  - intros Hlog Hpow. now apply Binary64Score.tfidf_similarity_returns.
Qed.

(** X11.  In binary64, whatever the C library, and in exact arithmetic: a
    profile whose résumé text is empty gets an empty batch, and a posting
    whose description is missing or empty is never in the batch, which is
    the batch of the other postings; such a posting is classified with the
    score 0, no key skill, no ATS keyword and an unknown sponsorship.  The
    batch is not always empty: the posting of the samples qualifies. *)
Theorem classify_jobs_batch_never_qualifies :
  forall (jobs : list Job) (resume_profile : ResumeProfile),
    (forall log pow2 round1 : float -> float,
        raw_text resume_profile = "" ->
        @classify_jobs_batch float (Binary64.arith log pow2 round1)
          jobs resume_profile = [])
    /\ (raw_text resume_profile = "" ->
        @classify_jobs_batch R Exact.arith jobs resume_profile = [])
    /\ (forall (job : Job) (before after : list Job),
           get "description" (PStr "") job = PStr "" ->
           (forall log pow2 round1 : float -> float,
               @classify_jobs_batch float (Binary64.arith log pow2 round1)
                 (before ++ job :: after) resume_profile
               = @classify_jobs_batch float (Binary64.arith log pow2 round1)
                   (before ++ after) resume_profile)
           /\ @classify_jobs_batch R Exact.arith
                (before ++ job :: after) resume_profile
              = @classify_jobs_batch R Exact.arith
                  (before ++ after) resume_profile
           /\ (forall (F : Type) (A : Arith F) (c : ClassifiedJob F),
                  classify_job job resume_profile = Ok c ->
                  match_score c = of_int 0
                  /\ h1b_sponsor c = None
                  /\ key_skills c = []
                  /\ ats_keywords c = []))
    /\ List.map posting
         (@classify_jobs_batch float two_documents
            [empty_job; test_job; broken_job] test_profile)
       = [test_job].
Proof.
  intros jobs resume_profile. split; [|split; [|split]].
  - intros log pow2 round1 Hr. apply classify_jobs_batch_none.
    intros job c _ Hc.
    destruct (classify_job_zero_score job resume_profile c (or_introl Hr) Hc)
      as [_ ->].
    apply ThresholdFacts.binary64_zero_below.
  - intros Hr. apply classify_jobs_batch_none. intros job c _ Hc.
    destruct (classify_job_zero_score job resume_profile c (or_introl Hr) Hc)
      as [_ ->].
    apply ThresholdFacts.exact_zero_below.
  - intros job before after Hd. split; [|split].
    + intros log pow2 round1. apply classify_jobs_batch_drop. intros c Hc.
      destruct (classify_job_zero_score job resume_profile c (or_intror Hd) Hc)
        as [_ ->].
      apply ThresholdFacts.binary64_zero_below.
    + apply classify_jobs_batch_drop. intros c Hc.
      destruct (classify_job_zero_score job resume_profile c (or_intror Hd) Hc)
        as [_ ->].
      apply ThresholdFacts.exact_zero_below.
    + intros F A c Hc.
      destruct (classify_job_zero_score job resume_profile c (or_intror Hd) Hc)
        as [Hs _].
      destruct (classify_job_empty job resume_profile c Hd Hc)
        as [H1 [H2 H3]].
      auto.
  - vm_compute. reflexivity.
Qed.

(** X12.  [classify_job] raises [AttributeError] when the description of
    the posting is not a string; with a description that is one and a score
    that is computed, it raises [TypeError] when the company is not a string,
    or else when the URL is not a string, and returns otherwise.  It raises
    nothing but these two and the two arithmetic exceptions; in binary64 it
    never raises [ZeroDivisionError], and with a C library whose [pow] and
    [log] are finite where the engine calls them, as in exact arithmetic, it
    returns for every posting whose three entries are strings or missing:
    the batch then loses a posting to an exception only for an entry that is
    not a string. *)
Theorem classify_job_failure_modes :
  forall (F : Type) (A : Arith F) (L : ArithLaws A) (job : Job)
         (resume_profile : ResumeProfile),
    let description := get "description" (PStr "") job in
    let company := get "company" (PStr "") job in
    let url := get "url" (PStr "") job in
    ((forall s, description <> PStr s) ->
     classify_job job resume_profile = Raise AttributeError)
    /\ (forall d score,
           description = PStr d ->
           calculate_match_score resume_profile d alpha_default beta_default
           = Ok score ->
           ((forall s, company <> PStr s) ->
            classify_job job resume_profile = Raise TypeError)
           /\ (forall co, company = PStr co -> (forall s, url <> PStr s) ->
                          classify_job job resume_profile = Raise TypeError)
           /\ (forall co u, company = PStr co -> url = PStr u ->
                            exists c, classify_job job resume_profile = Ok c
                                      /\ posting c = job
                                      /\ match_score c = score))
    /\ (forall e,
           classify_job job resume_profile = Raise e ->
           e = AttributeError \/ e = TypeError
           \/ e = ZeroDivisionError \/ e = OverflowError)
    /\ (forall log pow2 round1 : float -> float,
           (forall e,
               @classify_job float (Binary64.arith log pow2 round1)
                 job resume_profile = Raise e ->
               e = AttributeError \/ e = TypeError \/ e = OverflowError)
           /\ (log_moderate log -> pow_finite pow2 ->
               forall d co u,
                 description = PStr d -> company = PStr co -> url = PStr u ->
                 exists c, @classify_job float (Binary64.arith log pow2 round1)
                             job resume_profile = Ok c))
    /\ (forall d co u,
           description = PStr d -> company = PStr co -> url = PStr u ->
           exists c, @classify_job R Exact.arith job resume_profile = Ok c).
Proof.
  intros F A L job resume_profile description company url.
  assert (Hreturns :
            forall (G : Type) (B : Arith G) d co u score,
              description = PStr d -> company = PStr co -> url = PStr u ->
              @calculate_match_score G B resume_profile d
                alpha_default beta_default = Ok score ->
              exists c, @classify_job G B job resume_profile = Ok c).
  { intros G B d co u score Hd Hc Hu Hs. unfold classify_job.
    fold description company url. rewrite Hd, Hc, Hu.
    cbn [expect_str bind]. rewrite Hs. cbn [bind]. eexists. reflexivity. }
  assert (Hraises :
            forall (G : Type) (B : Arith G) (P : exn -> Prop),
              P AttributeError -> P TypeError ->
              (forall d e, @calculate_match_score G B resume_profile d
                             alpha_default beta_default = Raise e -> P e) ->
              forall e, @classify_job G B job resume_profile = Raise e -> P e).
  { intros G B P Pa Pt Ps e. unfold classify_job.
    fold description company url.
    destruct description as [d| |n]; cbn [expect_str bind];
      [| intros [= <-]; exact Pa | intros [= <-]; exact Pa].
    destruct (calculate_match_score resume_profile d alpha_default beta_default)
      as [score|e'] eqn:Hs; cbn [bind].
    - destruct company as [co| |n]; cbn [expect_str bind];
        [| intros [= <-]; exact Pt | intros [= <-]; exact Pt].
      destruct url as [u| |n]; cbn [expect_str bind];
        [discriminate | |]; intros [= <-]; exact Pt.
    - intros [= <-]. exact (Ps d e' Hs). }
  split; [apply classify_job_bad_description|]. split; [|split; [|split]].
  - intros d score Hd Hs. unfold classify_job.
    fold description company url. rewrite Hd. cbn [expect_str bind].
    rewrite Hs. cbn [bind]. split; [|split].
    + intros Hc. destruct company as [s| |n]; try reflexivity.
      now elim (Hc s).
    + intros co -> Hu. cbn [expect_str bind].
      destruct url as [s| |n]; try reflexivity. now elim (Hu s).
    + intros co u -> ->. cbn [expect_str bind]. eexists.
      split; [reflexivity|]. split; reflexivity.
  - apply (Hraises F A); [now left | right; now left |].
    intros d e He.
    destruct (calculate_match_score_cases resume_profile d
                alpha_default beta_default) as [[score Hs]|[Hs|Hs]];
      rewrite Hs in He; [discriminate | |]; injection He as <-.
    + right. right. now left.
    + right. right. now right.
  - intros log pow2 round1. split.
    + apply (Hraises float (Binary64.arith log pow2 round1));
        [now left | right; now left |].
      intros d e He.
      destruct (Binary64Cosine.calculate_match_score_binary64 log pow2 round1
                  resume_profile d
                  (@alpha_default float (Binary64.arith log pow2 round1))
                  (@beta_default float (Binary64.arith log pow2 round1)))
        as [[score Hs]|Hs]; rewrite Hs in He; [discriminate|].
      injection He as <-. right. now right.
    + intros Hlog Hpow d co u Hd Hc Hu.
      destruct (Binary64Score.calculate_match_score_returns log pow2 round1
                  Hlog Hpow resume_profile d
                  (@alpha_default float (Binary64.arith log pow2 round1))
                  (@beta_default float (Binary64.arith log pow2 round1)))
        as [score [Hs _]].
      exact (Hreturns _ _ d co u score Hd Hc Hu Hs).
  - intros d co u Hd Hc Hu.
    destruct (@calculate_match_score_total R Exact.arith
                resume_profile d (@alpha_default R Exact.arith)
                (@beta_default R Exact.arith)
                CosineExact.no_zero_divisors CosineExact.never_overflows)
      as [score Hs].
    exact (Hreturns _ _ d co u score Hd Hc Hu Hs).
Qed.

Lemma classify_job_failure_modes_witness :
  @classify_job float two_documents broken_job test_profile
  = Raise AttributeError
  /\ (exists c, @classify_job float two_documents test_job test_profile = Ok c).
Proof.
  pose proof (classify_job_failure_modes float two_documents
                (Binary64Facts.binary64_laws _ _ _) test_job test_profile)
    as [_ [_ [_ [H64 _]]]].
  split.
  - apply (classify_job_failure_modes float two_documents
             (Binary64Facts.binary64_laws _ _ _) broken_job test_profile).
    intros s. discriminate.
  - exact (proj2 (H64 log_of_two_documents (fun x => PrimFloat.mul x x)
                      (fun x => x))
                 Binary64Score.log_of_two_documents_moderate
                 Binary64Bounds.mul_pow_finite
                 _ _ _ eq_refl eq_refl eq_refl).
Defined.

(** ** The résumé keywords *)

Module ExtractionFacts.

Lemma findall_positive (skip : nat) (prev : option ascii) (pat s : string) :
  0 < Re.findall_from skip prev pat s -> Re.search_from prev pat s = true.
Proof.
  revert skip prev. induction s as [|c s IH]; intros skip prev.
  - destruct skip; cbn [Re.findall_from Re.search_from]; [|lia].
    destruct (Re.match_here prev pat ""); [reflexivity | lia].
  - cbn [Re.search_from]. destruct skip as [|k]; cbn [Re.findall_from].
    + destruct (Re.match_here prev pat (String c s)); [reflexivity|].
      intros H. rewrite (IH _ _ H). apply orb_true_r.
    + intros H. rewrite (IH _ _ H). apply orb_true_r.
Qed.

Lemma search_findall (prev : option ascii) (pat s : string) :
  Re.search_from prev pat s = true -> 0 < Re.findall_from 0 prev pat s.
Proof.
  revert prev. induction s as [|c s IH]; intros prev;
    cbn [Re.search_from Re.findall_from].
  - rewrite orb_false_r. intros ->. lia.
  - destruct (Re.match_here prev pat (String c s)); [lia|].
    cbn [orb]. apply IH.
Qed.

(** [re.search] finds a match exactly when [re.findall] finds one. *)
Lemma word_search_findall (pat s : string) :
  Re.word_search pat s = true <-> 0 < Re.findall_count pat s.
Proof.
  split; [apply search_findall | apply findall_positive].
Qed.



Lemma found_in (skills_set : list string) (norm_text skill : string) :
  In skill (DataExtraction.found skills_set norm_text) <->
  In skill skills_set /\ Re.word_search skill norm_text = true.
Proof.
  unfold DataExtraction.found. now rewrite filter_In, StrOrder.sorted_str_in.
Qed.

Lemma found_nodup (skills_set : list string) (norm_text : string) :
  NoDup skills_set -> NoDup (DataExtraction.found skills_set norm_text).
Proof.
  intros H. unfold DataExtraction.found. apply NoDup_filter.
  unfold sorted_str. eapply Permutation_NoDup; [apply stable_sort_perm|].
  assumption.
Qed.

Lemma fold_keys_fresh (l seen : list string) :
  NoDup (seen ++ l) ->
  fold_left (fun seen k => if mem k seen then seen else seen ++ [k]) l seen
  = seen ++ l.
Proof.
  revert seen. induction l as [|k l IH]; intros seen H; cbn [fold_left].
  - now rewrite app_nil_r.
  - assert (Hk : mem k seen = false).
    { destruct (mem k seen) eqn:E; [|reflexivity]. apply mem_in in E.
      apply NoDup_remove_2 in H. elim H. apply in_or_app. now left. }
    rewrite Hk, IH; rewrite <- app_assoc; [reflexivity | exact H].
Qed.

Lemma fromkeys_fixed (l : list string) : NoDup l -> fromkeys l = l.
Proof. intros H. unfold fromkeys. now rewrite fold_keys_fresh. Qed.


Lemma skill_sets_disjoint (skill : string) :
  In skill Config.TECH_SKILLS_SET -> ~ In skill Config.SOFT_SKILLS_SET.
Proof.
  intros Ht Hs.
  assert (H : forallb (fun s => negb (mem s Config.SOFT_SKILLS_SET))
                      Config.TECH_SKILLS_SET = true) by (vm_compute; reflexivity).
  rewrite forallb_forall in H. specialize (H skill Ht).
  apply (proj2 (mem_in skill _)) in Hs. rewrite Hs in H. discriminate.
Qed.

Lemma found_all_nodup (norm_text : string) :
  NoDup (DataExtraction.found Config.TECH_SKILLS_SET norm_text
         ++ DataExtraction.found Config.SOFT_SKILLS_SET norm_text).
Proof.
  apply NoDup_app.
  - apply found_nodup, set_of_nodup.
  - apply found_nodup, set_of_nodup.
  - intros x Ht Hs.
    apply (proj1 (found_in Config.TECH_SKILLS_SET norm_text x)) in Ht.
    apply (proj1 (found_in Config.SOFT_SKILLS_SET norm_text x)) in Hs.
    exact (skill_sets_disjoint x (proj1 Ht) (proj1 Hs)).
Qed.

Lemma all_keywords_app (text : string) :
  DataExtraction.all_keywords (DataExtraction.extract_resume_keywords text)
  = DataExtraction.found Config.TECH_SKILLS_SET (DataExtraction._normalise text)
    ++ DataExtraction.found Config.SOFT_SKILLS_SET (DataExtraction._normalise text).
Proof.
  unfold DataExtraction.extract_resume_keywords. cbn [DataExtraction.all_keywords].
  apply fromkeys_fixed, found_all_nodup.
Qed.

Lemma nodup_fixed (l : list string) : NoDup l -> set_of l = l.
Proof. apply nodup_fixed_point. Qed.

End ExtractionFacts.

Module LoadFacts.

Import TextFacts.

Lemma lstrip_lstrip (s : string) : Str.lstrip (Str.lstrip s) = Str.lstrip s.
Proof.
  induction s as [|c s IH]; [reflexivity|]. cbn [Str.lstrip].
  destruct (Char.is_space c) eqn:E; [exact IH|]. cbn [Str.lstrip]. now rewrite E.
Qed.

Lemma strip_strip (s : string) : Str.strip (Str.strip s) = Str.strip s.
Proof.
  unfold Str.strip. rewrite (rstrip_lstrip (Str.rstrip s)) by apply rstrip_rstrip.
  apply lstrip_lstrip.
Qed.

Lemma rstrip_blank (s : string) :
  (forall c, In c (chars s) -> Char.is_space c = true) -> Str.rstrip s = "".
Proof.
  induction s as [|c s IH]; intros H; [reflexivity|]. cbn [Str.rstrip].
  rewrite IH by (intros; apply H; now right). now rewrite (H c (or_introl eq_refl)).
Qed.

Lemma join_blank (pages : list (option string)) (c : ascii) :
  (forall p, In p pages -> p = None) ->
  In c (chars (join (String (ascii_of_nat 10) "")
                    (List.map DataExtraction.page_text pages))) ->
  Char.is_space c = true.
Proof.
  induction pages as [|p pages IH]; intros H; [intros []|].
  rewrite (H p (or_introl eq_refl)). cbn [List.map DataExtraction.page_text].
  destruct pages as [|q pages]; [intros []|].
  change (join ?sep ("" :: ?l)) with (sep ++ join sep l)%string.
  cbn [append chars list_ascii_of_string In]. fold (chars (join (String (ascii_of_nat 10) "")
    (List.map DataExtraction.page_text (q :: pages)))).
  intros [<-|Hc]; [reflexivity|].
  apply IH; [|exact Hc]. intros; apply H. now right.
Qed.

End LoadFacts.

(** ** The résumé profile *)


(** X14.  [load_resume] raises [FileNotFoundError] when the file does not
    exist and [ValueError] when the pages hold no text but white space, as
    for a PDF without pages or with pages of images only; otherwise it
    returns the keywords of the stripped text, so the text of a profile that
    was loaded is never empty and has no white space at either end. *)
Theorem load_resume_text_not_empty :
  forall (file_exists : bool) (pages : list (option string)),
    let full_text :=
      Str.strip (join (String (ascii_of_nat 10) "")
                      (List.map DataExtraction.page_text pages)) in
    (file_exists = false ->
     DataExtraction.load_resume file_exists pages
     = DataExtraction.Failed DataExtraction.FileNotFoundError)
    /\ (file_exists = true -> full_text = "" ->
        DataExtraction.load_resume file_exists pages
        = DataExtraction.Failed DataExtraction.ValueError)
    /\ (file_exists = true -> full_text <> "" ->
        DataExtraction.load_resume file_exists pages
        = DataExtraction.Loaded (DataExtraction.extract_resume_keywords full_text))
    /\ (file_exists = true -> (forall p, In p pages -> p = None) ->
        DataExtraction.load_resume file_exists pages
        = DataExtraction.Failed DataExtraction.ValueError)
    /\ (forall keywords,
           DataExtraction.load_resume file_exists pages
           = DataExtraction.Loaded keywords ->
           DataExtraction.raw_text keywords <> ""
           /\ Str.strip (DataExtraction.raw_text keywords)
              = DataExtraction.raw_text keywords).
Proof.
  intros file_exists pages full_text.
  unfold DataExtraction.load_resume, DataExtraction.get_resume_text.
  cbv zeta. fold full_text.
  split; [intros ->; reflexivity|].
  split; [intros -> ->; reflexivity|].
  split; [intros -> H; cbn [negb]; now rewrite (is_empty_false _ H)|].
  split.
  - intros -> H. cbn [negb].
    assert (E : full_text = "").
    { unfold full_text, Str.strip. rewrite LoadFacts.rstrip_blank; [reflexivity|].
      intros c. now apply LoadFacts.join_blank. }
    now rewrite E.
  - intros keywords. destruct file_exists; cbn [negb]; [|discriminate].
    destruct (Str.is_empty full_text) eqn:E; [discriminate|].
    intros [= <-]. cbn [DataExtraction.raw_text DataExtraction.extract_resume_keywords].
    split.
    + intros E'. rewrite E' in E. discriminate.
    + apply LoadFacts.strip_strip.
Qed.

(** X15.  For a profile that [extract_resume_keywords] built, every key
    skill of a classified posting is one of its ATS keywords, unless the
    posting has the full twenty of them: a key skill is a known skill that
    occurs in the description. *)
Theorem key_skills_among_ats_keywords :
  forall (F : Type) (A : Arith F) (job : Job) (text : string)
         (c : ClassifiedJob F),
    classify_job job
      (DataExtraction.as_profile (DataExtraction.extract_resume_keywords text))
    = Ok c ->
    (forall k, In k (key_skills c) -> In k (ats_keywords c))
    \/ List.length (ats_keywords c) = 20.
Proof.
  intros F A job text c H.
  apply classify_job_ok in H as [d [co [u [score [_ [_ [_ [_ ->]]]]]]]].
  cbn [key_skills ats_keywords].
  cbv beta zeta delta [extract_ats_keywords].
  rewrite extract_ats_keywords_in_ranking.
  set (known := set_union Config.TECH_SKILLS_SET Config.SOFT_SKILLS_SET).
  destruct (Nat.le_gt_cases (List.length (ranking (_normalise d) known)) 20)
    as [Hle|Hgt].
  - left. intros k Hk. rewrite firstn_all2 by exact Hle.
    apply (proj1 (StrOrder.sorted_str_in _ k)) in Hk.
    destruct (proj1 (matching_skills_in _ _ k) Hk) as [Hin Hs].
    apply (proj1 (set_of_in _ k)) in Hin.
    change (In k (DataExtraction.all_keywords
                    (DataExtraction.extract_resume_keywords text))) in Hin.
    rewrite (ExtractionFacts.all_keywords_app text) in Hin.
    apply (proj2 (ranking_in (_normalise d) known k)). split.
    + unfold known. apply (proj2 (set_union_in _ _ k)).
      destruct (proj1 (in_app_iff _ _ k) Hin) as [Ht|Ht].
      * left. exact (proj1 (proj1 (ExtractionFacts.found_in _ _ k) Ht)).
      * right. exact (proj1 (proj1 (ExtractionFacts.found_in _ _ k) Ht)).
    + exact (proj1 (ExtractionFacts.word_search_findall k (_normalise d)) Hs).
  - right. rewrite length_firstn. lia.
Qed.

Lemma key_skills_among_ats_keywords_witness :
  match @classify_job float Binary64.plain test_job
          (DataExtraction.as_profile
             (DataExtraction.extract_resume_keywords
                "Python, SQL, machine learning, pandas, statistics")) with
  | Ok c =>
      key_skills c = ["pandas"; "python"; "sql"; "statistics"]
      /\ ((forall k, In k (key_skills c) -> In k (ats_keywords c))
          \/ List.length (ats_keywords c) = 20)
  | Raise _ => False
  end.
Proof.
  destruct (@classify_job float Binary64.plain test_job
              (DataExtraction.as_profile
                 (DataExtraction.extract_resume_keywords
                    "Python, SQL, machine learning, pandas, statistics")))
    as [c|e] eqn:E.
  - split.
    + revert E. vm_compute. intros [= <-]. reflexivity.
    + exact (key_skills_among_ats_keywords float Binary64.plain test_job _ c E).
  - revert E. vm_compute. discriminate.
Defined.
